(** * reverse-karaoke: the audio similarity engine of [AudioManager.js]

    A shallow embedding of [reverseAudioBuffer], the four descriptor
    extractors, the similarity reductions and [compareAudio], followed by the
    properties the specification states about them.

    JavaScript numbers are IEEE-754 doubles.  The engine is embedded once,
    over the arithmetic operations the source calls ([NumOps]), and read at
    two carriers:
    - [Float64]: binary64 with the kernel's primitive operations, which are
      the operations the source performs; [Math.log], [Math.log10] and
      [Math.pow], whose results ECMAScript leaves to the host, are taken as
      parameters there;
    - [RealNum]: the real numbers, the exact arithmetic the doubles
      approximate, where the analytic statements are proved.
    Loop counters, lengths and array indices are integers far below 2^53,
    which doubles represent exactly; they are embedded as [nat] and [Z]. *)

From Stdlib Require Import ZArith List Bool Lia String.
From Stdlib Require Import Floats.
From Stdlib Require Import Reals Lra.
Import ListNotations.

Set Implicit Arguments.

(** ** Numbers *)

Record NumOps : Type := {
  num : Type;
  of_Z : Z -> num;                      (* an integer-valued Number *)
  n_add : num -> num -> num;
  n_sub : num -> num -> num;
  n_mul : num -> num -> num;
  n_div : num -> num -> num;
  n_abs : num -> num;                   (* Math.abs *)
  n_sqrt : num -> num;                  (* Math.sqrt *)
  n_log : num -> num;                   (* Math.log *)
  n_log10 : num -> num;                 (* Math.log10 *)
  n_pow : num -> num -> num;            (* Math.pow *)
  n_max : num -> num -> num;            (* Math.max, two arguments *)
  n_min : num -> num -> num;            (* Math.min, two arguments *)
  n_round : num -> num;                 (* Math.round *)
  n_floor : num -> Z;                   (* Math.floor, read as a loop bound *)
  n_lt : num -> num -> bool;            (* x < y *)
  n_le : num -> num -> bool;            (* x <= y *)
  n_eq : num -> num -> bool;            (* x === y *)
  n_above_neg_infinity : num -> bool;   (* x > -Infinity *)
  n_undefined : num                     (* what an absent array element
                                           becomes in arithmetic: NaN *)
}.

Declare Scope num_scope.
Delimit Scope num_scope with num.

Notation "x + y" := (n_add _ x y) : num_scope.
Notation "x - y" := (n_sub _ x y) : num_scope.
Notation "x * y" := (n_mul _ x y) : num_scope.
Notation "x / y" := (n_div _ x y) : num_scope.
Notation "x <? y" := (n_lt _ x y) : num_scope.
Notation "x >? y" := (n_lt _ y x) : num_scope.
Notation "x >=? y" := (n_le _ y x) : num_scope.
Notation "x =? y" := (n_eq _ x y) : num_scope.

(** A decimal literal [m / 10^k] of the source, such as [0.35] or [1e-10].
    Both [m] and [10^k] are exactly representable wherever the source writes
    one, so the correctly rounded quotient is the double the literal denotes. *)
Definition lit (N : NumOps) (m : Z) (k : nat) : num N :=
  n_div N (of_Z N m) (of_Z N (10 ^ Z.of_nat k)).

(** *** The real numbers *)

Definition Rltb (x y : R) : bool := if Rlt_dec x y then true else false.
Definition Rleb (x y : R) : bool := if Rle_dec x y then true else false.
Definition Reqb (x y : R) : bool := if Req_dec_T x y then true else false.

(** [Math.round]: the nearest integer, a tie going up. *)
Definition Rround (x : R) : R := IZR (Zfloor (x + / 2)).

Definition RealNum : NumOps := {|
  num := R;
  of_Z := IZR;
  n_add := Rplus;
  n_sub := Rminus;
  n_mul := Rmult;
  n_div := Rdiv;
  n_abs := Rabs;
  n_sqrt := sqrt;
  n_log := ln;
  n_log10 := fun x => (ln x / ln 10)%R;
  n_pow := Rpower;
  n_max := Rmax;
  n_min := Rmin;
  n_round := Rround;
  n_floor := Zfloor;
  n_lt := Rltb;
  n_le := Rleb;
  n_eq := Reqb;
  n_above_neg_infinity := fun _ => true;
  n_undefined := 0%R
|}.

(** *** Doubles *)

Module F64.

Definition of_Z (z : Z) : float := SF2Prim (binary_normalize prec emax z 0 false).

(** The integer part of a finite double, rounded down; [0] where the
    double is not finite (a loop bounded by it does not run). *)
Definition floor (x : float) : Z :=
  match Prim2SF x with
  | S754_finite s m e =>
      let v := cond_Zopp s (Zpos m) in
      if (0 <=? e)%Z then (v * 2 ^ e)%Z else (v / 2 ^ (- e))%Z
  | _ => 0%Z
  end.

(** [Math.round]: [floor (x + 1/2)] computed exactly; NaN and the
    infinities are returned as they are, and [-0] for [-0.5 <= x <= -0]. *)
Definition round (x : float) : float :=
  match Prim2SF x with
  | S754_finite s m e =>
      if (0 <=? e)%Z then x
      else
        let v := cond_Zopp s (Zpos m) in
        let r := ((2 * v + 2 ^ (- e)) / (2 * 2 ^ (- e)))%Z in
        if (r =? 0)%Z then (if s then neg_zero else zero) else of_Z r
  | _ => x
  end.

(** The sign bit. *)
Definition sign (x : float) : bool :=
  match Prim2SF x with
  | S754_zero s | S754_infinity s | S754_finite s _ _ => s
  | S754_nan => false
  end.

(** Neither zero, nor infinite, nor NaN. *)
Definition finite_nonzero (x : float) : bool :=
  match Prim2SF x with
  | S754_finite _ _ _ => true
  | _ => false
  end.

(** [Math.max] and [Math.min]: NaN if either argument is NaN, and [+0]
    above [-0]. *)
Definition max (x y : float) : float :=
  match SFcompare (Prim2SF x) (Prim2SF y) with
  | None => nan
  | Some Lt => y
  | Some Gt => x
  | Some Eq => if sign x then y else x
  end.

Definition min (x y : float) : float :=
  match SFcompare (Prim2SF x) (Prim2SF y) with
  | None => nan
  | Some Lt => x
  | Some Gt => y
  | Some Eq => if sign x then x else y
  end.

End F64.

(** The host's transcendental functions. *)
Record MathLib : Type := {
Math_log : float -> float;
Math_log10 : float -> float;
Math_pow : float -> float -> float
}.

(** A host for the examples in which no transcendental function is consulted. *)
Definition no_math : MathLib := {|
  Math_log := fun x => x;
  Math_log10 := fun x => x;
  Math_pow := fun x _ => x
|}.

Definition Float64 (M : MathLib) : NumOps := {|
num := float;
of_Z := F64.of_Z;
n_add := PrimFloat.add;
n_sub := PrimFloat.sub;
n_mul := PrimFloat.mul;
n_div := PrimFloat.div;
n_abs := PrimFloat.abs;
n_sqrt := PrimFloat.sqrt;
n_log := Math_log M;
n_log10 := Math_log10 M;
n_pow := Math_pow M;
n_max := F64.max;
n_min := F64.min;
n_round := F64.round;
n_floor := F64.floor;
n_lt := PrimFloat.ltb;
n_le := PrimFloat.leb;
n_eq := PrimFloat.eqb;
n_above_neg_infinity := fun x => PrimFloat.ltb neg_infinity x;
n_undefined := nan
|}.

(** ** The engine, over any carrier *)

(** The values the counter takes in [for (v = start; v < stop; v += step)].
    [stop - start] rounds suffice when [step] is positive
    ([for_loop_unit], [for_loop_strided]). *)
Fixpoint loop_from (fuel v stop step : nat) : list nat :=
  match fuel with
  | O => []
  | S fuel' => if (v <? stop)%nat then v :: loop_from fuel' (v + step) stop step else []
  end.

Definition for_loop (start stop step : nat) : list nat :=
  loop_from (stop - start) start stop step.

(** [a[i] = f(a[i])]; an index outside the array leaves it as it is. *)
Fixpoint update {A : Type} (i : nat) (f : A -> A) (a : list A) : list A :=
  match a, i with
  | [], _ => []
  | x :: a', O => f x :: a'
  | x :: a', S i' => x :: update i' f a'
  end.

(** [a.slice(from, to)]: a fresh copy of the elements from [from] up to [to]. *)
Definition slice {A : Type} (a : list A) (from to : nat) : list A :=
  firstn (to - from) (skipn from a).

Inductive Error : Type :=
| JsError (message : string)     (* new Error(message) *)
| IndexSizeError                 (* getChannelData beyond the channels *)
| RangeError.                    (* TypedArray.set with too long a source *)

Inductive Result (A : Type) : Type :=
| Returned (a : A)
| Threw (e : Error).
Arguments Threw {A} e.

Section Engine.

Variable N : NumOps.
Local Open Scope num_scope.

Local Abbreviation number := (num N).
Local Notation "# z" := (of_Z N z) (at level 1, format "# z").
Local Abbreviation dec := (lit N).
Local Abbreviation undefined := (n_undefined N).

Definition of_nat (n : nat) : number := #(Z.of_nat n).

(** *** The world: typed arrays by reference, and the console *)

(** A reference to a typed array, and the samples of a typed array. *)
Local Abbreviation loc := nat (only parsing).
Local Abbreviation Float32Array := (list number) (only parsing).

(** A console line: its fixed text and the numbers it prints. *)
Inductive ConsoleEntry : Type :=
| ConsoleLog (text : string) (values : list number)
| ConsoleError (text : string) (e : Error).

Record World : Type := {
  heap : list Float32Array;
  console : list ConsoleEntry
}.

Definition M (A : Type) : Type := World -> Result A * World.

Definition ret {A} (a : A) : M A := fun w => (Returned a, w).
Definition throw {A} (e : Error) : M A := fun w => (Threw e, w).
Definition bind {A B} (m : M A) (k : A -> M B) : M B :=
  fun w => match m w with
           | (Returned a, w') => k a w'
           | (Threw e, w') => (Threw e, w')
           end.
Definition try_catch {A} (body : M A) (handler : Error -> M A) : M A :=
  fun w => match body w with
           | (Returned a, w') => (Returned a, w')
           | (Threw e, w') => handler e w'
           end.

Local Notation "x <- m ;; k" := (bind m (fun x => k))
  (at level 61, m at next level, right associativity).
Local Notation "m ;;; k" := (bind m (fun _ => k))
  (at level 61, right associativity).

Definition console_log (text : string) (values : list number) : M unit :=
  fun w => (Returned tt,
            {| heap := heap w; console := console w ++ [ConsoleLog text values] |}).
Definition console_error (text : string) (e : Error) : M unit :=
  fun w => (Returned tt,
            {| heap := heap w; console := console w ++ [ConsoleError text e] |}).

(** The array at [l]; no reference of the program dangles, and one that did
    would read as empty. *)
Definition deref (l : loc) : M Float32Array :=
  fun w => (Returned (nth l (heap w) []), w).

Definition alloc (a : Float32Array) : M loc :=
  fun w => (Returned (List.length (heap w)),
            {| heap := heap w ++ [a]; console := console w |}).

(** [new Float32Array(n)] *)
Definition new_Float32Array (n : nat) : M loc := alloc (repeat #0 n).

(** [a.slice(from, to)] of a typed array. *)
Definition typed_slice (l : loc) (from to : nat) : M loc :=
  a <- deref l ;; alloc (slice a from to).

(** [dst.set(src)]: the elements of [src] over the start of [dst]. *)
Definition typed_set (dst src : loc) : M unit :=
  s <- deref src ;;
  d <- deref dst ;;
  if (List.length d <? List.length s)%nat
  then throw RangeError
  else fun w => (Returned tt,
                 {| heap := update dst (fun d => s ++ skipn (List.length s) d) (heap w);
                    console := console w |}).

(** [a[i]] *)
Definition get (a : list number) (i : nat) : number := nth i a undefined.

(** [out[i] = v] on the typed array at [l]. *)
Definition store (l : loc) (i : nat) (v : number) : M unit :=
  fun w => (Returned tt,
            {| heap := update l (update i (fun _ => v)) (heap w);
               console := console w |}).

(** *** AudioBuffer *)

Record AudioBuffer : Type := {
  sampleRate : number;
  length : nat;
  channelData : list loc      (* one Float32Array of [length] samples per channel *)
}.

Definition numberOfChannels (b : AudioBuffer) : nat := List.length (channelData b).

(** The [duration] attribute: [length / sampleRate]. *)
Definition duration (b : AudioBuffer) : number := of_nat (length b) / sampleRate b.

Definition getChannelData (b : AudioBuffer) (channel : nat) : M loc :=
  match nth_error (channelData b) channel with
  | Some l => ret l
  | None => throw IndexSizeError
  end.

(** [audioContext.createBuffer(numberOfChannels, length, sampleRate)] *)
Fixpoint createChannels (n len : nat) : M (list loc) :=
  match n with
  | O => ret []
  | S n' => l <- new_Float32Array len ;; ls <- createChannels n' len ;; ret (l :: ls)
  end.
Definition createBuffer (n len : nat) (rate : number) : M AudioBuffer :=
  ls <- createChannels n len ;;
  ret {| sampleRate := rate; length := len; channelData := ls |}.

(** [for (v of vs) body(v)] *)
Fixpoint for_each {A} (vs : list A) (body : A -> M unit) : M unit :=
  match vs with
  | [] => ret tt
  | v :: vs' => body v ;;; for_each vs' body
  end.

(** *** reverseAudioBuffer *)

Definition reverseAudioBuffer (inputBuffer : AudioBuffer) : M AudioBuffer :=
  let numberOfChannels := numberOfChannels inputBuffer in
  let length := length inputBuffer in
  let sampleRate := sampleRate inputBuffer in
  reversedBuffer <- createBuffer numberOfChannels length sampleRate ;;
  for_each (for_loop 0 numberOfChannels 1) (fun channel =>
    inputData <- getChannelData inputBuffer channel ;;
    outputData <- getChannelData reversedBuffer channel ;;
    for_each (for_loop 0 length 1) (fun i =>
      input <- deref inputData ;;
      store outputData i (get input (length - 1 - i)))) ;;;
  ret reversedBuffer.

(** *** extractMFCCFeatures *)

(** The band edges [melBands] of [extractMFCCFeatures]. *)
Definition melBands (sampleRate : number) : list number :=
  let numBands := 13%nat in
  map (fun i =>
         let melFreq :=
           (of_nat i / of_nat numBands) * #2595 * n_log10 N (#1 + sampleRate / #2 / #700) in
         #700 * (n_pow N #10 (melFreq / #2595) - #1))
      (for_loop 0 numBands 1).

(** The inner loop over the bands: the first [b < numBands - 1] with
    [freq >= melBands[b] && freq < melBands[b + 1]], where the source
    accumulates and breaks. *)
Definition findBand (melBands : list number) (freq : number) : option nat :=
  let numBands := 13%nat in
  find (fun b => (freq >=? get melBands b) && (freq <? get melBands (b + 1)))
       (for_loop 0 (numBands - 1) 1).

(** [bandEnergies] after the loop over [i < windowSize / 2] of one frame. *)
Definition bandEnergies (melBands : list number) (sampleRate : number)
    (frame : list number) : list number :=
  let windowSize := 2048%nat in
  let numBands := 13%nat in
  fold_left
    (fun bandEnergies i =>
       let freq := (of_nat i * sampleRate) / of_nat windowSize in
       let magnitude := n_abs N (get frame i) in
       match findBand melBands freq with
       | Some b => update b (fun e => e + magnitude * magnitude) bandEnergies
       | None => bandEnergies
       end)
    (for_loop 0 (windowSize / 2) 1)
    (repeat #0 numBands).

(** The loop bound [audioData.length - windowSize] is negative for a short
    array, and the loop then does not run; so it is with the truncated
    subtraction of [nat]. *)
Definition extractMFCCFeatures (audioData : list number) (sampleRate : number)
    : list (list number) :=
  let windowSize := 2048%nat in
  let hopSize := 512%nat in
  let melBands := melBands sampleRate in
  map (fun pos =>
         let frame := slice audioData pos (pos + windowSize) in
         let bandEnergies := bandEnergies melBands sampleRate frame in
         let logEnergies := map (fun e => n_log N (e + dec 1 10)) bandEnergies in
         logEnergies)
      (for_loop 0 (List.length audioData - windowSize) hopSize).

(** *** calculateMFCCSimilarity *)

(** The cosine similarity of one pair of frames. *)
Definition cosineSimilarity (f1 f2 : list number) : number :=
  let '(dotProduct, mag1, mag2) :=
    fold_left
      (fun '(dotProduct, mag1, mag2) j =>
         (dotProduct + get f1 j * get f2 j,
          mag1 + get f1 j * get f1 j,
          mag2 + get f2 j * get f2 j))
      (for_loop 0 (List.length f1) 1)
      (#0, #0, #0) in
  dotProduct / (n_sqrt N (mag1 * mag2) + dec 1 10).

Definition calculateMFCCSimilarity (features1 features2 : list (list number)) : number :=
  if (List.length features1 =? 0)%nat || (List.length features2 =? 0)%nat then #0
  else
    let minFrames := Nat.min (List.length features1) (List.length features2) in
    let totalSimilarity :=
      fold_left
        (fun totalSimilarity i =>
           let f1 := nth (i * List.length features1 / minFrames) features1 [] in
           let f2 := nth (i * List.length features2 / minFrames) features2 [] in
           let similarity := cosineSimilarity f1 f2 in
           totalSimilarity + similarity)
        (for_loop 0 minFrames 1)
        #0 in
    totalSimilarity / of_nat minFrames.

(** *** extractPitchContour *)

(** [corr] of one lag: the sum of [frame[i] * frame[i + lag]] over
    [i < windowSize - lag]. *)
Definition autocorrelation (frame : list number) (lag : nat) : number :=
  let windowSize := 2048%nat in
  fold_left (fun corr i => corr + get frame i * get frame (i + lag))
            (for_loop 0 (windowSize - lag) 1)
            #0.

(** [maxCorr] starts at [-Infinity], here [None]. *)
Definition exceeds (corr : number) (maxCorr : option number) : bool :=
  match maxCorr with
  | None => n_above_neg_infinity N corr
  | Some m => corr >? m
  end.

(** The lag search of one frame: [(maxCorr, bestLag)] after the loop
    [for (lag = minLag; lag < maxLag && lag < windowSize / 2; lag++)]. *)
Definition bestLagOf (frame : list number) (minLag maxLag : nat) : option number * nat :=
  let windowSize := 2048%nat in
  fold_left
    (fun '(maxCorr, bestLag) lag =>
       let corr := autocorrelation frame lag in
       if exceeds corr maxCorr then (Some corr, lag) else (maxCorr, bestLag))
    (for_loop minLag (Nat.min maxLag (windowSize / 2)) 1)
    (None, 0%nat).

(** The pitch of one frame.  The sample rate of an AudioBuffer is positive,
    so the two lag bounds are natural numbers. *)
Definition framePitch (frame : list number) (sampleRate : number) : number :=
  let minFreq := #80 in
  let maxFreq := #500 in
  let minLag := Z.to_nat (n_floor N (sampleRate / maxFreq)) in
  let maxLag := Z.to_nat (n_floor N (sampleRate / minFreq)) in
  let '(maxCorr, bestLag) := bestLagOf frame minLag maxLag in
  let pitch := if (0 <? bestLag)%nat then sampleRate / of_nat bestLag else #0 in
  match maxCorr with
  | Some m => if m >? dec 3 1 then pitch else #0
  | None => #0
  end.

Definition extractPitchContour (audioData : list number) (sampleRate : number)
    : list number :=
  let windowSize := 2048%nat in
  let hopSize := 512%nat in
  map (fun pos =>
         let frame := slice audioData pos (pos + windowSize) in
         framePitch frame sampleRate)
      (for_loop 0 (List.length audioData - windowSize) hopSize).

(** *** calculatePitchContourMatch *)

Definition calculatePitchContourMatch (contour1 contour2 : list number) : number :=
  if (List.length contour1 =? 0)%nat || (List.length contour2 =? 0)%nat then dec 5 1
  else
    let minLen := Nat.min (List.length contour1) (List.length contour2) in
    let '(totalDiff, validFrames) :=
      fold_left
        (fun '(totalDiff, validFrames) i =>
           let p1 := get contour1 (i * List.length contour1 / minLen) in
           let p2 := get contour2 (i * List.length contour2 / minLen) in
           if (p1 =? #0) && (p2 =? #0) then (totalDiff, validFrames)
           else if negb (Bool.eqb (p1 =? #0) (p2 =? #0))
           then (totalDiff + #1, S validFrames)
           else
             let diff := n_abs N (p1 - p2) / n_max N p1 p2 in
             (totalDiff + n_min N #1 diff, S validFrames))
        (for_loop 0 minLen 1)
        (#0, 0%nat) in
    if (validFrames =? 0)%nat then dec 5 1
    else
      let avgDiff := totalDiff / of_nat validFrames in
      #1 - avgDiff.

(** *** calculateSpectralCentroid *)

(** The centroid of one frame, and whether it counts ([magnitudeSum > 0]). *)
Definition frameCentroid (frameData : list number) (sampleRate : number)
    : option number :=
  let fftSize := 2048%nat in
  let '(weightedSum, magnitudeSum) :=
    fold_left
      (fun '(weightedSum, magnitudeSum) i =>
         let magnitude := n_abs N (get frameData i) in
         let frequency := (of_nat i * sampleRate) / of_nat fftSize in
         (weightedSum + frequency * magnitude, magnitudeSum + magnitude))
      (for_loop 0 (List.length frameData / 2) 1)
      (#0, #0) in
  if magnitudeSum >? #0 then Some (weightedSum / magnitudeSum) else None.

Definition calculateSpectralCentroid (audioData : list number) (sampleRate : number)
    : number :=
  let fftSize := 2048%nat in
  let numFrames := (List.length audioData / fftSize)%nat in
  let totalCentroid :=
    fold_left
      (fun totalCentroid frame =>
         let start := (frame * fftSize)%nat in
         let frameData := slice audioData start (start + fftSize) in
         match frameCentroid frameData sampleRate with
         | Some c => totalCentroid + c
         | None => totalCentroid
         end)
      (for_loop 0 numFrames 1)
      #0 in
  if (0 <? numFrames)%nat then totalCentroid / of_nat numFrames else #0.

(** *** calculateRMSEnergyCurve *)

Definition calculateRMSEnergyCurve (audioData : list number) (windowSize : nat)
    : list number :=
  let hopSize := (windowSize / 2)%nat in
  map (fun i =>
         let sum :=
           fold_left (fun sum j => sum + get audioData (i + j) * get audioData (i + j))
                     (for_loop 0 windowSize 1)
                     #0 in
         n_sqrt N (sum / of_nat windowSize))
      (for_loop 0 (List.length audioData - windowSize) hopSize).

(** *** calculateCorrelation *)

(** The five running sums of [calculateCorrelation]. *)
Definition correlationSums (arr1 arr2 : list number) (len : nat)
    : number * number * number * number * number :=
  fold_left
    (fun '(sum1, sum2, sum1Sq, sum2Sq, pSum) i =>
       (sum1 + get arr1 i,
        sum2 + get arr2 i,
        sum1Sq + get arr1 i * get arr1 i,
        sum2Sq + get arr2 i * get arr2 i,
        pSum + get arr1 i * get arr2 i))
    (for_loop 0 len 1)
    (#0, #0, #0, #0, #0).

Definition calculateCorrelation (arr1 arr2 : list number) : number :=
  let len := Nat.min (List.length arr1) (List.length arr2) in
  if (len =? 0)%nat then #0
  else
    let '(sum1, sum2, sum1Sq, sum2Sq, pSum) := correlationSums arr1 arr2 len in
    let num := pSum - (sum1 * sum2 / of_nat len) in
    let den :=
      n_sqrt N ((sum1Sq - sum1 * sum1 / of_nat len) * (sum2Sq - sum2 * sum2 / of_nat len)) in
    if den =? #0 then #0 else num / den.

(** *** compareAudio *)

Record AudioManager : Type := {
  player1OriginalBuffer : option AudioBuffer;
  player1ReversedBuffer : option AudioBuffer;
  player2AttemptBuffer : option AudioBuffer;
  player2ReverseForwardBuffer : option AudioBuffer
}.

(** The six similarity values of one comparison. *)
Record Similarity : Type := {
  mfccSimilarity : number;
  pitchMatch : number;
  envelopeMatch : number;
  spectralMatch : number;
  energyMatch : number;
  durationMatch : number
}.

(** Sections 1 to 6 of [compareAudio]: the similarity values of the two
    length-normalized arrays. *)
Definition similarities (normalized1 normalized2 : list number) (minLength : nat)
    (sampleRate dur1 dur2 : number) : Similarity :=
  (* 1. MFCC similarity (timbre) *)
  let mfccFeatures1 := extractMFCCFeatures normalized1 sampleRate in
  let mfccFeatures2 := extractMFCCFeatures normalized2 sampleRate in
  let mfccSimilarityRaw := calculateMFCCSimilarity mfccFeatures1 mfccFeatures2 in
  let mfccSimilarity := (mfccSimilarityRaw + #1) / #2 in
  (* 2. pitch contour match *)
  let pitchContour1 := extractPitchContour normalized1 sampleRate in
  let pitchContour2 := extractPitchContour normalized2 sampleRate in
  let pitchMatch := calculatePitchContourMatch pitchContour1 pitchContour2 in
  (* 3. envelope match *)
  let envelope1 := calculateRMSEnergyCurve normalized1 2048 in
  let envelope2 := calculateRMSEnergyCurve normalized2 2048 in
  let envelopeCorrelation := calculateCorrelation envelope1 envelope2 in
  let envelopeMatch := (envelopeCorrelation + #1) / #2 in
  (* 4. spectral centroid match *)
  let centroid1 := calculateSpectralCentroid normalized1 sampleRate in
  let centroid2 := calculateSpectralCentroid normalized2 sampleRate in
  let centroidDiff := n_abs N (centroid1 - centroid2) in
  let maxCentroid := n_max N (n_max N centroid1 centroid2) #1 in
  let spectralMatch := #1 - n_min N #1 (centroidDiff / maxCentroid) in
  (* 5. energy match *)
  let '(totalEnergy1, totalEnergy2) :=
    fold_left
      (fun '(totalEnergy1, totalEnergy2) i =>
         (totalEnergy1 + get normalized1 i * get normalized1 i,
          totalEnergy2 + get normalized2 i * get normalized2 i))
      (for_loop 0 minLength 1)
      (#0, #0) in
  let rms1 := n_sqrt N (totalEnergy1 / of_nat minLength) in
  let rms2 := n_sqrt N (totalEnergy2 / of_nat minLength) in
  let energyMatch := n_min N rms1 rms2 / n_max N (n_max N rms1 rms2) (dec 1 3) in
  (* 6. duration match *)
  let durationMatch := #1 - n_abs N (dur1 - dur2) / n_max N dur1 dur2 in
  {| mfccSimilarity := mfccSimilarity;
     pitchMatch := pitchMatch;
     envelopeMatch := envelopeMatch;
     spectralMatch := spectralMatch;
     energyMatch := energyMatch;
     durationMatch := durationMatch |}.

(** The weighted combination. *)
Definition rawScore (s : Similarity) : number :=
  mfccSimilarity s * dec 35 2 +
  pitchMatch s * dec 25 2 +
  envelopeMatch s * dec 15 2 +
  spectralMatch s * dec 10 2 +
  energyMatch s * dec 10 2 +
  durationMatch s * dec 5 2.

(** The curve, and the clamp to the range 0 to 100. *)
Definition adjustedScore (rawScore : number) : number :=
  let adjustedScore :=
    if rawScore >? dec 7 1 then #50 + (rawScore - dec 7 1) * dec 16667 2
    else if rawScore >? dec 4 1 then #20 + (rawScore - dec 4 1) * #100
    else rawScore * #50 in
  n_max N #0 (n_min N #100 adjustedScore).

Definition roundedScore (s : Similarity) : number :=
  n_round N (adjustedScore (rawScore s)).

(** [if (onComplete) onComplete(score)] *)
Definition deliver (onComplete : option (number -> M unit)) (score : number) : M unit :=
  match onComplete with
  | Some callback => callback score
  | None => ret tt
  end.

(** The [catch] block of [compareAudio]. *)
Definition catchBlock (onComplete : option (number -> M unit)) (error : Error) : M unit :=
  console_error "Error comparing audio:" error ;;;
  console_error "stack" error ;;;
  (* a participation score even on error *)
  deliver onComplete #30.

Definition compareAudio (this : AudioManager) (onComplete : option (number -> M unit))
    : M unit :=
  try_catch
    (match player1OriginalBuffer this, player2ReverseForwardBuffer this with
     | Some buffer1, Some buffer2 =>
         let sampleRate := sampleRate buffer1 in
         console_log "Starting MFCC-based audio comparison..." [] ;;;
         console_log "Comparing:" [] ;;;
         console_log "Player 1 ORIGINAL (forward): s, samples"
                     [duration buffer1; of_nat (length buffer1)] ;;;
         console_log "Player 2 REVERSED to forward: s, samples"
                     [duration buffer2; of_nat (length buffer2)] ;;;
         console_log "Flow: P1 forward, reversed, P2 hears and mimics, P2 reversed back to forward, compare" [] ;;;
         (* channel data of the first channel *)
         data1 <- getChannelData buffer1 0 ;;
         data2 <- getChannelData buffer2 0 ;;
         samples1 <- deref data1 ;;
         samples2 <- deref data2 ;;
         let minLength := Nat.min (List.length samples1) (List.length samples2) in
         (* normalize lengths for comparison *)
         normalized1 <- new_Float32Array minLength ;;
         normalized2 <- new_Float32Array minLength ;;
         copy1 <- typed_slice data1 0 minLength ;;
         typed_set normalized1 copy1 ;;;
         copy2 <- typed_slice data2 0 minLength ;;
         typed_set normalized2 copy2 ;;;
         (* the extractors read the two arrays and write nothing *)
         n1 <- deref normalized1 ;;
         n2 <- deref normalized2 ;;
         let s := similarities n1 n2 minLength sampleRate
                               (duration buffer1) (duration buffer2) in
         let raw := rawScore s in
         let adjusted := adjustedScore raw in
         let rounded := n_round N adjusted in
         console_log "MFCC-Based Scoring Breakdown:" [] ;;;
         console_log "MFCC similarity (timbre): % (weight: 35%)" [mfccSimilarity s * #100] ;;;
         console_log "Pitch contour match: % (weight: 25%)" [pitchMatch s * #100] ;;;
         console_log "Envelope match: % (weight: 15%)" [envelopeMatch s * #100] ;;;
         console_log "Spectral centroid: % (weight: 10%)" [spectralMatch s * #100] ;;;
         console_log "Energy match: % (weight: 10%)" [energyMatch s * #100] ;;;
         console_log "Duration match: % (weight: 5%)" [durationMatch s * #100] ;;;
         console_log "---" [] ;;;
         console_log "Raw weighted score: %" [raw * #100] ;;;
         console_log "After curve adjustment: %" [adjusted] ;;;
         console_log "Final score: %" [rounded] ;;;
         deliver onComplete rounded
     | _, _ => throw (JsError "Missing audio buffers for comparison")
     end)
    (catchBlock onComplete).

End Engine.

Abbreviation loc := nat (only parsing).
Abbreviation Float32Array N := (list (num N)) (only parsing).

Arguments ConsoleLog {N} text%_string values%_list.
Arguments ConsoleError {N} text%_string e.
Arguments JsError message%_string.

(** ** The rest of the analysis code *)

From Stdlib Require Import Sorted.

Section Onsets.

Variable N : NumOps.
Local Open Scope num_scope.

(** *** detectOnsets *)

(** The energy of the window that starts at [i]: the mean of [|audioData[i + j]|]
    over [j < windowSize], summed in the order of the loop. *)
Definition windowEnergy (audioData : list (num N)) (i : nat) : num N :=
  let windowSize := 512%nat in
  fold_left (fun energy j => energy + n_abs N (get N audioData (i + j)))
            (for_loop 0 windowSize 1)
            (of_Z N 0)
  / of_nat N windowSize.

(** [(onsets, prevEnergy)] after the loop
    [for (i = 0; i < audioData.length - windowSize; i += windowSize)]. *)
Definition onsetScan (audioData : list (num N)) (threshold : num N)
    : list nat * num N :=
  let windowSize := 512%nat in
  fold_left
    (fun '(onsets, prevEnergy) i =>
       let energy := windowEnergy audioData i in
       (* detect sharp increases in energy *)
       let onsets :=
         if (energy >? prevEnergy * (of_Z N 1 + threshold)) && (energy >? lit N 1 2)
         then onsets ++ [i]
         else onsets in
       (onsets, energy))
    (for_loop 0 (List.length audioData - windowSize) windowSize)
    ([], of_Z N 0).

Definition detectOnsets (audioData : list (num N)) (threshold : num N) : list nat :=
  fst (onsetScan audioData threshold).

End Onsets.

(** ** The AudioManager object *)

Section Object.

Variable N : NumOps.
Local Open Scope num_scope.

(** *** Its fields, and the host *)

(** The [state] of a MediaRecorder and of an AudioContext. *)
Inductive RecordingState : Type := inactive | recording | paused.
Inductive ContextState : Type := suspended | running | closed.

(** The fields of the object that the methods below read or write: the four
    buffers, as [compareAudio] has them, the audio context ([None] is
    [null]), the recorder with its state, the flags, the recording time, the
    id of the interval timer and the callback of the timer. *)
Record Fields : Type := {
  buffers : AudioManager N;
  audioContext : option ContextState;
  mediaRecorder : option RecordingState;
  isRecording : bool;
  isPlaying : bool;
  recordingTime : num N;
  recordingTimer : option nat;
  maxRecordingDuration : num N;
  onRecordingUpdate : option (num N -> M N unit)
}.

(** [new AudioManager()] *)
Definition constructor : Fields := {|
  buffers := {| player1OriginalBuffer := None; player1ReversedBuffer := None;
                player2AttemptBuffer := None; player2ReverseForwardBuffer := None |};
  audioContext := None;
  mediaRecorder := None;
  isRecording := false;
  isPlaying := false;
  recordingTime := of_Z N 0;
  recordingTimer := None;
  maxRecordingDuration := of_Z N 10;
  onRecordingUpdate := None
|}.

(** What the browser offers: the state of a context that
    [new (window.AudioContext || window.webkitAudioContext)()] makes, [None]
    where neither constructor exists and the expression throws; and whether
    [resume()] fulfils. *)
Record Host : Type := {
  constructs : option ContextState;
  resumes : bool
}.

(** A call into the browser that the program makes and does not wait for. *)
Inductive HostCall : Type :=
| ClearInterval (id : nat)       (* clearInterval(id) *)
| RecorderStop.                  (* mediaRecorder.stop() *)

(** The object and the calls made so far. *)
Record Scene : Type := {
  this : Fields;
  calls : list HostCall
}.

(** A method: it runs on the object and the world, and returns or throws. *)
Definition Method (A : Type) : Type := Scene -> World N -> Result A * Scene * World N.

Definition returns {A} (a : A) : Method A := fun s w => (Returned a, s, w).
Definition throws {A} (e : Error) : Method A := fun s w => (Threw e, s, w).
Definition andThen {A B} (m : Method A) (k : A -> Method B) : Method B :=
  fun s w => match m s w with
             | (Returned a, s', w') => k a s' w'
             | (Threw e, s', w') => (Threw e, s', w')
             end.
(** [try { body } catch (e) { handler(e) }]: the handler runs on the object
    as the body left it. *)
Definition tryCatch {A} (body : Method A) (handler : Error -> Method A) : Method A :=
  fun s w => match body s w with
             | (Returned a, s', w') => (Returned a, s', w')
             | (Threw e, s', w') => handler e s' w'
             end.

Local Notation "x <- m ;; k" := (andThen m (fun x => k))
  (at level 61, m at next level, right associativity).
Local Notation "m ;;; k" := (andThen m (fun _ => k))
  (at level 61, right associativity).

(** A computation on the world alone. *)
Definition lift {A} (m : M N A) : Method A :=
  fun s w => let '(r, w') := m w in (r, s, w').

Definition fields : Method Fields := fun s w => (Returned (this s), s, w).
Definition assign (f : Fields -> Fields) : Method unit :=
  fun s w => (Returned tt, {| this := f (this s); calls := calls s |}, w).
Definition call (c : HostCall) : Method unit :=
  fun s w => (Returned tt, {| this := this s; calls := calls s ++ [c] |}, w).

Definition set_buffers (b : AudioManager N) (f : Fields) : Fields :=
  {| buffers := b; audioContext := audioContext f; mediaRecorder := mediaRecorder f;
     isRecording := isRecording f; isPlaying := isPlaying f;
     recordingTime := recordingTime f; recordingTimer := recordingTimer f;
     maxRecordingDuration := maxRecordingDuration f;
     onRecordingUpdate := onRecordingUpdate f |}.
Definition set_audioContext (c : option ContextState) (f : Fields) : Fields :=
  {| buffers := buffers f; audioContext := c; mediaRecorder := mediaRecorder f;
     isRecording := isRecording f; isPlaying := isPlaying f;
     recordingTime := recordingTime f; recordingTimer := recordingTimer f;
     maxRecordingDuration := maxRecordingDuration f;
     onRecordingUpdate := onRecordingUpdate f |}.
Definition set_mediaRecorder (r : option RecordingState) (f : Fields) : Fields :=
  {| buffers := buffers f; audioContext := audioContext f; mediaRecorder := r;
     isRecording := isRecording f; isPlaying := isPlaying f;
     recordingTime := recordingTime f; recordingTimer := recordingTimer f;
     maxRecordingDuration := maxRecordingDuration f;
     onRecordingUpdate := onRecordingUpdate f |}.
Definition set_isRecording (b : bool) (f : Fields) : Fields :=
  {| buffers := buffers f; audioContext := audioContext f; mediaRecorder := mediaRecorder f;
     isRecording := b; isPlaying := isPlaying f;
     recordingTime := recordingTime f; recordingTimer := recordingTimer f;
     maxRecordingDuration := maxRecordingDuration f;
     onRecordingUpdate := onRecordingUpdate f |}.
Definition set_isPlaying (b : bool) (f : Fields) : Fields :=
  {| buffers := buffers f; audioContext := audioContext f; mediaRecorder := mediaRecorder f;
     isRecording := isRecording f; isPlaying := b;
     recordingTime := recordingTime f; recordingTimer := recordingTimer f;
     maxRecordingDuration := maxRecordingDuration f;
     onRecordingUpdate := onRecordingUpdate f |}.
Definition set_recordingTime (t : num N) (f : Fields) : Fields :=
  {| buffers := buffers f; audioContext := audioContext f; mediaRecorder := mediaRecorder f;
     isRecording := isRecording f; isPlaying := isPlaying f;
     recordingTime := t; recordingTimer := recordingTimer f;
     maxRecordingDuration := maxRecordingDuration f;
     onRecordingUpdate := onRecordingUpdate f |}.
Definition set_recordingTimer (t : option nat) (f : Fields) : Fields :=
  {| buffers := buffers f; audioContext := audioContext f; mediaRecorder := mediaRecorder f;
     isRecording := isRecording f; isPlaying := isPlaying f;
     recordingTime := recordingTime f; recordingTimer := t;
     maxRecordingDuration := maxRecordingDuration f;
     onRecordingUpdate := onRecordingUpdate f |}.

Definition set_player1ReversedBuffer (b : option (AudioBuffer N)) (m : AudioManager N)
    : AudioManager N :=
  {| player1OriginalBuffer := player1OriginalBuffer m;
     player1ReversedBuffer := b;
     player2AttemptBuffer := player2AttemptBuffer m;
     player2ReverseForwardBuffer := player2ReverseForwardBuffer m |}.
Definition set_player2ReverseForwardBuffer (b : option (AudioBuffer N)) (m : AudioManager N)
    : AudioManager N :=
  {| player1OriginalBuffer := player1OriginalBuffer m;
     player1ReversedBuffer := player1ReversedBuffer m;
     player2AttemptBuffer := player2AttemptBuffer m;
     player2ReverseForwardBuffer := b |}.

(** [mediaRecorder.stop()]: an InvalidStateError on an inactive recorder;
    otherwise the recorder becomes inactive (and delivers its data later). *)
Definition recorder_stop : Method unit :=
  f <- fields ;;
  match mediaRecorder f with
  | Some inactive | None => throws (JsError "InvalidStateError")
  | Some _ => assign (set_mediaRecorder (Some inactive)) ;;; call RecorderStop
  end.

(** *** initAudioContext *)

Variable host : Host.

Definition initAudioContext : Method unit :=
  f <- fields ;;
  (match audioContext f with
   | None =>
       match constructs host with
       | Some state => assign (set_audioContext (Some state))
       | None => throws (JsError "AudioContext is not a constructor")
       end
   | Some _ => returns tt
   end) ;;;
  (* resume the context if suspended *)
  f <- fields ;;
  match audioContext f with
  | Some suspended =>
      if resumes host then assign (set_audioContext (Some running))
      else throws (JsError "resume() rejected")
  | _ => returns tt
  end.

(** *** stopRecording *)

Definition stopRecording : Method unit :=
  f <- fields ;;
  (match recordingTimer f with
   | Some id => call (ClearInterval id) ;;; assign (set_recordingTimer None)
   | None => returns tt
   end) ;;;
  f <- fields ;;
  match mediaRecorder f with
  | Some inactive | None => returns tt
  | Some _ => recorder_stop
  end.

(** *** The timer of startRecording *)

(** The function [startRecording] hands to [setInterval(..., 100)]. *)
Definition recordingTick : Method unit :=
  f <- fields ;;
  assign (set_recordingTime (recordingTime f + lit N 1 1)) ;;;
  f <- fields ;;
  (match onRecordingUpdate f with
   | Some callback => lift (callback (recordingTime f))
   | None => returns tt
   end) ;;;
  (* auto-stop at max duration *)
  f <- fields ;;
  if recordingTime f >=? maxRecordingDuration f then stopRecording else returns tt.

(** The interval [id] fires: its function runs unless the interval was
    cleared; what the function throws is reported and the interval goes on. *)
Definition fire (id : nat) : Scene -> World N -> Scene * World N :=
  fun s w =>
    if existsb (fun c => match c with ClearInterval id' => (id' =? id)%nat | _ => false end)
               (calls s)
    then (s, w)
    else let '(_, s', w') := recordingTick s w in (s', w').

Fixpoint fires (n : nat) (id : nat) (s : Scene) (w : World N) : Scene * World N :=
  match n with
  | O => (s, w)
  | S n' => let '(s', w') := fire id s w in fires n' id s' w'
  end.

(** *** reversePlayer1 and reversePlayer2 *)

Definition hand {A} (onComplete : option (A -> Method unit)) (a : A) : Method unit :=
  match onComplete with
  | Some callback => callback a
  | None => returns tt
  end.

Definition reversePlayer1 (onComplete : option (option (AudioBuffer N) -> Method unit))
    : Method unit :=
  lift (console_log "reversePlayer1 called" []) ;;;
  lift (console_log "player1OriginalBuffer:" []) ;;;
  tryCatch
    (initAudioContext ;;;
     lift (console_log "AudioContext initialized" []) ;;;
     f <- fields ;;
     match player1OriginalBuffer (buffers f) with
     | None => throws (JsError "No Player 1 recording found")
     | Some original =>
         lift (console_log "Reversing buffer..." []) ;;;
         reversed <- lift (reverseAudioBuffer original) ;;
         assign (fun f => set_buffers (set_player1ReversedBuffer (Some reversed) (buffers f)) f) ;;;
         lift (console_log "Buffer reversed successfully" []) ;;;
         lift (console_log "Reversed buffer duration:" [duration reversed]) ;;;
         f <- fields ;;
         hand onComplete (player1ReversedBuffer (buffers f))
     end)
    (fun error =>
       lift (console_error "Error reversing Player 1 audio:" error) ;;;
       lift (console_error "Error stack:" error) ;;;
       hand onComplete None).

Definition reversePlayer2 (onComplete : option (option (AudioBuffer N) -> Method unit))
    : Method unit :=
  tryCatch
    (initAudioContext ;;;
     f <- fields ;;
     match player2AttemptBuffer (buffers f) with
     | None => throws (JsError "No Player 2 recording found")
     | Some attempt =>
         lift (console_log "Reversing Player 2 attempt..." []) ;;;
         lift (console_log "Input (P2 mimic in reverse): s" [duration attempt]) ;;;
         reversed <- lift (reverseAudioBuffer attempt) ;;
         assign (fun f =>
                   set_buffers (set_player2ReverseForwardBuffer (Some reversed) (buffers f)) f) ;;;
         lift (console_log "Output (P2 reversed to forward): s" [duration reversed]) ;;;
         lift (console_log "This forward version will be compared to Player 1's original" []) ;;;
         f <- fields ;;
         hand onComplete (player2ReverseForwardBuffer (buffers f))
     end)
    (fun error =>
       lift (console_error "Error reversing Player 2 audio:" error) ;;;
       hand onComplete None).

(** *** reset *)

Definition reset : Method unit :=
  assign (set_buffers {| player1OriginalBuffer := None; player1ReversedBuffer := None;
                         player2AttemptBuffer := None;
                         player2ReverseForwardBuffer := None |}) ;;;
  assign (set_isRecording false) ;;;
  assign (set_isPlaying false) ;;;
  assign (set_recordingTime (of_Z N 0)) ;;;
  f <- fields ;;
  match recordingTimer f with
  | Some id => call (ClearInterval id) ;;; assign (set_recordingTimer None)
  | None => returns tt
  end.

(** *** compareAudio, as a method *)

(** [compareAudio] reads the two buffers of the object; its callback runs on
    the world. *)
Definition compareAudioMethod (onComplete : option (num N -> M N unit)) : Method unit :=
  f <- fields ;;
  lift (compareAudio (buffers f) onComplete).

End Object.


(** ** The game: app.js *)

From Stdlib Require Import DecimalString.

(** The counters of the game ([currentStep], [currentRound],
    [currentPlayerIndex], [turnsCompleted]) are Numbers that only ever hold
    small integers; they are integers here.  What the page shows is kept as
    data: every view carries the values its template interpolates, in the
    order of the template, and none of the fixed markup. *)

(** [GameStep] *)
Definition PLAYER_NAMES : Z := 0.
Definition CATEGORY_SELECTION : Z := 1.
Definition PROMPT_SELECTION : Z := 2.
Definition PLAYER1_RECORDING : Z := 3.
Definition REVERSE_PLAYBACK : Z := 4.
Definition PLAYER2_RECORDING : Z := 5.
Definition REVERSE_PLAYER2 : Z := 6.
Definition EVALUATION : Z := 7.
Definition RESULTS : Z := 8.

Definition prompts : list string :=
  [ "Sing: Twinkle Twinkle Little Star";
    "Sing: Happy Birthday";
    "Sing: Mary Had a Little Lamb";
    "Sing any 80s pop song";
    "Sing: Row Row Row Your Boat";
    "Sing: The ABC Song";
    "Hum your favorite tune";
    "Sing: Old MacDonald Had a Farm";
    "Beatbox for 5 seconds";
    "Sing: Let It Go (Frozen)" ]%string.

Definition totalRounds : Z := 3.

(** [a[i]] for an integer-valued index; [None] is [undefined]. *)
Definition at_index {A : Type} (a : list A) (i : Z) : option A :=
  if (i <? 0)%Z then None else nth_error a (Z.to_nat i).

(** An integer-valued number inside a template literal. *)
Definition decimal (n : Z) : string := NilZero.string_of_int (Z.to_int n).

(** [name || fallback]: the fallback stands in for an absent and for an empty
    name. *)
Definition or_else (name : option string) (fallback : string) : string :=
  match name with
  | None | Some EmptyString => fallback
  | Some s => s
  end.

(** A song of the catalogue, as [selectRandomSong] returns it. *)
Record Song : Type := { song : string; artist : string }.

(** What a pending [setTimeout] will do. *)
Inductive Pending : Type :=
| FocusPlayer1Name      (* focus the first name field *)
| CompareRecordings.    (* audioManager.compareAudio(...) *)

Inductive Buttons : Type :=
| NextTurnButton
| PlayAgainAndHomeButtons.

Section Game.

Variable N : NumOps.
Local Open Scope num_scope.
Local Open Scope string_scope.

Local Notation "# z" := (of_Z N z) (at level 1, format "# z").

(** [Math.PI], and the catalogue of songs.js, which the sources leave out. *)
Variable Math_PI : num N.
Variable categories : list string.
Variable getCategoryEmoji : string -> string.

(** An entry of [roundScores]. *)
Record Turn : Type := {
  turn : Z;
  round : Z;
  player : string;
  playerIndex : Z;
  score : num N;
  prompt : option string
}.

(** The variables of the game. *)
Record Game : Type := {
  currentStep : Z;
  currentPrompt : option string;
  similarityScore : num N;
  playerNames : list string;
  selectedCategory : option string;
  currentRound : Z;
  currentPlayerIndex : Z;
  roundScores : list Turn;
  turnsCompleted : Z
}.

(** Their values when the script is loaded. *)
Definition loaded : Game :=
  {| currentStep := PLAYER_NAMES;
     currentPrompt := Some "";
     similarityScore := #0;
     playerNames := [""; ""];
     selectedCategory := None;
     currentRound := 1;
     currentPlayerIndex := 0;
     roundScores := [];
     turnsCompleted := 0 |}.

Definition set_currentStep (v : Z) (g : Game) : Game :=
  {| currentStep := v; currentPrompt := currentPrompt g;
     similarityScore := similarityScore g; playerNames := playerNames g;
     selectedCategory := selectedCategory g; currentRound := currentRound g;
     currentPlayerIndex := currentPlayerIndex g; roundScores := roundScores g;
     turnsCompleted := turnsCompleted g |}.
Definition set_currentPrompt (v : option string) (g : Game) : Game :=
  {| currentStep := currentStep g; currentPrompt := v;
     similarityScore := similarityScore g; playerNames := playerNames g;
     selectedCategory := selectedCategory g; currentRound := currentRound g;
     currentPlayerIndex := currentPlayerIndex g; roundScores := roundScores g;
     turnsCompleted := turnsCompleted g |}.
Definition set_similarityScore (v : num N) (g : Game) : Game :=
  {| currentStep := currentStep g; currentPrompt := currentPrompt g;
     similarityScore := v; playerNames := playerNames g;
     selectedCategory := selectedCategory g; currentRound := currentRound g;
     currentPlayerIndex := currentPlayerIndex g; roundScores := roundScores g;
     turnsCompleted := turnsCompleted g |}.
Definition set_playerNames (v : list string) (g : Game) : Game :=
  {| currentStep := currentStep g; currentPrompt := currentPrompt g;
     similarityScore := similarityScore g; playerNames := v;
     selectedCategory := selectedCategory g; currentRound := currentRound g;
     currentPlayerIndex := currentPlayerIndex g; roundScores := roundScores g;
     turnsCompleted := turnsCompleted g |}.
Definition set_selectedCategory (v : option string) (g : Game) : Game :=
  {| currentStep := currentStep g; currentPrompt := currentPrompt g;
     similarityScore := similarityScore g; playerNames := playerNames g;
     selectedCategory := v; currentRound := currentRound g;
     currentPlayerIndex := currentPlayerIndex g; roundScores := roundScores g;
     turnsCompleted := turnsCompleted g |}.
Definition set_currentRound (v : Z) (g : Game) : Game :=
  {| currentStep := currentStep g; currentPrompt := currentPrompt g;
     similarityScore := similarityScore g; playerNames := playerNames g;
     selectedCategory := selectedCategory g; currentRound := v;
     currentPlayerIndex := currentPlayerIndex g; roundScores := roundScores g;
     turnsCompleted := turnsCompleted g |}.
Definition set_currentPlayerIndex (v : Z) (g : Game) : Game :=
  {| currentStep := currentStep g; currentPrompt := currentPrompt g;
     similarityScore := similarityScore g; playerNames := playerNames g;
     selectedCategory := selectedCategory g; currentRound := currentRound g;
     currentPlayerIndex := v; roundScores := roundScores g;
     turnsCompleted := turnsCompleted g |}.
Definition set_roundScores (v : list Turn) (g : Game) : Game :=
  {| currentStep := currentStep g; currentPrompt := currentPrompt g;
     similarityScore := similarityScore g; playerNames := playerNames g;
     selectedCategory := selectedCategory g; currentRound := currentRound g;
     currentPlayerIndex := currentPlayerIndex g; roundScores := v;
     turnsCompleted := turnsCompleted g |}.
Definition set_turnsCompleted (v : Z) (g : Game) : Game :=
  {| currentStep := currentStep g; currentPrompt := currentPrompt g;
     similarityScore := similarityScore g; playerNames := playerNames g;
     selectedCategory := selectedCategory g; currentRound := currentRound g;
     currentPlayerIndex := currentPlayerIndex g; roundScores := roundScores g;
     turnsCompleted := v |}.

(** *** The page *)

(** A line of a player's final scores: [Round ${r.round}] and
    [${Math.round(r.score)}%]. *)
Record ScoreRow : Type := { row_round : Z; row_percent : num N }.

(** The final scores, shown when the game is over. *)
Record FinalScores : Type := {
  first_name : string;
  first_rows : list ScoreRow;
  first_average : num N;
  second_name : string;
  second_rows : list ScoreRow;
  second_average : num N;
  banner : string
}.

Record ResultsView : Type := {
  results_round : Z;
  results_total : Z;
  dasharray : num N;
  dashoffset : num N;
  score_value : num N;
  performance_message : string;
  performance_description : string;
  final_scores : option FinalScores;
  buttons : Buttons
}.

(** What [gameContent.innerHTML] is set to.  A timer is the recording time
    that [toFixed(1)] prints, present while a recording runs. *)
Inductive View : Type :=
| PlayerNamesView (value1 value2 : option string)
| CategorySelectionView (choices : list (string * string))
| PromptSelectionView (round total turn : Z) (prompt : option string)
                      (activePlayer : string)
| Player1RecordingView (round total turn : Z) (activePlayer : string)
                       (prompt : option string) (timer : option (num N))
| ReversePlaybackView (isPlaying hasReversed : bool)
| Player2RecordingView (round total turn : Z) (otherPlayer : string)
                       (timer : option (num N))
| ReversePlayer2View (isPlaying hasReversed : bool)
| EvaluationView
| ResultsViewOf (results : ResultsView).

(** The elements the game writes: the width of the progress bar in percent,
    the text of the step label ([None] when [undefined] was assigned), the
    content of the game, and the timeouts set, with their delays. *)
Record Page : Type := {
  progressBar_width : num N;
  stepLabel_textContent : option string;
  gameContent : option View;
  timeouts : list (Pending * Z)
}.

Definition set_progressBar_width (v : num N) (p : Page) : Page :=
  {| progressBar_width := v; stepLabel_textContent := stepLabel_textContent p;
     gameContent := gameContent p; timeouts := timeouts p |}.
Definition set_stepLabel_textContent (v : option string) (p : Page) : Page :=
  {| progressBar_width := progressBar_width p; stepLabel_textContent := v;
     gameContent := gameContent p; timeouts := timeouts p |}.
Definition set_gameContent (v : View) (p : Page) : Page :=
  {| progressBar_width := progressBar_width p;
     stepLabel_textContent := stepLabel_textContent p;
     gameContent := Some v; timeouts := timeouts p |}.
Definition setTimeout (callback : Pending) (delay : Z) (p : Page) : Page :=
  {| progressBar_width := progressBar_width p;
     stepLabel_textContent := stepLabel_textContent p;
     gameContent := gameContent p;
     timeouts := (timeouts p ++ [(callback, delay)])%list |}.

(** *** Actions of the game *)

(** The game, its page, the audio manager and the world it lives in. *)
Record App : Type := {
  game : Game;
  page : Page;
  audioManager : Scene N;
  world : World N
}.

Definition Action (A : Type) : Type := App -> Result A * App.

Definition finish {A} (a : A) : Action A := fun s => (Returned a, s).
Definition followedBy {A B} (m : Action A) (k : A -> Action B) : Action B :=
  fun s => match m s with
           | (Returned a, s') => k a s'
           | (Threw e, s') => (Threw e, s')
           end.

Local Notation "x <- m ;; k" := (followedBy m (fun x => k))
  (at level 61, m at next level, right associativity).
Local Notation "m ;;; k" := (followedBy m (fun _ => k))
  (at level 61, right associativity).

(** Reading and assigning the variables of the game. *)
Definition peek : Action Game := fun s => (Returned (game s), s).
Definition change (f : Game -> Game) : Action unit :=
  fun s => (Returned tt,
            {| game := f (game s); page := page s;
               audioManager := audioManager s; world := world s |}).
(** Writing to the page. *)
Definition paint (f : Page -> Page) : Action unit :=
  fun s => (Returned tt,
            {| game := game s; page := f (page s);
               audioManager := audioManager s; world := world s |}).
(** A method of the audio manager, and its fields. *)
Definition onManager {A} (m : Method N A) : Action A :=
  fun s => match m (audioManager s) (world s) with
           | (r, s', w') =>
               (r, {| game := game s; page := page s;
                      audioManager := s'; world := w' |})
           end.
Definition manager : Action (Fields N) := onManager (@fields N).
(** A console line. *)
Definition consoleLog (text : string) (values : list (num N)) : Action unit :=
  onManager (lift (console_log text values)).

(** [playerNames[index] || `Player ${number}`] *)
Definition nameOf (g : Game) (index number : Z) : string :=
  or_else (at_index (playerNames g) index) ("Player " ++ decimal number).

(** *** updateProgress, updateStepLabel *)

Definition updateProgress : Action unit :=
  g <- peek ;;
  let progress := (#(currentStep g) / #8) * #100 in
  paint (set_progressBar_width progress).

Definition updateStepLabel : Action unit :=
  g <- peek ;;
  let activePlayer :=
    nameOf g (currentPlayerIndex g) (currentPlayerIndex g + 1)%Z in
  let otherPlayer :=
    nameOf g (1 - currentPlayerIndex g)%Z (2 - currentPlayerIndex g)%Z in
  let labels :=
    [ "Player Names";
      "Song Selection";
      activePlayer ++ " Recording";
      "Reverse Playback";
      otherPlayer ++ " Recording";
      otherPlayer ++ " Reverse";
      "Evaluating...";
      "Results" ] in
  paint (set_stepLabel_textContent (at_index labels (currentStep g))).

(** *** The views of the steps *)

Definition renderPlayerNames : Action unit :=
  g <- peek ;;
  paint (set_gameContent
           (PlayerNamesView (at_index (playerNames g) 0)
                            (at_index (playerNames g) 1))) ;;;
  (* focus on the first input *)
  paint (setTimeout FocusPlayer1Name 100).

Definition renderCategorySelection : Action unit :=
  updateProgress ;;;
  updateStepLabel ;;;
  paint (set_gameContent
           (CategorySelectionView
              (map (fun category => (category, getCategoryEmoji category))
                   categories))).

Definition renderPromptSelection : Action unit :=
  g <- peek ;;
  let activePlayer :=
    nameOf g (currentPlayerIndex g) (currentPlayerIndex g + 1)%Z in
  let turnNumber := (turnsCompleted g + 1)%Z in
  paint (set_gameContent
           (PromptSelectionView (currentRound g) totalRounds turnNumber
                                (currentPrompt g) activePlayer)).

Definition renderPlayer1Recording : Action unit :=
  g <- peek ;;
  f <- manager ;;
  let isRecording := isRecording f in
  let activePlayer :=
    nameOf g (currentPlayerIndex g) (currentPlayerIndex g + 1)%Z in
  let turnNumber := (turnsCompleted g + 1)%Z in
  paint (set_gameContent
           (Player1RecordingView (currentRound g) totalRounds turnNumber
              activePlayer (currentPrompt g)
              (if isRecording then Some (recordingTime f) else None))).

Definition renderReversePlayback : Action unit :=
  f <- manager ;;
  let isPlaying := isPlaying f in
  let hasReversed :=
    match player1ReversedBuffer (buffers f) with Some _ => true | None => false end in
  paint (set_gameContent (ReversePlaybackView isPlaying hasReversed)).

Definition renderPlayer2Recording : Action unit :=
  g <- peek ;;
  f <- manager ;;
  let isRecording := isRecording f in
  let otherPlayerIndex := (1 - currentPlayerIndex g)%Z in
  let otherPlayer := nameOf g otherPlayerIndex (otherPlayerIndex + 1)%Z in
  let turnNumber := (turnsCompleted g + 1)%Z in
  paint (set_gameContent
           (Player2RecordingView (currentRound g) totalRounds turnNumber
              otherPlayer
              (if isRecording then Some (recordingTime f) else None))).

Definition renderReversePlayer2 : Action unit :=
  f <- manager ;;
  let isPlaying := isPlaying f in
  let hasReversed :=
    match player2ReverseForwardBuffer (buffers f) with
    | Some _ => true
    | None => false
    end in
  paint (set_gameContent (ReversePlayer2View isPlaying hasReversed)).

Definition renderEvaluation : Action unit :=
  updateProgress ;;;
  updateStepLabel ;;;
  paint (set_gameContent EvaluationView).

(** *** getPerformanceMessage *)

Definition getPerformanceMessage (score : num N) : string * string :=
  if score >=? #90 then
    ("🏆 Perfect!", "You're a reverse karaoke master!")
  else if score >=? #80 then
    ("🌟 Excellent!", "Amazing mimicry skills!")
  else if score >=? #70 then
    ("✨ Great Job!", "Very impressive matching!")
  else if score >=? #60 then
    ("👍 Good Try!", "You're getting the hang of it!")
  else if score >=? #50 then
    ("🙂 Not Bad!", "Room for improvement, but solid effort!")
  else
    ("😅 Keep Practicing!", "This is harder than it looks! Try again?").

(** *** renderResults *)

(** [Math.round(scores.reduce((sum, r) => sum + r.score, 0) / scores.length)] *)
Definition averageScore (scores : list Turn) : num N :=
  n_round N (fold_left (fun sum r => sum + score r) scores #0
             / of_nat N (List.length scores)).

Definition winnerOf (g : Game) (avgScoreP1 avgScoreP2 : num N) : string :=
  if avgScoreP1 >? avgScoreP2 then or_else (at_index (playerNames g) 0) "Player 1"
  else if avgScoreP2 >? avgScoreP1 then or_else (at_index (playerNames g) 1) "Player 2"
  else "Tie".

Definition scoreRows (scores : list Turn) : list ScoreRow :=
  map (fun r => {| row_round := round r; row_percent := n_round N (score r) |}) scores.

(** The final scores, from the variables of the game. *)
Definition finalScores (g : Game) : FinalScores :=
  let player1Scores := filter (fun r => (playerIndex r =? 0)%Z) (roundScores g) in
  let player2Scores := filter (fun r => (playerIndex r =? 1)%Z) (roundScores g) in
  let avgScoreP1 := averageScore player1Scores in
  let avgScoreP2 := averageScore player2Scores in
  let winner := winnerOf g avgScoreP1 avgScoreP2 in
  {| first_name := or_else (at_index (playerNames g) 0) "Player 1";
     first_rows := scoreRows player1Scores;
     first_average := avgScoreP1;
     second_name := or_else (at_index (playerNames g) 1) "Player 2";
     second_rows := scoreRows player2Scores;
     second_average := avgScoreP2;
     banner := if String.eqb winner "Tie" then "🤝 It's a Tie!"
               else "🎉 " ++ winner ++ " Wins!" |}.

Definition renderResults : Action unit :=
  updateProgress ;;;
  updateStepLabel ;;;
  g <- peek ;;
  let activePlayer :=
    nameOf g (currentPlayerIndex g) (currentPlayerIndex g + 1)%Z in
  let turnNumber := (turnsCompleted g + 1)%Z in
  consoleLog "🎉 [App] renderResults called" [] ;;;
  consoleLog "🎉 [App] currentRound: currentPlayerIndex:"
             [#(currentRound g); #(currentPlayerIndex g)] ;;;
  consoleLog "🎉 [App] similarityScore:" [similarityScore g] ;;;
  consoleLog "🎉 [App] turnsCompleted:" [#(turnsCompleted g)] ;;;
  (* increment turns completed *)
  change (set_turnsCompleted (turnsCompleted g + 1)%Z) ;;;
  (* store the score for this turn *)
  change (set_roundScores
            (roundScores g
             ++ [{| turn := turnNumber;
                    round := currentRound g;
                    player := activePlayer;
                    playerIndex := currentPlayerIndex g;
                    score := similarityScore g;
                    prompt := currentPrompt g |}])%list) ;;;
  consoleLog "🎉 [App] Stored score for turn :" [#turnNumber; similarityScore g] ;;;
  consoleLog "🎉 [App] All roundScores:" [] ;;;
  g <- peek ;;
  (* the game is over when all 6 turns are completed: 3 rounds, 2 players *)
  let isGameOver := (turnsCompleted g >=? totalRounds * 2)%Z in
  consoleLog ("🎉 [App] isGameOver: " ++ if isGameOver then "true" else "false") [] ;;;
  let performanceData := getPerformanceMessage (similarityScore g) in
  (* the averages, if the game is over *)
  let scoresHTML := if isGameOver then Some (finalScores g) else None in
  paint (set_gameContent
           (ResultsViewOf
              {| results_round := currentRound g;
                 results_total := totalRounds;
                 dasharray := (#2 * Math_PI) * #90;
                 dashoffset :=
                   ((#2 * Math_PI) * #90) * (#1 - similarityScore g / #100);
                 score_value := n_round N (similarityScore g);
                 performance_message := fst performanceData;
                 performance_description := snd performanceData;
                 final_scores := scoresHTML;
                 buttons := if isGameOver then PlayAgainAndHomeButtons
                            else NextTurnButton |})).

(** *** renderStep, nextStep *)

Definition renderStep : Action unit :=
  updateProgress ;;;
  updateStepLabel ;;;
  g <- peek ;;
  let step := currentStep g in
  if (step =? PLAYER_NAMES)%Z then renderPlayerNames
  else if (step =? CATEGORY_SELECTION)%Z then renderCategorySelection
  else if (step =? PROMPT_SELECTION)%Z then renderPromptSelection
  else if (step =? PLAYER1_RECORDING)%Z then renderPlayer1Recording
  else if (step =? REVERSE_PLAYBACK)%Z then renderReversePlayback
  else if (step =? PLAYER2_RECORDING)%Z then renderPlayer2Recording
  else if (step =? REVERSE_PLAYER2)%Z then renderReversePlayer2
  else if (step =? EVALUATION)%Z then renderEvaluation
  else if (step =? RESULTS)%Z then renderResults
  else finish tt.

Definition nextStep : Action unit :=
  g <- peek ;;
  if (currentStep g <? RESULTS)%Z then
    change (set_currentStep (currentStep g + 1)%Z) ;;;
    renderStep
  else finish tt.

(** *** evaluatePerformance *)

(** What [evaluatePerformance] hands to [compareAudio]: the callback that
    takes the score. *)
Definition scoreCallback (score : num N) : Action unit :=
  change (set_similarityScore score) ;;;
  change (set_currentStep RESULTS) ;;;
  renderResults.

Definition evaluatePerformance : Action unit :=
  change (set_currentStep EVALUATION) ;;;
  renderEvaluation ;;;
  paint (setTimeout CompareRecordings 1000).

(** *** nextTurn *)

(** [`Sing: ${song.song} by ${song.artist}`] *)
Definition promptOf (s : Song) : string :=
  "Sing: " ++ song s ++ " by " ++ artist s.

(** A string in a condition: [null] and the empty string are false. *)
Definition truthy (s : option string) : bool :=
  match s with
  | None | Some EmptyString => false
  | Some _ => true
  end.

(** [nextTurn], given what chance gives this call: the song
    [selectRandomSong] returns and the number [Math.random] returns, which
    is finite. *)
Definition nextTurn (randomSong : option Song) (random : num N) : Action unit :=
  g <- peek ;;
  consoleLog "🎮 [App] nextTurn called" [] ;;;
  consoleLog "🎮 [App] Current state - Round: Player: Turns:"
             [#(currentRound g); #(currentPlayerIndex g); #(turnsCompleted g)] ;;;
  (* switch the active player *)
  change (set_currentPlayerIndex (Z.rem (currentPlayerIndex g + 1) 2)) ;;;
  g <- peek ;;
  consoleLog ("🎮 [App] Switched to player: ("
              ++ nameOf g (currentPlayerIndex g) (currentPlayerIndex g + 1)%Z ++ ")")
             [#(currentPlayerIndex g)] ;;;
  (* back at player 1, both players have played this round *)
  (if (currentPlayerIndex g =? 0)%Z then
     change (set_currentRound (currentRound g + 1)%Z) ;;;
     consoleLog "🎮 [App] Both players completed round, incrementing to round:"
                [#(currentRound g + 1)]
   else finish tt) ;;;
  g <- peek ;;
  (* should the game end? *)
  if (currentRound g >? totalRounds)%Z then
    consoleLog "🎮 [App] Game over! All rounds completed." []
  else
    (* reset for the next turn *)
    change (set_currentStep PROMPT_SELECTION) ;;;
    (* a new song from the same category *)
    change (set_currentPrompt
              (if truthy (selectedCategory g) then
                 match randomSong with
                 | Some song => Some (promptOf song)
                 | None => Some "Sing any song you like!"
                 end
               else
                 at_index prompts (n_floor N (random * of_nat N (List.length prompts))))) ;;;
    change (set_similarityScore #0) ;;;
    onManager (@reset N) ;;;
    g <- peek ;;
    consoleLog "🎮 [App] Starting turn with prompt:" [#(turnsCompleted g + 1)] ;;;
    renderStep.

(** *** playAgain *)

Definition playAgain : Action unit :=
  change (set_currentStep PLAYER_NAMES) ;;;
  change (set_currentPrompt (Some "")) ;;;
  change (set_similarityScore #0) ;;;
  (* the names and the category are given up, so that they can be chosen again *)
  change (set_playerNames [""; ""]) ;;;
  change (set_selectedCategory None) ;;;
  change (set_currentRound 1) ;;;
  change (set_currentPlayerIndex 0) ;;;
  change (set_roundScores []) ;;;
  change (set_turnsCompleted 0) ;;;
  onManager (@reset N) ;;;
  consoleLog "🎮 [App] New game started" [] ;;;
  renderStep.

End Game.

(** ** Vocabulary of the properties *)

Section Frames.

Variable N : NumOps.

(** Every typed array of [w] is still there in [w'], with the same samples. *)
Definition untouched (w w' : World N) : Prop :=
  List.length (heap w) <= List.length (heap w') /\
  forall l, l < List.length (heap w) -> nth l (heap w') [] = nth l (heap w) [].

(** A callback that may allocate, log and throw, and writes to no array that
    existed when it was called. *)
Definition writes_nothing (callback : num N -> M N unit) : Prop :=
  forall score w, untouched w (snd (callback score w)).

(** Running [m] leaves the first [n] arrays of the heap as they are, and what
    it returns satisfies [Q]. *)
Definition keeps (n : nat) {A : Type} (m : M N A) (Q : A -> Prop) : Prop :=
  forall w, n <= List.length (heap w) ->
    n <= List.length (heap (snd (m w))) /\
    (forall l, l < n -> nth l (heap (snd (m w))) [] = nth l (heap w) []) /\
    (forall a, fst (m w) = Returned a -> Q a).

(** The buffer's channels are arrays of the heap, each of the buffer's length. *)
Definition well_formed (w : World N) (b : AudioBuffer N) : Prop :=
  Forall (fun l => l < List.length (heap w) /\
                   List.length (nth l (heap w) []) = length b)
         (channelData b).

(** The samples of channel [c] of [b] in the world [w]. *)
Definition samples (w : World N) (b : AudioBuffer N) (c : nat) : list (num N) :=
  match nth_error (channelData b) c with
  | Some l => nth l (heap w) []
  | None => []
  end.

(** The manager of one comparison: a reference and a candidate. *)
Definition comparing (reference candidate : option (AudioBuffer N)) : AudioManager N :=
  {| player1OriginalBuffer := reference;
     player1ReversedBuffer := None;
     player2AttemptBuffer := None;
     player2ReverseForwardBuffer := candidate |}.

(** The comparison computes [score]: after logging and allocating, which
    touches no array that was there, its last act is
    [try { if (onComplete) onComplete(score) } catch (error) { ... }]. *)
Definition delivers (this : AudioManager N) (w : World N) (score : num N) : Prop :=
  exists w1,
    untouched w w1 /\
    forall onComplete,
      compareAudio this onComplete w
      = try_catch (deliver onComplete score) (catchBlock onComplete) w1.

(** A callback that records the score on the console and returns. *)
Definition recorder : num N -> M N unit := fun score => console_log "onComplete" [score].

(** The similarity values of two buffers: those of the first channels, cut to
    the shorter length, at the sample rate of the reference. *)
Definition compared (w : World N) (buffer1 buffer2 : AudioBuffer N) : Similarity N :=
  let samples1 := samples w buffer1 0 in
  let samples2 := samples w buffer2 0 in
  let minLength := Nat.min (List.length samples1) (List.length samples2) in
  similarities N (firstn minLength samples1) (firstn minLength samples2) minLength
               (sampleRate buffer1) (duration buffer1) (duration buffer2).

End Frames.

(** ** Laws of the arithmetic

    What the properties below use of the carrier; the reals and the doubles
    both have them ([RealNum_ordered], [Float64_ordered],
    [RealNum_commutative], [Float64_commutative]). *)

Record Ordered (N : NumOps) : Prop := {
  le_or_gt :
    forall x y : num N,
      n_le N x x = true -> n_le N y y = true -> n_le N x y = true \/ n_lt N y x = true;
  lt_numbers :
    forall x y : num N, n_lt N x y = true -> n_le N x x = true /\ n_le N y y = true;
  le_not_gt : forall x y : num N, n_le N x y = true -> n_lt N y x = false;
  lt_transitive :
    forall x y z : num N, n_lt N x y = true -> n_lt N y z = true -> n_lt N x z = true;
  thresholds_ordered : n_lt N (lit N 4 1) (lit N 7 1) = true
}.

Record Commutative (N : NumOps) : Prop := {
  mul_commutative : forall x y : num N, n_mul N x y = n_mul N y x;
  abs_sub_commutative :
    forall x y : num N, n_abs N (n_sub N x y) = n_abs N (n_sub N y x);
  max_commutative : forall x y : num N, n_max N x y = n_max N y x;
  min_commutative : forall x y : num N, n_min N x y = n_min N y x
}.

(** ** The fusion as the specification words it *)

Section Fusion.

Variable N : NumOps.
Local Open Scope num_scope.

(** [raw = 0.35 timbre + 0.25 pitch + 0.15 envelope + 0.10 centroid
    + 0.10 energy + 0.05 duration] *)
Definition spec_rawScore (s : Similarity N) : num N :=
  lit N 35 2 * mfccSimilarity s +
  lit N 25 2 * pitchMatch s +
  lit N 15 2 * envelopeMatch s +
  lit N 10 2 * spectralMatch s +
  lit N 10 2 * energyMatch s +
  lit N 5 2 * durationMatch s.

(** The three branches of the remap, each under its own condition; [slope]
    is the factor of the upper branch. *)
Definition spec_remap (slope raw adjusted : num N) : Prop :=
  (raw >? lit N 7 1 = true /\
   adjusted = of_Z N 50 + (raw - lit N 7 1) * slope) \/
  (lit N 4 1 <? raw = true /\ n_le N raw (lit N 7 1) = true /\
   adjusted = of_Z N 20 + (raw - lit N 4 1) * of_Z N 100) \/
  (n_le N raw (lit N 4 1) = true /\
   adjusted = raw * of_Z N 50).

(** Clamp to the range 0 to 100. *)
Definition spec_clamp (x : num N) : num N :=
  n_max N (of_Z N 0) (n_min N (of_Z N 100) x).

(** The reported score: the clamped remap of the raw score, rounded to the
    nearest integer. *)
Definition spec_score (slope : num N) (s : Similarity N) (score : num N) : Prop :=
  exists adjusted,
    spec_remap slope (spec_rawScore s) adjusted /\
    score = n_round N (spec_clamp adjusted).

End Fusion.

(** ** The timbre extractor as the specification words it *)

Section Timbre.

Variable N : NumOps.
Local Open Scope num_scope.

(** The synthetic frequency of bin [i]: [i * sampleRate / 2048]. *)
Definition binFrequency (sampleRate : num N) (i : nat) : num N :=
  of_nat N i * sampleRate / of_nat N 2048.

(** [freq] lies in the interval from the low edge of band [b] up to, and
    not including, its high edge. *)
Definition contains (edges : list (num N)) (b : nat) (freq : num N) : bool :=
  (freq >=? get N edges b) && (freq <? get N edges (b + 1)).

(** Band [b] is the band a bin of frequency [freq] is accumulated into: one
    of the twelve bands that have both edges, containing [freq], and the
    lowest such band. *)
Definition takes (edges : list (num N)) (b : nat) (freq : num N) : bool :=
  (b <? 12)%nat && contains edges b freq
  && forallb (fun b' => negb (contains edges b' freq)) (seq 0 b).

(** The energy of band [b] in one frame: the squared magnitudes of the bins
    it takes, summed in the order of the bins. *)
Definition spec_bandEnergy (edges : list (num N)) (sampleRate : num N)
    (frame : list (num N)) (b : nat) : num N :=
  fold_left
    (fun energy i => energy + n_abs N (get N frame i) * n_abs N (get N frame i))
    (filter (fun i => takes edges b (binFrequency sampleRate i)) (seq 0 1024))
    (of_Z N 0).

(** The log band-energy vector of the frame that starts at [pos]. *)
Definition spec_frameFeatures (audioData : list (num N)) (sampleRate : num N)
    (pos : nat) : list (num N) :=
  map (fun b =>
         n_log N (spec_bandEnergy (melBands N sampleRate) sampleRate
                    (slice audioData pos (pos + 2048)) b
                  + lit N 1 10))
      (seq 0 13).

(** The number of frames of 2048 samples at hop 512: the positions
    [0, 512, 1024, ...] below [length - 2048]. *)
Definition frameCount (len : nat) : nat := (len - 2048 + 511) / 512.

End Timbre.

Arguments binFrequency {N} sampleRate i.
Arguments contains {N} edges b freq.
Arguments takes {N} edges b freq.
Arguments spec_bandEnergy {N} edges sampleRate frame b.
Arguments spec_frameFeatures {N} audioData sampleRate pos.

(** ** Example inputs *)

(** A world holding the given arrays, and a one-channel buffer over one of them. *)
Definition world_of (N : NumOps) (arrays : list (list (num N))) : World N :=
  {| heap := arrays; console := [] |}.

Definition mono (N : NumOps) (rate : num N) (len : nat) (l : nat) : AudioBuffer N :=
  {| sampleRate := rate; length := len; channelData := [l] |}.

(** Doubles: a reference of 2048 samples at 0.5 followed by 2049 at 0.25, and
    a candidate of 4097 samples, all of them the single-precision value
    nearest to 0.123 (16508781 / 2^27); both at 48 kHz.  The candidate's
    envelope is the same in each of its three windows. *)
Definition stepped_reference : list float :=
  repeat (F64.of_Z 1 / F64.of_Z 2)%float 2048 ++ repeat (F64.of_Z 1 / F64.of_Z 4)%float 2049.

Definition flat_candidate : list float :=
  repeat (F64.of_Z 16508781 / F64.of_Z 134217728)%float 4097.

Definition flat_world (M : MathLib) : World (Float64 M) :=
  world_of (Float64 M) [stepped_reference; flat_candidate].

Definition flat_pair (M : MathLib) : AudioManager (Float64 M) :=
  comparing (Some (mono (Float64 M) (F64.of_Z 48000) 4097 0))
            (Some (mono (Float64 M) (F64.of_Z 48000) 4097 1)).

(** Doubles on a host that is not consulted: two short buffers at 48 kHz, a
    clap of three samples and three samples of silence. *)
Definition Doubles : NumOps := Float64 no_math.

Definition short_world : World Doubles :=
  world_of Doubles [[F64.of_Z 1; F64.of_Z 0; F64.of_Z (-1)]; [F64.of_Z 0; F64.of_Z 0; F64.of_Z 0]].

Definition short_clap : AudioBuffer Doubles := mono Doubles (F64.of_Z 48000) 3 0.
Definition short_silence : AudioBuffer Doubles := mono Doubles (F64.of_Z 48000) 3 1.

(** The same two buffers over the reals. *)
Definition real_short_world : World RealNum :=
  world_of RealNum [[1; 0; -1]%R; [0; 0; 0]%R].

Definition real_short_clap : AudioBuffer RealNum := mono RealNum 48000%R 3 0.
Definition real_short_silence : AudioBuffer RealNum := mono RealNum 48000%R 3 1.

(** On any numbers: three arrays of one sample each, two pops that are the
    same sample for sample and one sample of silence; all at 48 kHz. *)
Definition pop_world (N : NumOps) : World N :=
  world_of N [[of_Z N 1]; [of_Z N 1]; [of_Z N 0]].

Definition pop (N : NumOps) : AudioBuffer N := mono N (of_Z N 48000) 1 0.
Definition pop_again (N : NumOps) : AudioBuffer N := mono N (of_Z N 48000) 1 1.
Definition hush (N : NumOps) : AudioBuffer N := mono N (of_Z N 48000) 1 2.

(** On any numbers: a tick, the samples 1 and 1/8 followed by 2046 zeros, held
    at 8 kHz, and 2048 samples of silence held at 48 kHz. *)
Definition tick (N : NumOps) : list (num N) :=
  [of_Z N 1; n_div N (of_Z N 1) (of_Z N 8)] ++ repeat (of_Z N 0) 2046.

Definition rates_world (N : NumOps) : World N :=
  world_of N [tick N; repeat (of_Z N 0) 2048].

Definition tick_8k (N : NumOps) : AudioBuffer N := mono N (of_Z N 8000) 2048 0.
Definition rest_48k (N : NumOps) : AudioBuffer N := mono N (of_Z N 48000) 2048 1.

(** ** Vocabulary of the further properties *)

Section OnsetVocabulary.

Variable N : NumOps.

(** The energy of the window before the one that starts at [i]; the loop
    starts from [prevEnergy = 0]. *)
Definition previousEnergy (audioData : list (num N)) (i : nat) : num N :=
  if (i =? 0)%nat then of_Z N 0 else windowEnergy N audioData (i - 512).

(** A sharp increase at the window that starts at [i]: its energy is above
    [1 + threshold] times the energy of the window before, and above 0.01. *)
Definition sharp_increase (audioData : list (num N)) (threshold : num N) (i : nat) : bool :=
  n_lt N (n_mul N (previousEnergy audioData i) (n_add N (of_Z N 1) threshold))
         (windowEnergy N audioData i)
  && n_lt N (lit N 1 2) (windowEnergy N audioData i).

End OnsetVocabulary.


Section RecorderVocabulary.

Variable N : NumOps.

(** The recording time after [k] ticks of the timer, from [t0]: 0.1 is added
    at every tick. *)
Definition timeAfter (t0 : num N) (k : nat) : num N :=
  Nat.iter k (fun t => n_add N t (lit N 1 1)) t0.

(** The callback of the timer, if there is one, returns. *)
Definition returning_callback (f : Fields N) : Prop :=
  match onRecordingUpdate f with
  | Some callback => forall t w, fst (callback t w) = Returned tt
  | None => True
  end.

(** The object when [startRecording] has started the recorder and its timer
    [id]: lines 159 to 165. *)
Definition started (f : Fields N) (id : nat) : Prop :=
  mediaRecorder f = Some recording /\
  recordingTimer f = Some id /\
  recordingTime f = of_Z N 0 /\
  maxRecordingDuration f = of_Z N 10.

End RecorderVocabulary.

(** The object as [new AudioManager()] leaves it, with no call made; the
    object when a recording has just started, with the timer 1; and the
    object of a game in which player 1 holds the clap and player 2 the
    silence. *)
Definition fresh_scene (N : NumOps) : Scene N :=
  {| this := constructor N; calls := [] |}.

Definition recording_scene (N : NumOps) : Scene N :=
  {| this := set_recordingTimer (Some 1)
               (set_mediaRecorder (Some recording)
                  (set_isRecording true (constructor N)));
     calls := [] |}.

Definition short_game : Scene Doubles :=
  {| this := set_buffers {| player1OriginalBuffer := Some short_clap;
                            player1ReversedBuffer := None;
                            player2AttemptBuffer := Some short_silence;
                            player2ReverseForwardBuffer := None |}
                         (constructor Doubles);
     calls := [] |}.

(** A browser with audio contexts that start running. *)
Definition a_browser : Host := {| constructs := Some running; resumes := true |}.

(** ** A game, turn by turn *)

Section Turns.

Variable N : NumOps.
Variable Math_PI : num N.
Variable categories : list string.
Variable getCategoryEmoji : string -> string.

(** What a turn brings from outside the game: the score the comparison hands
    over, and what chance gives the turn after it. *)
Record Played : Type := {
  scored : num N;
  songDrawn : option Song;
  numberDrawn : num N
}.

(** The score of a turn arrives, and the players go on to the next turn. *)
Definition playTurn (t : Played) : Action N unit :=
  followedBy (scoreCallback Math_PI (scored t))
             (fun _ => nextTurn Math_PI categories getCategoryEmoji
                                (songDrawn t) (numberDrawn t)).

Fixpoint playTurns (turns : list Played) : Action N unit :=
  match turns with
  | [] => finish tt
  | t :: rest => followedBy (playTurn t) (fun _ => playTurns rest)
  end.

(** A game of which no turn has been played. *)
Definition unplayed (g : Game N) : Prop :=
  turnsCompleted g = 0%Z /\ currentRound g = 1%Z /\ currentPlayerIndex g = 0%Z /\
  roundScores g = [].

(** The line of a player's final scores for a round. *)
Definition rowOf (round : Z) (score : num N) : ScoreRow N :=
  {| row_round := round; row_percent := n_round N score |}.

(** [Math.round((((0 + a) + b) + c) / 3)] *)
Definition averageOfThree (a b c : num N) : num N :=
  n_round N
    (n_div N (n_add N (n_add N (n_add N (of_Z N 0) a) b) c) (of_Z N 3)).

End Turns.

(** The messages of [getPerformanceMessage], from the lowest to the highest. *)
Definition praise : list string :=
  [ "😅 Keep Practicing!"; "🙂 Not Bad!"; "👍 Good Try!"; "✨ Great Job!";
    "🌟 Excellent!"; "🏆 Perfect!" ]%string.

(** The place of a message among them. *)
Fixpoint placeIn (messages : list string) (message : string) : nat :=
  match messages with
  | [] => 0
  | m :: rest => if String.eqb m message then 0 else S (placeIn rest message)
  end.

(** A page on which nothing has been shown, and a game just loaded on it. *)
Definition blank_page (N : NumOps) : Page N :=
  {| progressBar_width := of_Z N 0; stepLabel_textContent := None;
     gameContent := None; timeouts := [] |}.

Definition loaded_app (N : NumOps) : App N :=
  {| game := loaded N; page := blank_page N; audioManager := fresh_scene N;
     world := {| heap := []; console := [] |} |}.

(** A game of doubles: [Math.PI], and a catalogue to choose from. *)
Definition Math_PI_double : num Doubles := 0x1.921fb54442d18p+1%float.

Definition some_categories : list string := ["Pop Hits"; "Classic Rock"]%string.

Definition some_emoji (category : string) : string := "🎵"%string.

(** A turn scored [z], after which chance draws no song and the number 0. *)
Definition turn_scored (z : Z) : Played Doubles :=
  {| scored := of_Z Doubles z; songDrawn := None; numberDrawn := of_Z Doubles 0 |}.

Definition three_turns : list (Played Doubles) := map turn_scored [72; 64; 80]%Z.

Definition five_turns : list (Played Doubles) := map turn_scored [72; 64; 80; 85; 91]%Z.

(** A game in which the first player's second turn was scored NaN. *)
Definition spoiled_turn : Turn Doubles :=
  {| turn := 3; round := 2; player := "Ann"; playerIndex := 0; score := n_undefined Doubles;
     prompt := None |}.

Definition spoiled_game : Game Doubles :=
  set_roundScores
    [ {| turn := 1; round := 1; player := "Ann"; playerIndex := 0;
         score := of_Z Doubles 95; prompt := None |};
      {| turn := 2; round := 1; player := "Bo"; playerIndex := 1;
         score := of_Z Doubles 20; prompt := None |};
      spoiled_turn ]
    (set_playerNames ["Ann"; "Bo"]%string (loaded Doubles)).

(** * Properties *)

(** ** Loops and arrays *)

Lemma loop_from_unit fuel v stop :
  stop - v <= fuel -> loop_from fuel v stop 1 = seq v (stop - v).
Proof.
  revert v. induction fuel as [|fuel IH]; intros v Hf.
  - replace (stop - v) with 0 by lia. reflexivity.
  - simpl. destruct (Nat.ltb_spec v stop) as [Hlt|Hge].
    + rewrite IH by lia. replace (stop - v) with (S (stop - (v + 1))) by lia.
      simpl. f_equal. f_equal. lia.
    + replace (stop - v) with 0 by lia. reflexivity.
Qed.

(** A loop counting up by one runs over [a, a+1, ..., b-1]: the fuel of
    [for_loop] is enough. *)
Lemma for_loop_unit a b : for_loop a b 1 = seq a (b - a).
Proof. unfold for_loop. apply loop_from_unit. lia. Qed.

Lemma loop_from_strided step fuel v stop :
  0 < step -> stop - v <= fuel ->
  loop_from fuel v stop step
  = map (fun k => v + k * step) (seq 0 ((stop - v + (step - 1)) / step)).
Proof.
  intros Hs. revert v. induction fuel as [|fuel IH]; intros v Hf.
  - replace (stop - v) with 0 by lia.
    rewrite Nat.div_small by lia. reflexivity.
  - simpl. destruct (Nat.ltb_spec v stop) as [Hlt|Hge].
    + rewrite IH by lia.
      replace ((stop - v + (step - 1)) / step)
        with (S ((stop - (v + step) + (step - 1)) / step)).
      * simpl. f_equal; [lia|]. rewrite <- seq_shift, map_map.
        apply map_ext. intros k. lia.
      * destruct (Nat.le_gt_cases stop (v + step)) as [Hle|Hgt].
        -- replace (stop - (v + step)) with 0 by lia.
           rewrite (Nat.div_small (0 + _)) by lia.
           apply Nat.div_unique with (r := stop - v - 1); lia.
        -- replace (stop - v + (step - 1))
             with ((stop - (v + step) + (step - 1)) + 1 * step) by lia.
           rewrite Nat.div_add by lia. lia.
    + replace (stop - v) with 0 by lia.
      rewrite Nat.div_small by lia. reflexivity.
Qed.

(** A loop from 0 with a positive step runs over the multiples of the step
    below the bound. *)
Lemma for_loop_strided stop step :
  0 < step ->
  for_loop 0 stop step = map (fun k => k * step) (seq 0 ((stop + (step - 1)) / step)).
Proof.
  intros Hs. unfold for_loop. rewrite loop_from_strided by lia.
  rewrite Nat.sub_0_r. reflexivity.
Qed.

Lemma update_length {A} i (f : A -> A) a : List.length (update i f a) = List.length a.
Proof.
  revert i. induction a as [|x a IH]; intros [|i]; simpl; auto.
Qed.

Lemma nth_update_same {A} i (f : A -> A) a d :
  i < List.length a -> nth i (update i f a) d = f (nth i a d).
Proof.
  revert i. induction a as [|x a IH]; intros [|i] Hi; simpl in *; try lia; auto.
  apply IH. lia.
Qed.

Lemma nth_update_other {A} i j (f : A -> A) a d :
  i <> j -> nth j (update i f a) d = nth j a d.
Proof.
  revert i j. induction a as [|x a IH]; intros [|i] [|j] Hij; simpl; auto; try lia.
Qed.

Lemma update_beyond {A} i (f : A -> A) a :
  List.length a <= i -> update i f a = a.
Proof.
  revert i. induction a as [|x a IH]; intros [|i] Hi; simpl in *; auto; try lia.
  f_equal. apply IH. lia.
Qed.

(** ** Effects of [compareAudio] *)

Section Effects.

Variable N : NumOps.

Lemma untouched_refl (w : World N) : untouched w w.
Proof. split; auto. Qed.

Lemma untouched_trans (w1 w2 w3 : World N) :
  untouched w1 w2 -> untouched w2 w3 -> untouched w1 w3.
Proof.
  intros [L12 H12] [L23 H23]. split; [lia|].
  intros l Hl. rewrite H23 by lia. apply H12, Hl.
Qed.

Lemma keeps_untouched {A} (m : M N A) Q w :
  keeps (List.length (heap w)) m Q -> untouched w (snd (m w)).
Proof.
  intros K. destruct (K w (Nat.le_refl _)) as (HL & HN & _). split; auto.
Qed.

Lemma keeps_weaken n {A} (m : M N A) (Q Q' : A -> Prop) :
  (forall a, Q a -> Q' a) -> keeps n m Q -> keeps n m Q'.
Proof.
  intros HQ K w Hw. destruct (K w Hw) as (H1 & H2 & H3). repeat split; auto.
Qed.

Lemma keeps_ret n {A} (a : A) (Q : A -> Prop) : Q a -> keeps n (ret (N := N) a) Q.
Proof.
  intros HQ w Hw. cbn. repeat split; auto. intros a' [= <-]. exact HQ.
Qed.

Lemma keeps_throw n {A} e (Q : A -> Prop) : keeps n (throw (N := N) e) Q.
Proof. intros w Hw. cbn. repeat split; auto. discriminate. Qed.

Lemma keeps_bind n {A B} (m : M N A) (k : A -> M N B) Q R :
  keeps n m Q -> (forall a, Q a -> keeps n (k a) R) -> keeps n (bind m k) R.
Proof.
  intros Km Kk w Hw. destruct (Km w Hw) as (H1 & H2 & H3).
  unfold bind. destruct (m w) as [[a|e] w1] eqn:E; cbn in *.
  - destruct (Kk a (H3 a eq_refl) w1 H1) as (K1 & K2 & K3).
    repeat split; auto. intros l Hl. rewrite K2 by auto. auto.
  - repeat split; auto. discriminate.
Qed.

Lemma keeps_try_catch n {A} (body : M N A) handler (Q R : A -> Prop) :
  keeps n body R -> (forall e, keeps n (handler e) R) ->
  keeps n (try_catch body handler) R.
Proof.
  intros Kb Kh w Hw. destruct (Kb w Hw) as (H1 & H2 & H3).
  unfold try_catch. destruct (body w) as [[a|e] w1] eqn:E; cbn in *.
  - repeat split; auto.
  - destruct (Kh e w1 H1) as (K1 & K2 & K3).
    repeat split; auto. intros l Hl. rewrite K2 by auto. auto.
Qed.

Lemma keeps_console_log n text values :
  keeps n (console_log (N := N) text values) (fun _ => True).
Proof. intros w Hw. cbn. repeat split; auto. Qed.

Lemma keeps_console_error n text e :
  keeps n (console_error (N := N) text e) (fun _ => True).
Proof. intros w Hw. cbn. repeat split; auto. Qed.

Lemma keeps_deref n l : keeps n (deref (N := N) l) (fun _ => True).
Proof. intros w Hw. cbn. repeat split; auto. Qed.

Lemma keeps_getChannelData n (b : AudioBuffer N) c :
  keeps n (getChannelData b c) (fun _ => True).
Proof.
  unfold getChannelData. destruct (nth_error _ _).
  - apply keeps_ret. exact I.
  - apply keeps_throw.
Qed.

(** A fresh array lies beyond the arrays that were there. *)
Lemma keeps_alloc n (a : Float32Array N) : keeps n (alloc a) (fun l => n <= l).
Proof.
  intros w Hw. cbn. rewrite length_app. cbn. repeat split; try lia.
  - intros l Hl. apply app_nth1. lia.
  - intros l [= <-]. exact Hw.
Qed.

Lemma keeps_typed_slice n l from to :
  keeps n (typed_slice (N := N) l from to) (fun l' => n <= l').
Proof.
  unfold typed_slice. eapply keeps_bind; [apply keeps_deref|].
  intros a _. apply keeps_alloc.
Qed.

(** [set] writes to its destination alone. *)
Lemma keeps_typed_set n dst src :
  n <= dst -> keeps n (typed_set (N := N) dst src) (fun _ => True).
Proof.
  intros Hd. unfold typed_set.
  eapply keeps_bind; [apply keeps_deref|]. intros s _.
  eapply keeps_bind; [apply keeps_deref|]. intros d _.
  destruct (_ <? _); [apply keeps_throw|].
  intros w Hw. cbn. rewrite update_length. repeat split; auto.
  intros l Hl. apply nth_update_other. lia.
Qed.

Lemma keeps_deliver n (onComplete : option (num N -> M N unit)) score :
  (forall k, onComplete = Some k -> writes_nothing k) ->
  keeps n (deliver onComplete score) (fun _ => True).
Proof.
  intros Hk w Hw. destruct onComplete as [k|]; cbn.
  - destruct (Hk k eq_refl score w) as [HL HN].
    repeat split; auto; try lia. intros l Hl. apply HN. lia.
  - repeat split; auto.
Qed.

Lemma keeps_compareAudio n (this : AudioManager N) onComplete :
  (forall k, onComplete = Some k -> writes_nothing k) ->
  keeps n (compareAudio this onComplete) (fun _ => True).
Proof.
  intros Hk. unfold compareAudio.
  apply keeps_try_catch with (Q := fun _ => True).
  - destruct (player1OriginalBuffer this) as [buffer1|];
      [destruct (player2ReverseForwardBuffer this) as [buffer2|]|];
      try apply keeps_throw.
    repeat (eapply keeps_bind; [apply keeps_console_log|]; intros _ _).
    eapply keeps_bind; [apply keeps_getChannelData|]; intros data1 _.
    eapply keeps_bind; [apply keeps_getChannelData|]; intros data2 _.
    eapply keeps_bind; [apply keeps_deref|]; intros samples1 _.
    eapply keeps_bind; [apply keeps_deref|]; intros samples2 _.
    eapply keeps_bind; [apply keeps_alloc|]; intros normalized1 H1.
    eapply keeps_bind; [apply keeps_alloc|]; intros normalized2 H2.
    eapply keeps_bind; [apply keeps_typed_slice|]; intros copy1 _.
    eapply keeps_bind; [apply keeps_typed_set, H1|]; intros _ _.
    eapply keeps_bind; [apply keeps_typed_slice|]; intros copy2 _.
    eapply keeps_bind; [apply keeps_typed_set, H2|]; intros _ _.
    eapply keeps_bind; [apply keeps_deref|]; intros n1 _.
    eapply keeps_bind; [apply keeps_deref|]; intros n2 _.
    repeat (eapply keeps_bind; [apply keeps_console_log|]; intros _ _).
    apply keeps_deliver, Hk.
  - intros e. unfold catchBlock.
    repeat (eapply keeps_bind; [apply keeps_console_error|]; intros _ _).
    apply keeps_deliver, Hk.
Qed.

(** C9. The comparison never mutates either input waveform: whatever the two
    buffer slots hold and whichever callback is passed (one that itself
    writes to no existing array), every typed array of the heap before the
    call, the sample data of both buffers among them, holds the same samples
    after it; the comparison writes to the two arrays it allocates. *)
Theorem compareAudio_inputs_untouched
    (this : AudioManager N) (onComplete : option (num N -> M N unit)) (w : World N) :
  (forall k, onComplete = Some k -> writes_nothing k) ->
  untouched w (snd (compareAudio this onComplete w)) /\
  forall b c,
    (player1OriginalBuffer this = Some b \/ player2ReverseForwardBuffer this = Some b) ->
    well_formed w b ->
    samples (snd (compareAudio this onComplete w)) b c = samples w b c.
Proof.
  intros Hk.
  assert (U : untouched w (snd (compareAudio this onComplete w))).
  { eapply keeps_untouched. apply keeps_compareAudio, Hk. }
  split; [exact U|].
  intros b c _ Hwf. unfold samples.
  destruct (nth_error (channelData b) c) as [l|] eqn:E; [|reflexivity].
  apply nth_error_In in E. unfold well_formed in Hwf.
  rewrite Forall_forall in Hwf. destruct (Hwf l E) as [Hl _].
  apply U, Hl.
Qed.

(** The error thrown when a buffer slot is empty. *)
Lemma compareAudio_missing_run
    (this : AudioManager N) (onComplete : option (num N -> M N unit)) (w : World N) :
  player1OriginalBuffer this = None \/ player2ReverseForwardBuffer this = None ->
  compareAudio this onComplete w
  = deliver onComplete (of_Z N 30)
      {| heap := heap w;
         console :=
           (console w
              ++ [ConsoleError "Error comparing audio:"
                               (JsError "Missing audio buffers for comparison")])
              ++ [ConsoleError "stack"
                               (JsError "Missing audio buffers for comparison")] |}.
Proof.
  intros H. unfold compareAudio, try_catch.
  destruct (player1OriginalBuffer this) as [b1|];
    [destruct (player2ReverseForwardBuffer this) as [b2|]|].
  - destruct H; discriminate.
  - reflexivity.
  - destruct (player2ReverseForwardBuffer this); reflexivity.
Qed.

(** C2. When the reference buffer or the candidate buffer is absent, the
    comparison raises nothing of its own: it logs the error to the console
    and makes one call of the callback, with the score 30, as its last act.
    So a caller sees an error only if its own callback throws at 30, and with
    no callback the call simply returns. *)
Theorem compareAudio_missing_buffer_delivers_30
    (this : AudioManager N) (onComplete : option (num N -> M N unit)) (w : World N) :
  player1OriginalBuffer this = None \/ player2ReverseForwardBuffer this = None ->
  exists w',
    heap w' = heap w /\
    (forall callback, onComplete = Some callback ->
       compareAudio this onComplete w = callback (of_Z N 30) w') /\
    (onComplete = None -> compareAudio this onComplete w = (Returned tt, w')) /\
    ((forall callback, onComplete = Some callback ->
        fst (callback (of_Z N 30) w') = Returned tt) ->
     fst (compareAudio this onComplete w) = Returned tt).
Proof.
  intros H. rewrite (compareAudio_missing_run this onComplete w H).
  eexists. split; [|split; [|split]].
  2: { intros callback ->. reflexivity. }
  - reflexivity.
  - intros ->. reflexivity.
  - intros Hc. destruct onComplete as [callback|]; cbn.
    + apply Hc. reflexivity.
    + reflexivity.
Qed.

Lemma firstn_over_zeros (s : list (num N)) m :
  List.length s = m -> s ++ skipn (List.length s) (repeat (of_Z N 0) m) = s.
Proof.
  intros <-. rewrite skipn_all2 by (rewrite repeat_length; lia). apply app_nil_r.
Qed.

(** The score the comparison computes is determined. *)
Lemma delivers_unique (this : AudioManager N) w v v' :
  delivers this w v -> delivers this w v' -> v = v'.
Proof.
  intros (w1 & _ & H1) (w2 & _ & H2).
  specialize (H1 (Some (@recorder N))). specialize (H2 (Some (@recorder N))).
  rewrite H1 in H2. cbn in H2. injection H2 as _ H2.
  apply app_inj_tail in H2. destruct H2 as [_ H2]. congruence.
Qed.

(** One step of a computation, for each primitive. *)
Lemma run_console_log {B} text values (k : unit -> M N B) h c :
  bind (console_log text values) k {| heap := h; console := c |}
  = k tt {| heap := h; console := c ++ [ConsoleLog text values] |}.
Proof. reflexivity. Qed.

Lemma run_ret {A B} (a : A) (k : A -> M N B) w : bind (ret a) k w = k a w.
Proof. reflexivity. Qed.

Lemma run_deref {B} l (k : Float32Array N -> M N B) h c :
  bind (deref l) k {| heap := h; console := c |}
  = k (nth l h []) {| heap := h; console := c |}.
Proof. reflexivity. Qed.

Lemma run_new_Float32Array {B} n (k : loc -> M N B) h c :
  bind (new_Float32Array n) k {| heap := h; console := c |}
  = k (List.length h) {| heap := h ++ [repeat (of_Z N 0) n]; console := c |}.
Proof. reflexivity. Qed.

Lemma run_typed_slice {B} l from to (k : loc -> M N B) h c :
  bind (typed_slice l from to) k {| heap := h; console := c |}
  = k (List.length h) {| heap := h ++ [slice (nth l h []) from to]; console := c |}.
Proof. reflexivity. Qed.

Lemma run_typed_set {B} dst src (k : unit -> M N B) h c :
  List.length (nth src h []) <= List.length (nth dst h []) ->
  bind (typed_set dst src) k {| heap := h; console := c |}
  = k tt {| heap := update dst (fun d => nth src h [] ++ skipn (List.length (nth src h [])) d) h;
            console := c |}.
Proof.
  intros Hle. unfold typed_set, bind, deref. cbn [heap console].
  replace (_ <? _) with false by (symmetry; apply Nat.ltb_ge; exact Hle).
  reflexivity.
Qed.

Lemma nth_fresh {A} (h l : list A) i d :
  nth (List.length h + i) (h ++ l) d = nth i l d.
Proof. rewrite app_nth2 by lia. f_equal. lia. Qed.

Lemma update_fresh {A} (h l : list A) i f :
  update (List.length h + i) f (h ++ l) = h ++ update i f l.
Proof. induction h as [|x h IH]; simpl; auto. f_equal. exact IH. Qed.

Lemma nth_fresh0 {A} (h l : list A) d : nth (List.length h) (h ++ l) d = nth 0 l d.
Proof. rewrite <- (Nat.add_0_r (List.length h)) at 1. apply nth_fresh. Qed.

Lemma update_fresh0 {A} (h l : list A) f :
  update (List.length h) f (h ++ l) = h ++ update 0 f l.
Proof. rewrite <- (Nat.add_0_r (List.length h)) at 1. apply update_fresh. Qed.

(** With both buffers present, each with a first channel, the comparison
    computes the rounded, adjusted, weighted score of their similarity values. *)
Lemma compareAudio_present (w : World N) (buffer1 buffer2 : AudioBuffer N) :
  well_formed w buffer1 -> well_formed w buffer2 ->
  numberOfChannels buffer1 <> 0 -> numberOfChannels buffer2 <> 0 ->
  delivers (comparing (Some buffer1) (Some buffer2)) w
           (roundedScore (compared w buffer1 buffer2)).
Proof.
  intros W1 W2 H1 H2.
  unfold delivers, compared, samples, numberOfChannels, well_formed in *.
  destruct (channelData buffer1) as [|data1 rest1] eqn:E1; [contradiction H1; reflexivity|].
  destruct (channelData buffer2) as [|data2 rest2] eqn:E2; [contradiction H2; reflexivity|].
  apply Forall_inv in W1. apply Forall_inv in W2.
  destruct W1 as [V1 _]. destruct W2 as [V2 _].
  cbn [nth_error]. destruct w as [h c]. cbn [heap] in *.
  set (samples1 := nth data1 h []).
  set (samples2 := nth data2 h []).
  set (m := Nat.min (List.length samples1) (List.length samples2)).
  assert (L1 : List.length (firstn m samples1) = m) by (rewrite length_firstn; lia).
  assert (L2 : List.length (firstn m samples2) = m) by (rewrite length_firstn; lia).
  eexists. split.
  2: { intros onComplete. unfold compareAudio, comparing.
       cbn [player1OriginalBuffer player2ReverseForwardBuffer].
       unfold getChannelData. rewrite E1, E2. cbn [nth_error].
       unfold try_catch at 1.
       rewrite !run_console_log, !run_ret, !run_deref.
       fold samples1 samples2. cbv zeta. fold m.
       rewrite !run_new_Float32Array, run_typed_slice.
       unfold slice. rewrite Nat.sub_0_r. cbn [skipn].
       rewrite !length_app. cbn [List.length]. rewrite <- !app_assoc. cbn [app].
       rewrite (app_nth1 h _ [] V1). fold samples1.
       replace (List.length h + 1 + 1) with (List.length h + 2) by lia.
       rewrite run_typed_set.
       2: { rewrite nth_fresh, nth_fresh0. cbn [nth]. rewrite repeat_length, L1. lia. }
       rewrite nth_fresh. cbn [nth].
       rewrite update_fresh0. cbn [update]. rewrite L1.
       rewrite skipn_all2 by (rewrite repeat_length; lia). rewrite app_nil_r.
       rewrite run_typed_slice.
       unfold slice. rewrite Nat.sub_0_r. cbn [skipn].
       rewrite !length_app. cbn [List.length]. 
       rewrite (app_nth1 h _ [] V2). fold samples2.
       replace (List.length h + 3) with (List.length h + 3) by lia.
       rewrite <- !app_assoc. cbn [app].
       rewrite run_typed_set.
       2: { rewrite !nth_fresh. cbn [nth]. rewrite repeat_length, L2. lia. }
       rewrite !nth_fresh. cbn [nth].
       rewrite update_fresh. cbn [update]. rewrite L2.
       rewrite skipn_all2 by (rewrite repeat_length; lia). rewrite app_nil_r.
       rewrite !run_deref.
       rewrite nth_fresh0, !nth_fresh. cbn [nth]. cbv zeta.
       rewrite !run_console_log.
       unfold roundedScore. reflexivity. }
  split; cbn [heap]; [rewrite length_app; lia|].
  intros l Hl. apply app_nth1. exact Hl.
Qed.

End Effects.

(** ** Reversal *)

Section Reversal.

Variable N : NumOps.

Lemma update_update {A} i (f g : A -> A) a :
  update i f (update i g a) = update i (fun x => f (g x)) a.
Proof.
  revert i. induction a as [|x a IH]; intros [|i]; simpl; auto. f_equal. apply IH.
Qed.

Lemma update_ext {A} i (f g : A -> A) a :
  (forall x, f x = g x) -> update i f a = update i g a.
Proof.
  intros E. revert i. induction a as [|x a IH]; intros [|i]; simpl; auto.
  - f_equal. apply E.
  - f_equal. apply IH.
Qed.

Lemma update_id {A} i (a : list A) : update i (fun x => x) a = a.
Proof.
  revert i. induction a as [|x a IH]; intros [|i]; simpl; auto. f_equal. apply IH.
Qed.

Lemma update_middle {A} (f : A -> A) pre x post :
  update (List.length pre) f (pre ++ x :: post) = pre ++ f x :: post.
Proof. induction pre as [|y pre IH]; simpl; auto. f_equal. exact IH. Qed.

(** Writing [f i] at every index [i] of a range, in order. *)
Lemma nth_fold_update {A} (f : nat -> A) k a o j d :
  nth j (fold_left (fun o i => update i (fun _ => f i) o) (seq a k) o) d
  = if (a <=? j) && (j <? a + k) && (j <? List.length o) then f j else nth j o d.
Proof.
  revert a o. induction k as [|k IH]; intros a o; simpl.
  - destruct (a <=? j) eqn:E1; destruct (j <? a + 0) eqn:E2; simpl; auto.
    apply Nat.leb_le in E1. apply Nat.ltb_lt in E2. lia.
  - rewrite IH, update_length.
    destruct (Nat.eq_dec a j) as [->|Hne].
    + rewrite Nat.leb_refl.
      replace (S j <=? j) with false by (symmetry; apply Nat.leb_gt; lia).
      replace (j <? j + S k) with true by (symmetry; apply Nat.ltb_lt; lia).
      simpl. destruct (Nat.ltb_spec j (List.length o)).
      * apply nth_update_same. assumption.
      * rewrite update_beyond by lia. reflexivity.
    + rewrite nth_update_other by assumption.
      destruct (Nat.leb_spec (S a) j), (Nat.leb_spec a j); try lia; simpl; auto.
      replace (j <? S (a + k)) with (j <? a + S k) by (f_equal; lia). reflexivity.
Qed.

Lemma length_fold_update {A} (f : nat -> A) l o :
  List.length (fold_left (fun o i => update i (fun _ => f i) o) l o) = List.length o.
Proof.
  revert o. induction l as [|i l IH]; intros o; simpl; auto.
  rewrite IH. apply update_length.
Qed.

(** The mirror loop over one channel writes the reversed input. *)
Lemma mirror_fold (input o : list (num N)) len :
  List.length input = len -> List.length o = len ->
  fold_left (fun o i => update i (fun _ => get N input (len - 1 - i)) o) (seq 0 len) o
  = rev input.
Proof.
  intros Hin Hlen. apply nth_ext with (d := n_undefined N) (d' := n_undefined N).
  - rewrite length_fold_update, length_rev. congruence.
  - intros j Hj. rewrite length_fold_update in Hj.
    rewrite nth_fold_update. simpl.
    replace (j <? len) with true by (symmetry; apply Nat.ltb_lt; lia).
    replace (j <? List.length o) with true by (symmetry; apply Nat.ltb_lt; lia).
    simpl. unfold get. rewrite rev_nth by lia. f_equal. lia.
Qed.

Lemma createChannels_run n len (w : World N) :
  createChannels n len w
  = (Returned (seq (List.length (heap w)) n),
     {| heap := heap w ++ repeat (repeat (of_Z N 0) len) n; console := console w |}).
Proof.
  revert w. induction n as [|n IH]; intros w.
  - cbn. rewrite app_nil_r. destruct w; reflexivity.
  - cbn [createChannels]. unfold bind, new_Float32Array, alloc.
    rewrite IH. cbn. rewrite length_app, <- app_assoc. cbn.
    rewrite Nat.add_1_r. reflexivity.
Qed.

(** The loop over the samples of one channel. *)
Lemma channel_loop_run inp out len k a (w : World N) :
  inp <> out ->
  for_each (seq a k)
    (fun i => bind (deref inp) (fun input => store out i (get N input (len - 1 - i)))) w
  = (Returned tt,
     {| heap :=
          update out
            (fun o => fold_left
                        (fun o i => update i (fun _ => get N (nth inp (heap w) []) (len - 1 - i)) o)
                        (seq a k) o)
            (heap w);
        console := console w |}).
Proof.
  intros Hne. revert a w. induction k as [|k IH]; intros a w.
  - cbn. rewrite update_id. destruct w; reflexivity.
  - cbn [seq for_each]. unfold bind at 1. unfold bind at 1.
    cbn [deref store fst snd]. rewrite IH. cbn [heap console].
    rewrite nth_update_other by auto. rewrite update_update. reflexivity.
Qed.

Lemma skipn_nth_error {A} (l : list A) a x :
  nth_error l a = Some x -> skipn a l = x :: skipn (S a) l.
Proof.
  revert a. induction l as [|y l IH]; intros [|a] H; simpl in *; try discriminate.
  - injection H as ->. reflexivity.
  - apply IH, H.
Qed.

(** The loop over the channels, from channel [a] on: the channels before it
    ([done]) are written, the others still hold the zeros of [createBuffer]. *)
Lemma channels_loop_run (b : AudioBuffer N) (h : list (Float32Array N)) c k :
  forall a done,
  Forall (fun l => l < List.length h /\ List.length (nth l h []) = length b)
         (channelData b) ->
  List.length done = a -> a + k = List.length (channelData b) ->
  for_each (seq a k)
    (fun channel =>
       bind (getChannelData b channel) (fun inputData =>
       bind (getChannelData
               {| sampleRate := sampleRate b; length := length b;
                  channelData := seq (List.length h) (List.length (channelData b)) |}
               channel) (fun outputData =>
       for_each (seq 0 (length b)) (fun i =>
         bind (deref inputData) (fun input =>
         store outputData i (get N input (length b - 1 - i)))))))
    {| heap := h ++ done ++ repeat (repeat (of_Z N 0) (length b)) k; console := c |}
  = (Returned tt,
     {| heap := h ++ done
                  ++ map (fun l => rev (nth l h [])) (firstn k (skipn a (channelData b)));
        console := c |}).
Proof.
  induction k as [|k IH]; intros a done Hwf Hdone Hak.
  - cbn. reflexivity.
  - assert (Ha : a < List.length (channelData b)) by lia.
    destruct (nth_error (channelData b) a) as [l|] eqn:El;
      [|apply nth_error_None in El; lia].
    assert (Hl : l < List.length h /\ List.length (nth l h []) = length b).
    { rewrite Forall_forall in Hwf. apply Hwf. eapply nth_error_In, El. }
    destruct Hl as [Hl Hlen].
    cbn [seq for_each]. unfold bind at 1. unfold bind at 1.
    unfold getChannelData at 1. rewrite El. cbn [ret].
    unfold bind at 1. unfold getChannelData at 1. cbn [channelData].
    rewrite nth_error_nth' with (d := 0) by (rewrite length_seq; exact Ha).
    rewrite seq_nth by exact Ha. cbn [ret].
    rewrite channel_loop_run by lia. cbn [heap console].
    rewrite app_nth1 by exact Hl.
    replace (List.length h + a) with (List.length (h ++ done))
      by (rewrite length_app; f_equal; exact Hdone).
    rewrite app_assoc. cbn [repeat]. rewrite update_middle.
    rewrite mirror_fold by (auto using repeat_length).
    rewrite <- app_assoc.
    replace (done ++ rev (nth l h []) :: repeat (repeat (of_Z N 0) (length b)) k)
      with ((done ++ [rev (nth l h [])]) ++ repeat (repeat (of_Z N 0) (length b)) k)
      by (rewrite <- app_assoc; reflexivity).
    etransitivity; [apply (IH (S a) (done ++ [rev (nth l h [])])); auto|].
    + rewrite length_app. cbn. rewrite Hdone. lia.
    + lia.
    + rewrite (skipn_nth_error _ _ El). cbn [firstn map].
      rewrite <- app_assoc. reflexivity.
Qed.

(** One run of [reverseAudioBuffer]: a new buffer of the same shape, whose
    channels are new arrays holding the mirrored samples; nothing else of the
    world changes. *)
Lemma reverseAudioBuffer_run (w : World N) (b : AudioBuffer N) :
  well_formed w b ->
  reverseAudioBuffer b w
  = (Returned {| sampleRate := sampleRate b; length := length b;
                 channelData := seq (List.length (heap w)) (numberOfChannels b) |},
     {| heap := heap w ++ map (fun l => rev (nth l (heap w) [])) (channelData b);
        console := console w |}).
Proof.
  intros Hwf. unfold reverseAudioBuffer, createBuffer, numberOfChannels.
  rewrite !for_loop_unit, !Nat.sub_0_r.
  unfold bind at 1. unfold bind at 1. rewrite createChannels_run. cbn [ret].
  unfold bind at 1.
  change (heap w ++ repeat (repeat (of_Z N 0) (length b)) (List.length (channelData b)))
    with (heap w ++ [] ++ repeat (repeat (of_Z N 0) (length b)) (List.length (channelData b))).
  rewrite channels_loop_run with (a := 0) (done := []) by (auto; exact Hwf).
  cbn [ret app skipn]. rewrite firstn_all. reflexivity.
Qed.

(** The channels of a buffer made of the arrays at the end of the heap. *)
Lemma samples_fresh (w : World N) (b : AudioBuffer N) h arrs c :
  heap w = h ++ arrs ->
  channelData b = seq (List.length h) (List.length arrs) ->
  samples w b c = nth c arrs [].
Proof.
  intros Hh Hc. unfold samples. rewrite Hh, Hc.
  destruct (Nat.lt_ge_cases c (List.length arrs)) as [Hlt|Hge].
  - rewrite nth_error_nth' with (d := 0) by (rewrite length_seq; exact Hlt).
    rewrite seq_nth by exact Hlt. rewrite app_nth2 by lia.
    f_equal. lia.
  - assert (E : nth_error (seq (List.length h) (List.length arrs)) c = None)
      by (apply nth_error_None; rewrite length_seq; exact Hge).
    rewrite E. symmetry. apply nth_overflow. exact Hge.
Qed.

Lemma samples_map (w : World N) (b : AudioBuffer N) c :
  samples w b c = nth c (map (fun l => nth l (heap w) []) (channelData b)) [].
Proof.
  unfold samples. destruct (nth_error (channelData b) c) as [l|] eqn:El.
  - symmetry. apply nth_error_nth. apply map_nth_error with (f := fun l => nth l (heap w) []).
    exact El.
  - symmetry. apply nth_overflow. rewrite length_map. apply nth_error_None, El.
Qed.

(** C10. Buffer reversal is an involution.  For a buffer whose channels are
    arrays of the buffer's length, reversing it and reversing the result
    gives a buffer with the same length, sample rate and number of channels,
    and every channel of it holds the sample sequence of the original's
    channel; each single reversal writes the mirror
    [output[i] = input[length - 1 - i]], that is, the reversed sequence. *)
Theorem reverseAudioBuffer_involutive (w : World N) (b : AudioBuffer N) :
  well_formed w b ->
  exists b1 w1 b2 w2,
    reverseAudioBuffer b w = (Returned b1, w1) /\
    reverseAudioBuffer b1 w1 = (Returned b2, w2) /\
    (forall c, samples w1 b1 c = rev (samples w b c)) /\
    length b2 = length b /\
    sampleRate b2 = sampleRate b /\
    numberOfChannels b2 = numberOfChannels b /\
    (forall c, samples w2 b2 c = samples w b c).
Proof.
  intros Hwf.
  assert (Hlt : forall l, In l (channelData b) ->
                  l < List.length (heap w) /\ List.length (nth l (heap w) []) = length b).
  { unfold well_formed in Hwf. rewrite Forall_forall in Hwf. exact Hwf. }
  set (contents := map (fun l => nth l (heap w) []) (channelData b)).
  set (b1 := {| sampleRate := sampleRate b; length := length b;
                channelData := seq (List.length (heap w)) (numberOfChannels b) |}).
  set (w1 := {| heap := heap w ++ map (fun l => rev (nth l (heap w) [])) (channelData b);
                console := console w |}).
  assert (Hrev : map (fun l => rev (nth l (heap w) [])) (channelData b)
                 = map (@rev _) contents).
  { unfold contents. rewrite map_map. reflexivity. }
  assert (S1 : forall c, samples w1 b1 c = nth c (map (@rev _) contents) []).
  { intros c. apply samples_fresh with (h := heap w).
    - cbn. rewrite Hrev. reflexivity.
    - cbn. unfold contents, numberOfChannels. rewrite !length_map. reflexivity. }
  assert (Hwf1 : well_formed w1 b1).
  { unfold well_formed. rewrite Forall_forall. intros l Hl.
    cbn [channelData b1] in Hl. apply in_seq in Hl.
    cbn [heap w1 length b1]. rewrite length_app, length_map.
    unfold numberOfChannels in Hl. split; [lia|].
    rewrite app_nth2 by lia.
    rewrite nth_indep with (d' := rev (nth 0 (heap w) []))
      by (rewrite length_map; lia).
    rewrite (map_nth (fun l => rev (nth l (heap w) []))). rewrite length_rev.
    apply Hlt. apply nth_In. lia. }
  exists b1, w1. eexists. eexists.
  split; [apply reverseAudioBuffer_run, Hwf|].
  split; [apply reverseAudioBuffer_run, Hwf1|].
  split.
  { intros c. rewrite S1, samples_map. fold contents.
    change (@nil (num N)) with (rev (@nil (num N))) at 1. apply map_nth. }
  split; [reflexivity|]. split; [reflexivity|].
  split; [unfold numberOfChannels; cbn; rewrite !length_seq; reflexivity|].
  intros c.
  rewrite samples_fresh
    with (h := heap w1) (arrs := map (fun l => rev (nth l (heap w1) [])) (channelData b1)).
  - rewrite samples_map. fold contents.
    replace (map (fun l => rev (nth l (heap w1) [])) (channelData b1))
      with (map (@rev _) (map (@rev _) contents)).
    + rewrite map_map. rewrite map_ext with (g := fun x => x) by apply rev_involutive.
      rewrite map_id. reflexivity.
    + apply nth_ext with (d := []) (d' := []).
      * rewrite !length_map. cbn. rewrite length_seq. unfold contents.
        rewrite length_map. reflexivity.
      * intros j Hj. rewrite !length_map in Hj.
        change (@nil (num N)) with (rev (@nil (num N))) at 1.
        rewrite (map_nth (@rev _)). rewrite <- S1.
        rewrite nth_indep with (d' := rev (nth 0 (heap w1) []))
          by (rewrite length_map; cbn; rewrite length_seq; unfold contents in Hj;
              rewrite length_map in Hj; exact Hj).
        rewrite (map_nth (fun l => rev (nth l (heap w1) []))).
        unfold samples. cbn [channelData b1].
        unfold contents in Hj. rewrite length_map in Hj.
        rewrite nth_error_nth' with (d := 0) by (rewrite length_seq; exact Hj).
        reflexivity.
  - reflexivity.
  - cbn. unfold numberOfChannels. cbn. rewrite !length_map, !length_seq. reflexivity.
Qed.

End Reversal.

(** ** The laws hold of the reals and of the doubles *)

Lemma RealNum_ordered : Ordered RealNum.
Proof.
  split; cbn; unfold Rltb, Rleb.
  - intros x y _ _. destruct (Rle_dec x y), (Rlt_dec y x); auto; lra.
  - intros x y _. destruct (Rle_dec x x), (Rle_dec y y); auto; lra.
  - intros x y. destruct (Rle_dec x y), (Rlt_dec y x); auto; lra.
  - intros x y z. destruct (Rlt_dec x y), (Rlt_dec y z), (Rlt_dec x z);
      auto; try discriminate; lra.
  - unfold lit. cbn. destruct (Rlt_dec _ _); auto. lra.
Qed.

Lemma RealNum_commutative : Commutative RealNum.
Proof.
  split; cbn; intros x y.
  - apply Rmult_comm.
  - apply Rabs_minus_sym.
  - apply Rmax_comm.
  - apply Rmin_comm.
Qed.

Lemma SFcompare_swap (X Y : spec_float) :
  SFcompare Y X = option_map CompOpp (SFcompare X Y).
Proof.
  destruct X as [s| s | |s m e], Y as [s'|s'| |s' m' e']; simpl;
    try destruct s; try destruct s'; try reflexivity;
    rewrite (Z.compare_antisym e e'); destruct (e ?= e')%Z; simpl; try reflexivity;
    rewrite (Pos.compare_cont_antisym m m' Eq); simpl;
    destruct (Pos.compare_cont Eq m m'); reflexivity.
Qed.

Lemma SFcompare_Eq (X Y : spec_float) :
  SFcompare X Y = Some Eq ->
  X = Y \/ exists s s', X = S754_zero s /\ Y = S754_zero s'.
Proof.
  destruct X as [s| s | |s m e], Y as [s'|s'| |s' m' e']; simpl;
    try destruct s; try destruct s'; try discriminate; auto;
    try (right; eexists; eexists; split; reflexivity);
    destruct (Z.compare_spec e e'); try discriminate; subst;
    intros H; injection H as H;
    try (apply (f_equal CompOpp) in H; rewrite CompOpp_involutive in H; simpl in H);
    apply Pos.compare_eq in H; subst; auto.
Qed.

Lemma F64_max_comm (x y : float) : F64.max x y = F64.max y x.
Proof.
  unfold F64.max. rewrite (SFcompare_swap (Prim2SF x) (Prim2SF y)).
  destruct (SFcompare (Prim2SF x) (Prim2SF y)) as [[| |]|] eqn:E; simpl; auto.
  destruct (SFcompare_Eq _ _ E) as [H|(s & s' & Hx & Hy)].
  - apply Prim2SF_inj in H. subst. destruct (F64.sign y); reflexivity.
  - unfold F64.sign. rewrite Hx, Hy. destruct s, s'; auto;
      apply Prim2SF_inj; congruence.
Qed.

Lemma F64_min_comm (x y : float) : F64.min x y = F64.min y x.
Proof.
  unfold F64.min. rewrite (SFcompare_swap (Prim2SF x) (Prim2SF y)).
  destruct (SFcompare (Prim2SF x) (Prim2SF y)) as [[| |]|] eqn:E; simpl; auto.
  destruct (SFcompare_Eq _ _ E) as [H|(s & s' & Hx & Hy)].
  - apply Prim2SF_inj in H. subst. destruct (F64.sign y); reflexivity.
  - unfold F64.sign. rewrite Hx, Hy. destruct s, s'; auto;
      apply Prim2SF_inj; congruence.
Qed.

Lemma F64_mul_comm (x y : float) : (x * y = y * x)%float.
Proof.
  apply Prim2SF_inj. rewrite !mul_spec. unfold SF64mul.
  destruct (Prim2SF x) as [s| s | |s m e], (Prim2SF y) as [s'|s'| |s' m' e']; simpl;
    try rewrite (xorb_comm s s'); try reflexivity.
  rewrite (Pos.mul_comm m m'), (Z.add_comm e e'). reflexivity.
Qed.

(** Rounding acts on the magnitude: the sign passes through. *)
Lemma SFabs_binary_round_aux s s' mx ex lx :
  SFabs (binary_round_aux prec emax s mx ex lx)
  = SFabs (binary_round_aux prec emax s' mx ex lx).
Proof.
  unfold binary_round_aux.
  destruct (shr_fexp prec emax mx ex lx) as [mrs e1].
  destruct (shr_fexp prec emax _ e1 loc_Exact) as [mrs2 e2].
  destruct (shr_m mrs2); simpl; auto.
  destruct (_ <=? _)%Z; reflexivity.
Qed.

Lemma SFabs_binary_normalize_opp z e :
  SFabs (binary_normalize prec emax (- z) e false)
  = SFabs (binary_normalize prec emax z e false).
Proof.
  destruct z; simpl; auto; unfold binary_round;
    destruct (shl_align _ _ _); apply SFabs_binary_round_aux.
Qed.

Lemma F64_abs_sub_comm (x y : float) : (abs (x - y) = abs (y - x))%float.
Proof.
  apply Prim2SF_inj. rewrite !abs_spec, !sub_spec. unfold SF64sub.
  destruct (Prim2SF x) as [s| s | |s m e], (Prim2SF y) as [s'|s'| |s' m' e']; simpl;
    try destruct s; try destruct s'; try reflexivity;
    rewrite (Z.min_comm e' e);
    rewrite <- SFabs_binary_normalize_opp; f_equal; f_equal; lia.
Qed.

Lemma Float64_commutative (M : MathLib) : Commutative (Float64 M).
Proof.
  split; cbn; intros x y.
  - apply F64_mul_comm.
  - apply F64_abs_sub_comm.
  - apply F64_max_comm.
  - apply F64_min_comm.
Qed.

Lemma SFltb_trans (X Y Z : spec_float) :
  SFltb X Y = true -> SFltb Y Z = true -> SFltb X Z = true.
Proof.
  unfold SFltb.
  destruct X as [s1|s1| |s1 m1 e1], Y as [s2|s2| |s2 m2 e2], Z as [s3|s3| |s3 m3 e3];
    simpl; try destruct s1; try destruct s2; try destruct s3;
    try discriminate; try reflexivity;
    destruct (Z.compare_spec e1 e2), (Z.compare_spec e2 e3), (Z.compare_spec e1 e3);
    try discriminate; try reflexivity; try lia; subst;
    change (Pos.compare_cont Eq) with Pos.compare;
    destruct (Pos.compare_spec m1 m2), (Pos.compare_spec m2 m3), (Pos.compare_spec m1 m3);
    simpl; try discriminate; try reflexivity; lia.
Qed.

Lemma SFcompare_reflexive_some (X Y : spec_float) :
  SFcompare X X <> None -> SFcompare Y Y <> None -> SFcompare X Y <> None.
Proof.
  destruct X as [s1|s1| |s1 m1 e1], Y as [s2|s2| |s2 m2 e2]; simpl;
    try congruence; intros _ _; discriminate.
Qed.

Lemma SFcompare_refl_finite s m e :
  SFcompare (S754_finite s m e) (S754_finite s m e) = Some Eq.
Proof.
  simpl. rewrite Z.compare_refl.
  change (Pos.compare_cont Eq m m) with (Pos.compare m m). rewrite Pos.compare_refl.
  destruct s; reflexivity.
Qed.

Lemma SFcompare_refl (X : spec_float) : X <> S754_nan -> SFcompare X X = Some Eq.
Proof.
  destruct X as [s|s| |s m e]; try congruence; intros _.
  - reflexivity.
  - destruct s; reflexivity.
  - apply SFcompare_refl_finite.
Qed.

Lemma Float64_ordered (M : MathLib) : Ordered (Float64 M).
Proof.
  split; cbn.
  - intros x y. rewrite !leb_spec, ltb_spec. unfold SFleb, SFltb. intros Hx Hy.
    rewrite (SFcompare_swap (Prim2SF x) (Prim2SF y)).
    assert (H : SFcompare (Prim2SF x) (Prim2SF y) <> None).
    { apply SFcompare_reflexive_some.
      - destruct (SFcompare (Prim2SF x) (Prim2SF x)); congruence.
      - destruct (SFcompare (Prim2SF y) (Prim2SF y)); congruence. }
    destruct (SFcompare (Prim2SF x) (Prim2SF y)) as [[| |]|]; simpl; auto; congruence.
  - intros x y. rewrite !leb_spec, ltb_spec. unfold SFleb, SFltb. intros H.
    rewrite !SFcompare_refl; auto;
      destruct (Prim2SF x), (Prim2SF y); simpl in H; congruence.
  - intros x y. rewrite leb_spec, ltb_spec. unfold SFleb, SFltb.
    rewrite (SFcompare_swap (Prim2SF x) (Prim2SF y)).
    destruct (SFcompare (Prim2SF x) (Prim2SF y)) as [[| |]|]; simpl; auto; discriminate.
  - intros x y z. rewrite !ltb_spec. apply SFltb_trans.
  - vm_compute. reflexivity.
Qed.

(** ** The similarity values, one by one *)

Section Terms.

Variable N : NumOps.
Local Open Scope num_scope.

Lemma durationMatch_eq n1 n2 m sr (dur1 dur2 : num N) :
  durationMatch (similarities N n1 n2 m sr dur1 dur2)
  = of_Z N 1 - n_abs N (dur1 - dur2) / n_max N dur1 dur2.
Proof. unfold similarities. destruct (fold_left _ _ _). reflexivity. Qed.

Lemma spectralMatch_eq n1 n2 m sr (dur1 dur2 : num N) :
  spectralMatch (similarities N n1 n2 m sr dur1 dur2)
  = of_Z N 1
    - n_min N (of_Z N 1)
        (n_abs N (calculateSpectralCentroid N n1 sr - calculateSpectralCentroid N n2 sr)
         / n_max N (n_max N (calculateSpectralCentroid N n1 sr)
                            (calculateSpectralCentroid N n2 sr))
                   (of_Z N 1)).
Proof. unfold similarities. destruct (fold_left _ _ _). reflexivity. Qed.

Lemma envelopeMatch_eq n1 n2 m sr (dur1 dur2 : num N) :
  envelopeMatch (similarities N n1 n2 m sr dur1 dur2)
  = (calculateCorrelation N (calculateRMSEnergyCurve N n1 2048)
                            (calculateRMSEnergyCurve N n2 2048)
     + of_Z N 1) / of_Z N 2.
Proof. unfold similarities. destruct (fold_left _ _ _). reflexivity. Qed.

Lemma pitchMatch_eq n1 n2 m sr (dur1 dur2 : num N) :
  pitchMatch (similarities N n1 n2 m sr dur1 dur2)
  = calculatePitchContourMatch N (extractPitchContour N n1 sr) (extractPitchContour N n2 sr).
Proof. unfold similarities. destruct (fold_left _ _ _). reflexivity. Qed.

Lemma energyMatch_eq n1 n2 m sr (dur1 dur2 : num N) :
  energyMatch (similarities N n1 n2 m sr dur1 dur2)
  = (let totals :=
       fold_left
         (fun '(totalEnergy1, totalEnergy2) i =>
            (totalEnergy1 + get N n1 i * get N n1 i,
             totalEnergy2 + get N n2 i * get N n2 i))
         (for_loop 0 m 1) (of_Z N 0, of_Z N 0) in
     let rms1 := n_sqrt N (fst totals / of_nat N m) in
     let rms2 := n_sqrt N (snd totals / of_nat N m) in
     n_min N rms1 rms2 / n_max N (n_max N rms1 rms2) (lit N 1 3)).
Proof. unfold similarities. destruct (fold_left _ _ _). reflexivity. Qed.

Lemma mfccSimilarity_eq n1 n2 m sr (dur1 dur2 : num N) :
  mfccSimilarity (similarities N n1 n2 m sr dur1 dur2)
  = (calculateMFCCSimilarity N (extractMFCCFeatures N n1 sr) (extractMFCCFeatures N n2 sr)
     + of_Z N 1) / of_Z N 2.
Proof. unfold similarities. destruct (fold_left _ _ _). reflexivity. Qed.

End Terms.

(** ** Duration match *)

(** On doubles, [1 - |d - d| / max(d, d)] is the double 1 for every finite
    nonzero [d]. *)
Lemma F64_duration_self (d : float) :
  F64.finite_nonzero d = true ->
  (F64.of_Z 1 - abs (d - d) / F64.max d d)%float = F64.of_Z 1.
Proof.
  unfold F64.finite_nonzero. intros Hd.
  destruct (Prim2SF d) as [| | |s m e] eqn:E; try discriminate.
  assert (Hmax : F64.max d d = d).
  { unfold F64.max. rewrite E, SFcompare_refl_finite. destruct (F64.sign d); reflexivity. }
  rewrite Hmax. apply Prim2SF_inj.
  rewrite sub_spec, div_spec, abs_spec, sub_spec, E.
  unfold SF64sub at 2. cbn [SFsub]. rewrite Z.sub_diag. cbn [binary_normalize SFabs].
  unfold SF64div. cbn [SFdiv].
  change (Prim2SF (F64.of_Z 1)) with (S754_finite false 4503599627370496 (-52)).
  reflexivity.
Qed.

(** C7. For every pair of buffers with the same sample count and the same
    sample rate, the duration-match term [1 - |dur1 - dur2| / max(dur1, dur2)]
    is exactly 1: on doubles for every duration that is a finite nonzero number
    (as [length / sampleRate] of an AudioBuffer is), and in exact arithmetic. *)
Theorem durationMatch_of_equal_shape :
  (forall (M : MathLib) (w : World (Float64 M)) (buffer1 buffer2 : AudioBuffer (Float64 M)),
     length buffer1 = length buffer2 ->
     sampleRate buffer1 = sampleRate buffer2 ->
     F64.finite_nonzero (duration buffer1) = true ->
     durationMatch (compared w buffer1 buffer2) = F64.of_Z 1) /\
  (forall (w : World RealNum) (buffer1 buffer2 : AudioBuffer RealNum),
     length buffer1 = length buffer2 ->
     sampleRate buffer1 = sampleRate buffer2 ->
     duration buffer1 <> 0%R ->
     durationMatch (compared w buffer1 buffer2) = 1%R).
Proof.
  split.
  - intros M w b1 b2 Hlen Hsr Hd. unfold compared. rewrite durationMatch_eq.
    replace (duration b2) with (duration b1) by (unfold duration; rewrite Hlen, Hsr; reflexivity).
    apply F64_duration_self, Hd.
  - intros w b1 b2 Hlen Hsr Hd. unfold compared. rewrite durationMatch_eq.
    replace (duration b2) with (duration b1) by (unfold duration; rewrite Hlen, Hsr; reflexivity).
    cbn. unfold Rminus at 2. rewrite Rplus_opp_r, Rabs_R0. unfold Rdiv.
    rewrite Rmult_0_l. lra.
Qed.

(** ** The timbre extractor *)

Lemma find_seq_first_from (p : nat -> bool) n a b :
  find p (seq a n) = Some b <->
  a <= b < a + n /\ p b = true /\ forallb (fun b' => negb (p b')) (seq a (b - a)) = true.
Proof.
  revert a. induction n as [|n IH]; intros a.
  - simpl. split; [discriminate|]. intros [H _]. lia.
  - cbn [seq find]. destruct (p a) eqn:Pa.
    + split.
      * intros [= <-]. rewrite Nat.sub_diag. repeat split; auto. lia.
      * intros (H1 & H2 & H3). f_equal.
        destruct (Nat.eq_dec a b) as [|Hne]; auto.
        replace (b - a) with (S (b - S a)) in H3 by lia.
        cbn [seq forallb] in H3. rewrite Pa in H3. discriminate.
    + rewrite IH. split.
      * intros (H1 & H2 & H3). split; [lia|]. split; [exact H2|].
        replace (b - a) with (S (b - S a)) by lia.
        cbn [seq forallb]. rewrite Pa. exact H3.
      * intros (H1 & H2 & H3).
        assert (a <> b) by congruence.
        split; [lia|]. split; [exact H2|].
        replace (b - a) with (S (b - S a)) in H3 by lia.
        cbn [seq forallb] in H3. rewrite Pa in H3. exact H3.
Qed.

(** [find] over [0, ..., n-1] returns the first index that satisfies [p]. *)
Lemma find_seq_first (p : nat -> bool) n b :
  find p (seq 0 n) = Some b <->
  b < n /\ p b = true /\ forallb (fun b' => negb (p b')) (seq 0 b) = true.
Proof.
  rewrite find_seq_first_from, Nat.sub_0_r. split; intros (H1 & H2 & H3); repeat split; auto; lia.
Qed.

Section TimbreProperties.

Variable N : NumOps.
Local Open Scope num_scope.

Lemma bandEnergies_length melBands sr (frame : list (num N)) :
  List.length (bandEnergies N melBands sr frame) = 13.
Proof.
  unfold bandEnergies.
  assert (H : forall l (acc : list (num N)),
             List.length
               (fold_left
                  (fun bandEnergies i =>
                     match findBand N melBands (of_nat N i * sr / of_nat N 2048) with
                     | Some b =>
                         update b
                           (fun e => e + n_abs N (get N frame i) * n_abs N (get N frame i))
                           bandEnergies
                     | None => bandEnergies
                     end) l acc)
             = List.length acc).
  { induction l as [|i l IH]; intros acc; simpl; auto.
    rewrite IH. destruct (findBand _ _ _); auto. apply update_length. }
  rewrite H. apply repeat_length.
Qed.

(** One 13-dimensional vector per frame. *)
Lemma extractMFCCFeatures_dimension (audioData : list (num N)) sr :
  Forall (fun f => List.length f = 13) (extractMFCCFeatures N audioData sr).
Proof.
  unfold extractMFCCFeatures. rewrite Forall_forall. intros f Hf.
  apply in_map_iff in Hf. destruct Hf as (pos & <- & _).
  rewrite length_map. apply bandEnergies_length.
Qed.

(** The loop over the bands settles on the band that takes the bin. *)
Lemma findBand_takes (edges : list (num N)) freq b :
  findBand N edges freq = Some b <-> takes edges b freq = true.
Proof.
  unfold findBand, takes. rewrite for_loop_unit. change (13 - 1 - 0)%nat with 12%nat.
  rewrite (find_seq_first
             (fun b => (freq >=? get N edges b) && (freq <? get N edges (b + 1))) 12 b).
  unfold contains. rewrite !andb_true_iff, Nat.ltb_lt. tauto.
Qed.

(** A bin is taken by at most one band. *)
Lemma takes_unique (edges : list (num N)) freq b b' :
  takes edges b freq = true -> takes edges b' freq = true -> b = b'.
Proof.
  intros H H'. apply findBand_takes in H, H'. congruence.
Qed.

(** A bin whose frequency some band contains is taken by a band. *)
Lemma contains_takes (edges : list (num N)) freq b :
  (b < 12)%nat -> contains edges b freq = true -> exists b', takes edges b' freq = true.
Proof.
  intros Hb Hc.
  destruct (findBand N edges freq) as [b'|] eqn:E.
  - exists b'. apply findBand_takes, E.
  - unfold findBand in E. rewrite for_loop_unit in E.
    pose proof (find_none _ _ E b) as Hn. cbv beta in Hn.
    unfold contains in Hc. rewrite Hc in Hn.
    assert (In b (seq 0 (13 - 1 - 0)%nat)) by (apply in_seq; simpl; lia).
    specialize (Hn H). discriminate.
Qed.

(** The accumulators after the bins [l]: each band holds what it held plus
    the squared magnitudes of the bins of [l] it takes. *)
Lemma bandEnergies_fold edges sr (frame : list (num N)) l acc b :
  nth b
    (fold_left
       (fun bandEnergies i =>
          match findBand N edges (of_nat N i * sr / of_nat N 2048) with
          | Some b =>
              update b (fun e => e + n_abs N (get N frame i) * n_abs N (get N frame i))
                     bandEnergies
          | None => bandEnergies
          end) l acc) (of_Z N 0)
  = fold_left
      (fun energy i => energy + n_abs N (get N frame i) * n_abs N (get N frame i))
      (filter (fun i => takes edges b (binFrequency sr i)) l)
      (nth b acc (of_Z N 0)) \/ (List.length acc <= b)%nat.
Proof.
  destruct (Nat.le_gt_cases (List.length acc) b) as [Hge|Hlt]; [right; exact Hge|left].
  revert acc Hlt. induction l as [|i l IH]; intros acc Hlt; [reflexivity|].
  cbn [fold_left filter]. unfold binFrequency at 1.
  destruct (findBand N edges (of_nat N i * sr / of_nat N 2048)) as [b0|] eqn:E.
  - rewrite IH by (rewrite update_length; exact Hlt).
    destruct (Nat.eq_dec b0 b) as [->|Hne].
    + replace (takes edges b _) with true by (symmetry; apply findBand_takes, E).
      cbn [fold_left]. rewrite nth_update_same by exact Hlt. reflexivity.
    + replace (takes edges b _) with false.
      * rewrite nth_update_other by exact Hne. reflexivity.
      * symmetry. destruct (takes edges b _) eqn:T; [|reflexivity].
        apply findBand_takes in T. congruence.
  - rewrite IH by exact Hlt.
    replace (takes edges b _) with false; [reflexivity|].
    symmetry. destruct (takes edges b _) eqn:T; [|reflexivity].
    apply findBand_takes in T. congruence.
Qed.

Lemma bandEnergies_spec edges sr (frame : list (num N)) :
  bandEnergies N edges sr frame = map (spec_bandEnergy edges sr frame) (seq 0 13).
Proof.
  apply nth_ext with (d := of_Z N 0) (d' := of_Z N 0).
  - rewrite bandEnergies_length, length_map, length_seq. reflexivity.
  - intros b Hb. rewrite bandEnergies_length in Hb.
    rewrite (nth_indep (map (spec_bandEnergy edges sr frame) (seq 0 13)) (of_Z N 0)
               (spec_bandEnergy edges sr frame 0))
      by (rewrite length_map, length_seq; exact Hb).
    rewrite map_nth, seq_nth by exact Hb. cbn [plus].
    unfold bandEnergies. rewrite for_loop_unit.
    replace (2048 / 2 - 0)%nat with 1024%nat by (vm_compute; reflexivity).
    destruct (bandEnergies_fold edges sr frame (seq 0 1024)
                (repeat (of_Z N 0) 13) b) as [H|H].
    + rewrite H. unfold spec_bandEnergy. f_equal. apply nth_repeat.
    + rewrite repeat_length in H. lia.
Qed.

(** C8. The timbre extractor cuts one frame of 2048 samples at every
    multiple of the hop 512 below [length - 2048] and produces, for each, one
    vector of 13 log band energies; the energy of a band is the sum, over the
    bins [i] in [0, 1024), of the squared magnitude of the time-domain sample
    at position [i] of the frame, taken over the bins whose synthetic
    frequency [i * sampleRate / 2048] the band's edge interval contains (the
    lowest such band, should two contain it); a bin whose frequency a band
    contains contributes to exactly one band. *)
Theorem extractMFCCFeatures_band_energies (audioData : list (num N)) (sampleRate : num N) :
  extractMFCCFeatures N audioData sampleRate
  = map (fun k => spec_frameFeatures audioData sampleRate (k * 512)%nat)
        (seq 0 (frameCount (List.length audioData))) /\
  Forall (fun vector => List.length vector = 13)
         (extractMFCCFeatures N audioData sampleRate) /\
  (forall b freq,
     takes (melBands N sampleRate) b freq = true ->
     (b < 12)%nat /\ contains (melBands N sampleRate) b freq = true) /\
  (forall b freq,
     (b < 12)%nat -> contains (melBands N sampleRate) b freq = true ->
     exists b', takes (melBands N sampleRate) b' freq = true /\
                forall b'', takes (melBands N sampleRate) b'' freq = true -> b'' = b').
Proof.
  split; [|split; [|split]].
  - unfold extractMFCCFeatures, frameCount.
    rewrite for_loop_strided by lia. rewrite map_map.
    apply map_ext. intros k. unfold spec_frameFeatures.
    rewrite bandEnergies_spec, map_map. reflexivity.
  - apply extractMFCCFeatures_dimension.
  - intros b freq H. unfold takes in H. rewrite !andb_true_iff, Nat.ltb_lt in H. tauto.
  - intros b freq Hb Hc. destruct (contains_takes _ _ Hb Hc) as [b' Hb'].
    exists b'. split; [exact Hb'|]. intros b'' H. eapply takes_unique; eassumption.
Qed.

End TimbreProperties.

(** ** Symmetry of the similarity values *)

Lemma fold_left_morph {A B I} (phi : A -> B) (f : A -> I -> A) (g : B -> I -> B) l a :
  (forall a i, In i l -> phi (f a i) = g (phi a) i) ->
  phi (fold_left f l a) = fold_left g l (phi a).
Proof.
  revert a. induction l as [|i l IH]; intros a H; simpl; auto.
  rewrite IH by (intros; apply H; right; assumption).
  rewrite H by (left; reflexivity). reflexivity.
Qed.

Lemma fold_left_ext_in {A I} (f g : A -> I -> A) l a :
  (forall a i, In i l -> f a i = g a i) -> fold_left f l a = fold_left g l a.
Proof.
  intros H. apply (fold_left_morph (fun x => x)). exact H.
Qed.

Section Symmetry.

Variable N : NumOps.
Hypothesis Comm : Commutative N.
Local Open Scope num_scope.

Lemma cosineSimilarity_sym (f1 f2 : list (num N)) :
  List.length f1 = List.length f2 ->
  cosineSimilarity N f1 f2 = cosineSimilarity N f2 f1.
Proof.
  intros Hlen. unfold cosineSimilarity. rewrite <- Hlen.
  pose proof (fold_left_morph (fun '(d, m1, m2) => (d, m2, m1))
                (fun '(dotProduct, mag1, mag2) j =>
                   (dotProduct + get N f1 j * get N f2 j,
                    mag1 + get N f1 j * get N f1 j,
                    mag2 + get N f2 j * get N f2 j))
                (fun '(dotProduct, mag1, mag2) j =>
                   (dotProduct + get N f2 j * get N f1 j,
                    mag1 + get N f2 j * get N f2 j,
                    mag2 + get N f1 j * get N f1 j))
                (for_loop 0 (List.length f1) 1) (of_Z N 0, of_Z N 0, of_Z N 0)) as E.
  cbv beta iota in E. rewrite <- E.
  - destruct (fold_left _ _ _) as [[d m1] m2].
    rewrite (mul_commutative Comm m2 m1). reflexivity.
  - intros [[d m1] m2] j _. rewrite (mul_commutative Comm (get N f1 j) (get N f2 j)).
    reflexivity.
Qed.

Lemma aligned_index i len minLen : i < minLen -> minLen <= len -> i * len / minLen < len.
Proof.
  intros Hi Hm. apply Nat.Div0.div_lt_upper_bound. nia.
Qed.

Lemma calculateMFCCSimilarity_sym (features1 features2 : list (list (num N))) n :
  Forall (fun f => List.length f = n) features1 ->
  Forall (fun f => List.length f = n) features2 ->
  calculateMFCCSimilarity N features1 features2
  = calculateMFCCSimilarity N features2 features1.
Proof.
  intros F1 F2. unfold calculateMFCCSimilarity.
  rewrite (orb_comm (List.length features2 =? 0)%nat).
  destruct (_ || _) eqn:E; [reflexivity|].
  apply orb_false_iff in E. destruct E as [E1 E2].
  apply Nat.eqb_neq in E1, E2.
  rewrite (Nat.min_comm (List.length features2)).
  f_equal. apply fold_left_ext_in. intros a i Hi.
  rewrite for_loop_unit in Hi. apply in_seq in Hi. f_equal.
  apply cosineSimilarity_sym.
  rewrite Forall_forall in F1, F2.
  rewrite (F1 (nth _ features1 [])), (F2 (nth _ features2 [])); auto;
    apply nth_In; apply aligned_index; lia.
Qed.

Lemma calculatePitchContourMatch_sym (contour1 contour2 : list (num N)) :
  calculatePitchContourMatch N contour1 contour2
  = calculatePitchContourMatch N contour2 contour1.
Proof.
  unfold calculatePitchContourMatch.
  rewrite (orb_comm (List.length contour2 =? 0)%nat).
  destruct (_ || _); [reflexivity|].
  rewrite (Nat.min_comm (List.length contour2)).
  match goal with
  | |- (let '(_, _) := fold_left ?f ?l ?a in _) = (let '(_, _) := fold_left ?g ?l ?a in _) =>
      replace (fold_left g l a) with (fold_left f l a); [reflexivity|]
  end.
  apply fold_left_ext_in. intros [totalDiff validFrames] i _.
  set (p1 := get N contour1 _). set (p2 := get N contour2 _).
  rewrite (andb_comm (p2 =? _)).
  destruct (_ && _); [reflexivity|].
  replace (Bool.eqb (p2 =? of_Z N 0) (p1 =? of_Z N 0))
    with (Bool.eqb (p1 =? of_Z N 0) (p2 =? of_Z N 0))
    by (destruct (p1 =? _), (p2 =? _); reflexivity).
  destruct (negb _); [reflexivity|].
  rewrite (abs_sub_commutative Comm p2 p1), (max_commutative Comm p2 p1). reflexivity.
Qed.

Lemma correlationSums_sym (arr1 arr2 : list (num N)) len :
  correlationSums N arr2 arr1 len
  = (let '(sum1, sum2, sum1Sq, sum2Sq, pSum) := correlationSums N arr1 arr2 len in
     (sum2, sum1, sum2Sq, sum1Sq, pSum)).
Proof.
  unfold correlationSums. symmetry.
  apply (fold_left_morph
           (fun '(sum1, sum2, sum1Sq, sum2Sq, pSum) => (sum2, sum1, sum2Sq, sum1Sq, pSum))
           _ _ _ (of_Z N 0, of_Z N 0, of_Z N 0, of_Z N 0, of_Z N 0)).
  intros [[[[s1 s2] q1] q2] p] i _.
  rewrite (mul_commutative Comm (get N arr1 i) (get N arr2 i)). reflexivity.
Qed.

Lemma calculateCorrelation_sym (arr1 arr2 : list (num N)) :
  calculateCorrelation N arr1 arr2 = calculateCorrelation N arr2 arr1.
Proof.
  unfold calculateCorrelation. rewrite (Nat.min_comm (List.length arr2)).
  destruct (_ =? 0)%nat; [reflexivity|].
  rewrite (correlationSums_sym arr1 arr2).
  destruct (correlationSums N arr1 arr2 _) as [[[[s1 s2] q1] q2] p].
  rewrite (mul_commutative Comm s2 s1).
  rewrite (mul_commutative Comm (q2 - _) (q1 - _)). reflexivity.
Qed.

(** With one sample rate for both, the similarity values do not depend on
    which array is the reference. *)
Lemma similarities_sym (n1 n2 : list (num N)) m sr dur1 dur2 :
  similarities N n1 n2 m sr dur1 dur2 = similarities N n2 n1 m sr dur2 dur1.
Proof.
  unfold similarities.
  rewrite (calculateMFCCSimilarity_sym
             (extractMFCCFeatures_dimension N n1 sr) (extractMFCCFeatures_dimension N n2 sr)).
  rewrite (calculatePitchContourMatch_sym (extractPitchContour N n1 sr)).
  rewrite (calculateCorrelation_sym (calculateRMSEnergyCurve N n1 2048)).
  rewrite (abs_sub_commutative Comm (calculateSpectralCentroid N n1 sr)).
  rewrite (max_commutative Comm (calculateSpectralCentroid N n1 sr)).
  rewrite (abs_sub_commutative Comm dur1), (max_commutative Comm dur1).
  pose proof (fold_left_morph (fun '(a, b) => (b, a))
                (fun '(totalEnergy1, totalEnergy2) i =>
                   (totalEnergy1 + get N n1 i * get N n1 i,
                    totalEnergy2 + get N n2 i * get N n2 i))
                (fun '(totalEnergy1, totalEnergy2) i =>
                   (totalEnergy1 + get N n2 i * get N n2 i,
                    totalEnergy2 + get N n1 i * get N n1 i))
                (for_loop 0 m 1) (of_Z N 0, of_Z N 0)) as E.
  cbv beta iota in E. rewrite <- E by (intros [a b] i _; reflexivity).
  destruct (fold_left _ _ _) as [t1 t2].
  rewrite (min_commutative Comm (n_sqrt N (t2 / _))).
  rewrite (max_commutative Comm (n_sqrt N (t2 / _))). reflexivity.
Qed.

(** The similarity values of two buffers with one sample rate, in either order. *)
Lemma compared_sym (w : World N) (b1 b2 : AudioBuffer N) :
  sampleRate b1 = sampleRate b2 -> compared w b1 b2 = compared w b2 b1.
Proof.
  intros Hsr. unfold compared. rewrite Hsr.
  rewrite (Nat.min_comm (List.length (samples w b2 0))).
  apply similarities_sym.
Qed.

End Symmetry.

(** ** Arrays too short for a frame *)

Section ShortArrays.

Variable N : NumOps.
Local Open Scope num_scope.

Lemma for_loop_empty start stop step : (stop <= start)%nat -> for_loop start stop step = [].
Proof.
  intros H. unfold for_loop. replace (stop - start)%nat with 0%nat by lia. reflexivity.
Qed.

(** No frame is cut from an array of at most 2048 samples. *)
Lemma extractMFCCFeatures_short (audioData : list (num N)) sr :
  (List.length audioData <= 2048)%nat -> extractMFCCFeatures N audioData sr = [].
Proof.
  intros H. unfold extractMFCCFeatures. cbv zeta.
  assert (X : (List.length audioData - 2048 <= 0)%nat) by lia.
  rewrite (@for_loop_empty 0 (List.length audioData - 2048) 512) by exact X. reflexivity.
Qed.

Lemma extractPitchContour_short (audioData : list (num N)) sr :
  (List.length audioData <= 2048)%nat -> extractPitchContour N audioData sr = [].
Proof.
  intros H. unfold extractPitchContour. cbv zeta.
  assert (X : (List.length audioData - 2048 <= 0)%nat) by lia.
  rewrite (@for_loop_empty 0 (List.length audioData - 2048) 512) by exact X. reflexivity.
Qed.

Lemma calculateRMSEnergyCurve_short (audioData : list (num N)) :
  (List.length audioData <= 2048)%nat -> calculateRMSEnergyCurve N audioData 2048 = [].
Proof.
  intros H. unfold calculateRMSEnergyCurve. cbv zeta.
  assert (X : (List.length audioData - 2048 <= 0)%nat) by lia.
  rewrite (@for_loop_empty 0 (List.length audioData - 2048) (2048 / 2)) by exact X.
  reflexivity.
Qed.

Lemma calculateSpectralCentroid_short (audioData : list (num N)) sr :
  (List.length audioData < 2048)%nat -> calculateSpectralCentroid N audioData sr = of_Z N 0.
Proof.
  intros H. unfold calculateSpectralCentroid. cbv zeta.
  rewrite Nat.div_small by exact H. reflexivity.
Qed.

(** With no frames, the timbre, pitch and envelope values are the neutral
    ones of the code. *)
Lemma mfccSimilarity_short n1 n2 m sr (dur1 dur2 : num N) :
  (List.length n1 <= 2048)%nat ->
  mfccSimilarity (similarities N n1 n2 m sr dur1 dur2) = (of_Z N 0 + of_Z N 1) / of_Z N 2.
Proof.
  intros H. rewrite mfccSimilarity_eq, extractMFCCFeatures_short by exact H. reflexivity.
Qed.

Lemma pitchMatch_short n1 n2 m sr (dur1 dur2 : num N) :
  (List.length n1 <= 2048)%nat ->
  pitchMatch (similarities N n1 n2 m sr dur1 dur2) = lit N 5 1.
Proof.
  intros H. rewrite pitchMatch_eq, extractPitchContour_short by exact H. reflexivity.
Qed.

Lemma envelopeMatch_short n1 n2 m sr (dur1 dur2 : num N) :
  (List.length n1 <= 2048)%nat ->
  envelopeMatch (similarities N n1 n2 m sr dur1 dur2) = (of_Z N 0 + of_Z N 1) / of_Z N 2.
Proof.
  intros H. rewrite envelopeMatch_eq, calculateRMSEnergyCurve_short by exact H. reflexivity.
Qed.

End ShortArrays.
(** ** Exact arithmetic *)

Lemma Rltb_true (x y : R) : (x < y)%R -> Rltb x y = true.
Proof. intros H. unfold Rltb. destruct (Rlt_dec x y); [reflexivity|contradiction]. Qed.

Lemma Rltb_false (x y : R) : (y <= x)%R -> Rltb x y = false.
Proof. intros H. unfold Rltb. destruct (Rlt_dec x y); [lra|reflexivity]. Qed.





(** [Math.round]: the integer [z] with [z <= x + 1/2 < z + 1]. *)
Lemma Rround_eq (z : Z) (x : R) : (IZR z <= x + / 2 < IZR z + 1)%R -> Rround x = IZR z.
Proof.
  intros [H1 H2]. unfold Rround. f_equal. apply Zfloor_eq. split; assumption.
Qed.


Local Open Scope R_scope.


Lemma real_adjustedScore_upper raw :
  7 / 10 < raw ->
  adjustedScore RealNum raw = Rmin 100 (50 + (raw - 7 / 10) * (16667 / 100)).
Proof.
  intros H. unfold adjustedScore. cbn - [IZR Rltb]. 
  rewrite Rltb_true by (cbn; lra).
  apply Rmax_right. apply Rmin_glb; nra.
Qed.

Lemma real_adjustedScore_middle raw :
  4 / 10 < raw <= 7 / 10 ->
  adjustedScore RealNum raw = 20 + (raw - 4 / 10) * 100.
Proof.
  intros H. unfold adjustedScore. cbn - [IZR Rltb].
  rewrite Rltb_false by (cbn; lra). rewrite Rltb_true by (cbn; lra).
  rewrite Rmin_right by lra. apply Rmax_right. lra.
Qed.

Lemma real_adjustedScore_lower raw :
  0 <= raw <= 4 / 10 ->
  adjustedScore RealNum raw = raw * 50.
Proof.
  intros H. unfold adjustedScore. cbn - [IZR Rltb].
  rewrite !Rltb_false by (cbn; lra).
  rewrite Rmin_right by lra. apply Rmax_right. lra.
Qed.

Lemma zero_div (x : R) : 0 / x = 0.
Proof. unfold Rdiv. apply Rmult_0_l. Qed.

Local Close Scope R_scope.

(** ** Fusion *)

Section FusionProperties.

Variable N : NumOps.
Hypothesis Ord : Ordered N.
Hypothesis Comm : Commutative N.
Local Open Scope num_scope.

Lemma spec_rawScore_eq (s : Similarity N) : spec_rawScore s = rawScore s.
Proof.
  unfold spec_rawScore, rawScore.
  rewrite !(mul_commutative Comm (lit N _ 2)). reflexivity.
Qed.

(** Whichever branch of the specification applies is the branch the code takes. *)
Lemma spec_remap_adjustedScore (raw adjusted : num N) :
  spec_remap N (lit N 16667 2) raw adjusted ->
  adjustedScore N raw = spec_clamp N adjusted.
Proof.
  unfold spec_remap, adjustedScore, spec_clamp.
  intros [[H1 ->]|[(H1 & H2 & ->)|[H1 ->]]].
  - rewrite H1. reflexivity.
  - rewrite (le_not_gt Ord _ _ H2), H1. reflexivity.
  - assert (H4 : lit N 4 1 <? raw = false) by (apply (le_not_gt Ord), H1).
    assert (H7 : lit N 7 1 <? raw = false).
    { destruct (lit N 7 1 <? raw) eqn:E; [|reflexivity].
      rewrite (lt_transitive Ord _ _ _ (thresholds_ordered Ord) E) in H4. discriminate. }
    rewrite H7, H4. reflexivity.
Qed.

(** A raw score that is a number falls under one of the three branches. *)
Lemma spec_remap_total (slope raw : num N) :
  n_le N raw raw = true -> exists adjusted, spec_remap N slope raw adjusted.
Proof.
  intros Hr. destruct (lt_numbers Ord _ _ (thresholds_ordered Ord)) as [H4 H7].
  unfold spec_remap.
  destruct (le_or_gt Ord raw (lit N 4 1) Hr H4) as [L4|G4].
  - eexists. right. right. split; [exact L4|reflexivity].
  - destruct (le_or_gt Ord raw (lit N 7 1) Hr H7) as [L7|G7].
    + eexists. right. left. split; [exact G4|]. split; [exact L7|reflexivity].
    + eexists. left. split; [exact G7|reflexivity].
Qed.

(** C1, as amended.  For every pair of present buffers (each a well-formed
    AudioBuffer with a first channel) the comparison computes the raw score
    as the weighted sum 0.35 timbre + 0.25 pitch + 0.15 envelope
    + 0.10 centroid + 0.10 energy + 0.05 duration of the six similarity
    values, applies the three-branch remap (raw > 0.7: 50 + (raw - 0.7) * 166.67;
    0.4 < raw <= 0.7: 20 + (raw - 0.4) * 100; raw <= 0.4: raw * 50), clamps to
    the range 0 to 100 and reports the nearest integer; and whenever the raw
    score is a number, one of the three branches applies.  The factor of the
    upper branch is 166.67. *)
Theorem compareAudio_fuses_with_slope_166_67 (w : World N) (buffer1 buffer2 : AudioBuffer N) :
  well_formed w buffer1 -> well_formed w buffer2 ->
  numberOfChannels buffer1 <> 0 -> numberOfChannels buffer2 <> 0 ->
  (forall score,
     spec_score (lit N 16667 2) (compared w buffer1 buffer2) score ->
     delivers (comparing (Some buffer1) (Some buffer2)) w score) /\
  (n_le N (spec_rawScore (compared w buffer1 buffer2))
          (spec_rawScore (compared w buffer1 buffer2)) = true ->
   exists score, spec_score (lit N 16667 2) (compared w buffer1 buffer2) score).
Proof.
  intros W1 W2 C1 C2. split.
  - intros score (adjusted & Hremap & ->).
    rewrite spec_rawScore_eq in Hremap.
    rewrite <- (spec_remap_adjustedScore Hremap).
    apply (compareAudio_present W1 W2 C1 C2).
  - intros Hnum. destruct (spec_remap_total (lit N 16667 2) _ Hnum) as [adjusted H].
    exists (n_round N (spec_clamp N adjusted)), adjusted. split; [exact H|reflexivity].
Qed.

(** C4, as amended.  The comparison is symmetric in its two inputs when they
    have the same sample rate: the score of comparing A against B is the
    score of comparing B against A.  (The extractors run both waveforms at
    the sample rate of the reference.) *)
Theorem compareAudio_symmetric_at_one_rate (w : World N) (bufferA bufferB : AudioBuffer N) :
  well_formed w bufferA -> well_formed w bufferB ->
  numberOfChannels bufferA <> 0 -> numberOfChannels bufferB <> 0 ->
  sampleRate bufferA = sampleRate bufferB ->
  exists score,
    delivers (comparing (Some bufferA) (Some bufferB)) w score /\
    delivers (comparing (Some bufferB) (Some bufferA)) w score.
Proof.
  intros WA WB CA CB Hsr.
  exists (roundedScore (compared w bufferA bufferB)). split.
  - apply (compareAudio_present WA WB CA CB).
  - rewrite (compared_sym Comm w _ _ Hsr).
    apply (compareAudio_present WB WA CB CA).
Qed.

End FusionProperties.

(** ** A constant envelope on doubles *)

Lemma F64_mul_nan_l (y : float) : (nan * y)%float = nan.
Proof.
  apply Prim2SF_inj. rewrite mul_spec.
  change (Prim2SF nan) with S754_nan. reflexivity.
Qed.

Lemma F64_add_nan_r (x : float) : (x + nan)%float = nan.
Proof.
  apply Prim2SF_inj. rewrite add_spec.
  change (Prim2SF nan) with S754_nan. destruct (Prim2SF x); reflexivity.
Qed.

Lemma F64_add_nan_l (y : float) : (nan + y)%float = nan.
Proof.
  apply Prim2SF_inj. rewrite add_spec.
  change (Prim2SF nan) with S754_nan. reflexivity.
Qed.

(** A NaN envelope term makes the raw score NaN, whatever the other terms. *)
Lemma rawScore_nan_envelope (M : MathLib) (s : Similarity (Float64 M)) :
  envelopeMatch s = nan -> rawScore s = nan.
Proof.
  intros H. unfold rawScore. rewrite H. cbn [n_add n_mul Float64].
  rewrite F64_mul_nan_l, F64_add_nan_r, !F64_add_nan_l. reflexivity.
Qed.

Lemma flat_candidate_envelope (M : MathLib) :
  calculateRMSEnergyCurve (Float64 M) flat_candidate 2048
  = repeat 0.12300000339746692%float 3.
Proof. vm_compute. reflexivity. Qed.

Lemma flat_correlation (M : MathLib) :
  calculateCorrelation (Float64 M)
    (calculateRMSEnergyCurve (Float64 M) stepped_reference 2048)
    (calculateRMSEnergyCurve (Float64 M) flat_candidate 2048)
  = nan.
Proof. vm_compute. reflexivity. Qed.

Lemma flat_reference_well_formed (M : MathLib) :
  well_formed (flat_world M) (mono (Float64 M) (F64.of_Z 48000) 4097 0).
Proof.
  constructor; [|constructor]. split; [vm_compute; lia|]. vm_compute. reflexivity.
Qed.

Lemma flat_candidate_well_formed (M : MathLib) :
  well_formed (flat_world M) (mono (Float64 M) (F64.of_Z 48000) 4097 1).
Proof.
  constructor; [|constructor]. split; [vm_compute; lia|]. vm_compute. reflexivity.
Qed.

Lemma flat_envelopeMatch (M : MathLib) :
  envelopeMatch
    (compared (flat_world M)
       (mono (Float64 M) (F64.of_Z 48000) 4097 0) (mono (Float64 M) (F64.of_Z 48000) 4097 1))
  = nan.
Proof.
  unfold compared. rewrite envelopeMatch_eq.
  change (samples (flat_world M) (mono (Float64 M) (F64.of_Z 48000) 4097 0) 0)
    with stepped_reference.
  change (samples (flat_world M) (mono (Float64 M) (F64.of_Z 48000) 4097 1) 0)
    with flat_candidate.
  replace (Nat.min (List.length stepped_reference) (List.length flat_candidate))
    with 4097 by (vm_compute; reflexivity).
  rewrite !firstn_all2 by (vm_compute; lia).
  rewrite flat_correlation. vm_compute. reflexivity.
Qed.

Lemma flat_roundedScore (M : MathLib) :
  roundedScore
    (compared (flat_world M)
       (mono (Float64 M) (F64.of_Z 48000) 4097 0) (mono (Float64 M) (F64.of_Z 48000) 4097 1))
  = nan.
Proof.
  unfold roundedScore. rewrite (rawScore_nan_envelope _ (flat_envelopeMatch M)).
  vm_compute. reflexivity.
Qed.

(** C6 fails on doubles.  The candidate's envelope has the same value in
    every window, so its variance is zero; but the variance term the code
    computes, [sum1Sq - sum1 * sum1 / len], rounds to a negative number, the
    denominator is the square root of a negative product, and the guard
    [den === 0] does not catch it: the correlation is NaN, and NaN is the
    score the comparison hands to the callback, on any host. *)
Theorem constant_envelope_delivers_NaN (M : MathLib) :
  calculateRMSEnergyCurve (Float64 M)
    (samples (flat_world M) (mono (Float64 M) (F64.of_Z 48000) 4097 1) 0) 2048
  = repeat 0.12300000339746692%float 3 /\
  envelopeMatch
    (compared (flat_world M)
       (mono (Float64 M) (F64.of_Z 48000) 4097 0) (mono (Float64 M) (F64.of_Z 48000) 4097 1))
  = nan /\
  delivers (flat_pair M) (flat_world M) nan.
Proof.
  split; [apply flat_candidate_envelope|]. split; [apply flat_envelopeMatch|].
  rewrite <- (flat_roundedScore M).
  apply (@compareAudio_present (Float64 M) (flat_world M)
           (mono (Float64 M) (F64.of_Z 48000) 4097 0)
           (mono (Float64 M) (F64.of_Z 48000) 4097 1)
           (flat_reference_well_formed M) (flat_candidate_well_formed M));
    discriminate.
Qed.
(** ** Comparisons worked out *)

Lemma pop_well_formed (N : NumOps) : well_formed (pop_world N) (pop N).
Proof. constructor; [|constructor]. split; [cbn; lia|reflexivity]. Qed.

Lemma pop_again_well_formed (N : NumOps) : well_formed (pop_world N) (pop_again N).
Proof. constructor; [|constructor]. split; [cbn; lia|reflexivity]. Qed.

Lemma hush_well_formed (N : NumOps) : well_formed (pop_world N) (hush N).
Proof. constructor; [|constructor]. split; [cbn; lia|reflexivity]. Qed.

Lemma tick_8k_well_formed (N : NumOps) : well_formed (rates_world N) (tick_8k N).
Proof. constructor; [|constructor]. split; [cbn; lia|]. vm_compute. reflexivity. Qed.

Lemma rest_48k_well_formed (N : NumOps) : well_formed (rates_world N) (rest_48k N).
Proof. constructor; [|constructor]. split; [cbn; lia|]. vm_compute. reflexivity. Qed.

(** Two doubles with different bits are different numbers. *)
Lemma F64_of_Z_distinct (a b : Z) :
  Prim2SF (F64.of_Z a) <> Prim2SF (F64.of_Z b) -> F64.of_Z a <> F64.of_Z b.
Proof. intros H E. apply H. rewrite E. reflexivity. Qed.

(** The two pops, on doubles: every value but the timbre, pitch and envelope
    ones is 1, and those are the neutral 0.5. *)
Lemma pops_on_doubles (M : MathLib) :
  roundedScore (compared (pop_world (Float64 M)) (pop (Float64 M)) (pop_again (Float64 M)))
  = F64.of_Z 43.
Proof. vm_compute. reflexivity. Qed.

Lemma pops_in_exact_arithmetic :
  rawScore (compared (pop_world RealNum) (pop RealNum) (pop_again RealNum)) = (5 / 8)%R.
Proof.
  unfold compared, samples.
  cbn [pop_world pop pop_again mono world_of channelData nth_error heap nth
       List.length Nat.min firstn sampleRate duration length].
  unfold rawScore.
  rewrite mfccSimilarity_short, pitchMatch_short, envelopeMatch_short by (cbn; lia).
  rewrite spectralMatch_eq, energyMatch_eq, durationMatch_eq.
  rewrite !calculateSpectralCentroid_short by (cbn; lia).
  cbv - [Rplus Rminus Rmult Rdiv Rinv Ropp IZR Rabs sqrt Rmax Rmin].
  replace ((0 + 1 * 1) / 1)%R with 1%R by lra. rewrite sqrt_1.
  replace (0 - 0)%R with 0%R by lra. replace (1 / 48000 - 1 / 48000)%R with 0%R by lra.
  rewrite Rabs_R0, !zero_div.
  rewrite (Rmin_right 1 0) by lra. rewrite (Rmin_left 1 1) by lra.
  rewrite (Rmax_left 1 1) by lra. rewrite (Rmax_left 1 (1 / 1000)) by lra.
  lra.
Qed.

(** The pop against the silence, on doubles and in exact arithmetic. *)
Lemma pop_and_hush_on_doubles (M : MathLib) :
  energyMatch (compared (pop_world (Float64 M)) (pop (Float64 M)) (hush (Float64 M)))
  = F64.of_Z 0 /\
  roundedScore (compared (pop_world (Float64 M)) (pop (Float64 M)) (hush (Float64 M)))
  = F64.of_Z 33.
Proof. split; vm_compute; reflexivity. Qed.

Lemma pop_and_hush_in_exact_arithmetic :
  rawScore (compared (pop_world RealNum) (pop RealNum) (hush RealNum)) = (21 / 40)%R.
Proof.
  unfold compared, samples.
  cbn [pop_world pop hush mono world_of channelData nth_error heap nth
       List.length Nat.min firstn sampleRate duration length].
  unfold rawScore.
  rewrite mfccSimilarity_short, pitchMatch_short, envelopeMatch_short by (cbn; lia).
  rewrite spectralMatch_eq, energyMatch_eq, durationMatch_eq.
  rewrite !calculateSpectralCentroid_short by (cbn; lia).
  cbv - [Rplus Rminus Rmult Rdiv Rinv Ropp IZR Rabs sqrt Rmax Rmin].
  replace ((0 + 1 * 1) / 1)%R with 1%R by lra. rewrite sqrt_1.
  replace ((0 + 0 * 0) / 1)%R with 0%R by lra. rewrite sqrt_0.
  replace (0 - 0)%R with 0%R by lra. replace (1 / 48000 - 1 / 48000)%R with 0%R by lra.
  rewrite Rabs_R0, !zero_div.
  rewrite (Rmin_right 1 0) by lra.
  lra.
Qed.

(** The tick at 8 kHz and the silence at 48 kHz, on doubles, in the two
    orders: the centroid of the tick is 0.43 Hz at the rate of the tick and
    2.6 Hz at the rate of the silence, and the centroid match divides by
    [max(centroid1, centroid2, 1)]. *)
Lemma tick_then_rest_on_doubles (M : MathLib) :
  roundedScore (compared (rates_world (Float64 M)) (tick_8k (Float64 M)) (rest_48k (Float64 M)))
  = F64.of_Z 24.
Proof. vm_compute. reflexivity. Qed.

Lemma rest_then_tick_on_doubles (M : MathLib) :
  roundedScore (compared (rates_world (Float64 M)) (rest_48k (Float64 M)) (tick_8k (Float64 M)))
  = F64.of_Z 19.
Proof. vm_compute. reflexivity. Qed.

(** C3, counterexample.  A reference and a candidate of one sample each, the
    same sample and the same rate: the raw score is 0.625 and the comparison
    reports 43, not 100; on doubles, whatever the host's [Math.log],
    [Math.log10] and [Math.pow] return, and in exact arithmetic.  Arrays of
    at most 2048 samples give no frame, and the timbre, pitch and envelope
    values are then the neutral 0.5. *)
Lemma identical_pops_score_43 :
  (forall M : MathLib,
     delivers (comparing (Some (pop (Float64 M))) (Some (pop_again (Float64 M))))
              (pop_world (Float64 M)) (F64.of_Z 43) /\
     ~ delivers (comparing (Some (pop (Float64 M))) (Some (pop_again (Float64 M))))
                (pop_world (Float64 M)) (F64.of_Z 100)) /\
  samples (pop_world RealNum) (pop RealNum) 0 = samples (pop_world RealNum) (pop_again RealNum) 0 /\
  rawScore (compared (pop_world RealNum) (pop RealNum) (pop_again RealNum)) = (5 / 8)%R /\
  delivers (comparing (Some (pop RealNum)) (Some (pop_again RealNum)))
           (pop_world RealNum) 43%R /\
  ~ delivers (comparing (Some (pop RealNum)) (Some (pop_again RealNum)))
             (pop_world RealNum) 100%R.
Proof.
  assert (F : forall M : MathLib,
             delivers (comparing (Some (pop (Float64 M))) (Some (pop_again (Float64 M))))
                      (pop_world (Float64 M)) (F64.of_Z 43)).
  { intros M. rewrite <- (pops_on_doubles M).
    apply compareAudio_present;
      [apply pop_well_formed|apply pop_again_well_formed|discriminate|discriminate]. }
  assert (R : delivers (comparing (Some (pop RealNum)) (Some (pop_again RealNum)))
                       (pop_world RealNum) 43%R).
  { replace 43%R
      with (roundedScore (compared (pop_world RealNum) (pop RealNum) (pop_again RealNum))).
    - apply compareAudio_present;
        [apply pop_well_formed|apply pop_again_well_formed|discriminate|discriminate].
    - unfold roundedScore. rewrite pops_in_exact_arithmetic.
      rewrite real_adjustedScore_middle by lra. apply Rround_eq. lra. }
  split; [|split; [reflexivity|split; [exact pops_in_exact_arithmetic|split; [exact R|]]]].
  - intros M. split; [exact (F M)|]. intros H.
    apply (@F64_of_Z_distinct 43 100); [vm_compute; discriminate|].
    exact (delivers_unique (F M) H).
  - intros H. assert (E := delivers_unique R H). lra.
Qed.

(** C5, counterexample.  A reference of one sample of amplitude 1 and a
    candidate of one sample of silence: the energy match is 0 and the
    comparison reports 33, which is not below 20; on doubles, whatever the
    host's mathematical functions return, and in exact arithmetic. *)
Lemma pop_against_silence_score_33 :
  (forall M : MathLib,
     energyMatch (compared (pop_world (Float64 M)) (pop (Float64 M)) (hush (Float64 M)))
     = F64.of_Z 0 /\
     delivers (comparing (Some (pop (Float64 M))) (Some (hush (Float64 M))))
              (pop_world (Float64 M)) (F64.of_Z 33) /\
     PrimFloat.ltb (F64.of_Z 33) (F64.of_Z 20) = false) /\
  samples (pop_world RealNum) (hush RealNum) 0 = [0%R] /\
  samples (pop_world RealNum) (pop RealNum) 0 = [1%R] /\
  delivers (comparing (Some (pop RealNum)) (Some (hush RealNum))) (pop_world RealNum) 33%R /\
  ~ (33 < 20)%R.
Proof.
  split; [|split; [reflexivity|split; [reflexivity|split; [|lra]]]].
  - intros M. split; [exact (proj1 (pop_and_hush_on_doubles M))|].
    split; [|vm_compute; reflexivity].
    rewrite <- (proj2 (pop_and_hush_on_doubles M)).
    apply compareAudio_present;
      [apply pop_well_formed|apply hush_well_formed|discriminate|discriminate].
  - replace 33%R
      with (roundedScore (compared (pop_world RealNum) (pop RealNum) (hush RealNum))).
    + apply compareAudio_present;
        [apply pop_well_formed|apply hush_well_formed|discriminate|discriminate].
    + unfold roundedScore. rewrite pop_and_hush_in_exact_arithmetic.
      rewrite real_adjustedScore_middle by lra. apply Rround_eq. lra.
Qed.

(** C4, counterexample.  A tick of 2048 samples held at 8 kHz and 2048
    samples of silence held at 48 kHz: with the tick as the reference the
    comparison reports 24, with the silence as the reference it reports 19;
    on doubles, whatever the host's mathematical functions return.  The
    extractors run both waveforms at the sample rate of the reference. *)
Lemma tick_and_rest_scores_differ :
  (forall M : MathLib,
     delivers (comparing (Some (tick_8k (Float64 M))) (Some (rest_48k (Float64 M))))
              (rates_world (Float64 M)) (F64.of_Z 24)) /\
  (forall M : MathLib,
     delivers (comparing (Some (rest_48k (Float64 M))) (Some (tick_8k (Float64 M))))
              (rates_world (Float64 M)) (F64.of_Z 19)) /\
  (forall M : MathLib,
     ~ delivers (comparing (Some (rest_48k (Float64 M))) (Some (tick_8k (Float64 M))))
                (rates_world (Float64 M)) (F64.of_Z 24)).
Proof.
  assert (F : forall M : MathLib,
     delivers (comparing (Some (rest_48k (Float64 M))) (Some (tick_8k (Float64 M))))
              (rates_world (Float64 M)) (F64.of_Z 19)).
  { intros M. rewrite <- (rest_then_tick_on_doubles M).
    apply compareAudio_present;
      [apply rest_48k_well_formed|apply tick_8k_well_formed|discriminate|discriminate]. }
  split; [|split; [exact F|]].
  - intros M. rewrite <- (tick_then_rest_on_doubles M).
    apply compareAudio_present;
      [apply tick_8k_well_formed|apply rest_48k_well_formed|discriminate|discriminate].
  - intros M H. apply (@F64_of_Z_distinct 19 24); [vm_compute; discriminate|].
    exact (delivers_unique (F M) H).
Qed.

(** ** The theorems at concrete inputs *)

Lemma short_clap_well_formed : well_formed short_world short_clap.
Proof. constructor; [|constructor]. split; [vm_compute; lia|]. reflexivity. Qed.

Lemma short_silence_well_formed : well_formed short_world short_silence.
Proof. constructor; [|constructor]. split; [vm_compute; lia|]. reflexivity. Qed.

Lemma recorder_writes_nothing (N : NumOps) : writes_nothing (@recorder N).
Proof. intros score w. cbn. split; auto. Qed.

Lemma compareAudio_missing_buffer_witness :
  (player1OriginalBuffer (comparing None (Some short_silence)) = None \/
   player2ReverseForwardBuffer (comparing None (Some short_silence)) = None) /\
  exists w',
    heap w' = heap short_world /\
    (forall callback, Some (@recorder Doubles) = Some callback ->
       compareAudio (comparing None (Some short_silence)) (Some (@recorder Doubles)) short_world
       = callback (of_Z Doubles 30) w') /\
    (Some (@recorder Doubles) = None ->
     compareAudio (comparing None (Some short_silence)) (Some (@recorder Doubles)) short_world
     = (Returned tt, w')) /\
    ((forall callback, Some (@recorder Doubles) = Some callback ->
        fst (callback (of_Z Doubles 30) w') = Returned tt) ->
     fst (compareAudio (comparing None (Some short_silence)) (Some (@recorder Doubles))
            short_world) = Returned tt).
Proof.
  split; [left; reflexivity|].
  apply (@compareAudio_missing_buffer_delivers_30 Doubles). left. reflexivity.
Defined.

Lemma compareAudio_inputs_untouched_witness :
  (forall k, Some (@recorder Doubles) = Some k -> writes_nothing k) /\
  untouched short_world
    (snd (compareAudio (comparing (Some short_clap) (Some short_silence))
            (Some (@recorder Doubles)) short_world)) /\
  forall b c,
    (player1OriginalBuffer (comparing (Some short_clap) (Some short_silence)) = Some b \/
     player2ReverseForwardBuffer (comparing (Some short_clap) (Some short_silence)) = Some b) ->
    well_formed short_world b ->
    samples (snd (compareAudio (comparing (Some short_clap) (Some short_silence))
                    (Some (@recorder Doubles)) short_world)) b c
    = samples short_world b c.
Proof.
  assert (H : forall k, Some (@recorder Doubles) = Some k -> writes_nothing k).
  { intros k E. injection E as <-. apply recorder_writes_nothing. }
  split; [exact H|].
  apply (@compareAudio_inputs_untouched Doubles). exact H.
Defined.

Lemma reverseAudioBuffer_involutive_witness :
  well_formed short_world short_clap /\
  exists b1 w1 b2 w2,
    reverseAudioBuffer short_clap short_world = (Returned b1, w1) /\
    reverseAudioBuffer b1 w1 = (Returned b2, w2) /\
    (forall c, samples w1 b1 c = rev (samples short_world short_clap c)) /\
    length b2 = length short_clap /\
    sampleRate b2 = sampleRate short_clap /\
    numberOfChannels b2 = numberOfChannels short_clap /\
    (forall c, samples w2 b2 c = samples short_world short_clap c).
Proof.
  split; [exact short_clap_well_formed|].
  apply (@reverseAudioBuffer_involutive Doubles). exact short_clap_well_formed.
Defined.

Lemma durationMatch_of_equal_shape_witness :
  (length short_clap = length short_silence /\
   sampleRate short_clap = sampleRate short_silence /\
   F64.finite_nonzero (duration short_clap) = true /\
   durationMatch (compared short_world short_clap short_silence) = F64.of_Z 1) /\
  (length real_short_clap = length real_short_silence /\
   sampleRate real_short_clap = sampleRate real_short_silence /\
   duration real_short_clap <> 0%R /\
   durationMatch (compared real_short_world real_short_clap real_short_silence) = 1%R).
Proof.
  assert (H : duration real_short_clap <> 0%R).
  { unfold duration, real_short_clap, mono, of_nat. cbn. lra. }
  split.
  - split; [reflexivity|]. split; [reflexivity|]. split; [vm_compute; reflexivity|].
    apply (proj1 durationMatch_of_equal_shape no_math short_world short_clap short_silence);
      [reflexivity|reflexivity|vm_compute; reflexivity].
  - split; [reflexivity|]. split; [reflexivity|]. split; [exact H|].
    apply (proj2 durationMatch_of_equal_shape real_short_world real_short_clap
             real_short_silence); [reflexivity|reflexivity|exact H].
Defined.

Lemma compareAudio_fuses_with_slope_166_67_witness :
  well_formed short_world short_clap /\
  well_formed short_world short_silence /\
  numberOfChannels short_clap <> 0 /\
  numberOfChannels short_silence <> 0 /\
  (forall score,
     spec_score (lit Doubles 16667 2) (compared short_world short_clap short_silence) score ->
     delivers (comparing (Some short_clap) (Some short_silence)) short_world score) /\
  (n_le Doubles (spec_rawScore (compared short_world short_clap short_silence))
                (spec_rawScore (compared short_world short_clap short_silence)) = true ->
   exists score,
     spec_score (lit Doubles 16667 2) (compared short_world short_clap short_silence) score).
Proof.
  split; [exact short_clap_well_formed|]. split; [exact short_silence_well_formed|].
  split; [discriminate|]. split; [discriminate|].
  apply (@compareAudio_fuses_with_slope_166_67 Doubles
           (Float64_ordered no_math) (Float64_commutative no_math)
           short_world short_clap short_silence);
    [exact short_clap_well_formed|exact short_silence_well_formed|discriminate|discriminate].
Defined.

Lemma compareAudio_symmetric_at_one_rate_witness :
  well_formed short_world short_clap /\
  well_formed short_world short_silence /\
  numberOfChannels short_clap <> 0 /\
  numberOfChannels short_silence <> 0 /\
  sampleRate short_clap = sampleRate short_silence /\
  exists score,
    delivers (comparing (Some short_clap) (Some short_silence)) short_world score /\
    delivers (comparing (Some short_silence) (Some short_clap)) short_world score.
Proof.
  split; [exact short_clap_well_formed|]. split; [exact short_silence_well_formed|].
  split; [discriminate|]. split; [discriminate|]. split; [reflexivity|].
  apply (@compareAudio_symmetric_at_one_rate Doubles (Float64_commutative no_math)
           short_world short_clap short_silence);
    [exact short_clap_well_formed|exact short_silence_well_formed
    |discriminate|discriminate|reflexivity].
Defined.
(** ** Loops and folds *)

Lemma fold_left_invariant {A I} (P : A -> Prop) (f : A -> I -> A) l a :
  P a -> (forall a i, In i l -> P a -> P (f a i)) -> P (fold_left f l a).
Proof.
  revert a. induction l as [|i l IH]; intros a Ha Hf; cbn; [exact Ha|].
  apply IH.
  - apply Hf; [left; reflexivity|exact Ha].
  - intros a' i' Hi. apply Hf. right. exact Hi.
Qed.

Lemma loop_from_bound fuel v stop step i :
  In i (loop_from fuel v stop step) -> i < stop.
Proof.
  revert v. induction fuel as [|fuel IH]; intros v; cbn [loop_from]; [intros []|].
  destruct (v <? stop) eqn:E; [|intros []].
  intros [<-|H]; [apply Nat.ltb_lt, E|exact (IH _ H)].
Qed.

(** The loop variable stays below the bound. *)
Lemma for_loop_bound start stop step i : In i (for_loop start stop step) -> i < stop.
Proof. apply loop_from_bound. Qed.

(** From 0 in steps of [step], the loop variable is a multiple of [step]. *)
Lemma for_loop_multiple stop step i :
  0 < step -> In i (for_loop 0 stop step) -> i mod step = 0.
Proof.
  intros Hs Hi. rewrite for_loop_strided in Hi by exact Hs.
  apply in_map_iff in Hi. destruct Hi as (k & <- & _).
  apply Nat.Div0.mod_mul.
Qed.

(** The loop variable increases. *)
Lemma loop_from_increasing step fuel v stop :
  0 < step -> StronglySorted lt (loop_from fuel v stop step).
Proof.
  intros Hs. revert v. induction fuel as [|fuel IH]; intros v; cbn [loop_from];
    [constructor|].
  destruct (v <? stop); [|constructor].
  constructor; [apply IH|].
  apply Forall_forall. intros i Hi.
  assert (G : forall fuel' v' i', In i' (loop_from fuel' v' stop step) -> v' <= i').
  { clear. induction fuel' as [|fuel' IH']; intros v' i'; cbn [loop_from]; [intros []|].
    destruct (v' <? stop); [|intros []].
    intros [<-|H]; [lia|]. apply IH' in H. lia. }
  apply G in Hi. lia.
Qed.

Lemma for_loop_increasing start stop step :
  0 < step -> StronglySorted lt (for_loop start stop step).
Proof. apply loop_from_increasing. Qed.





(** From 0 in steps of [step], the loop visits the multiples of [step] below
    the bound, and nothing else. *)
Lemma for_loop_In stop step i :
  0 < step -> In i (for_loop 0 stop step) <-> i mod step = 0 /\ i < stop.
Proof.
  intros Hs. split.
  - intros H. split; [exact (@for_loop_multiple stop step i Hs H)|].
    exact (@for_loop_bound 0 stop step i H).
  - intros [Hm Hl]. rewrite for_loop_strided by exact Hs.
    apply in_map_iff. exists (i / step). split.
    + assert (E := Nat.div_mod_eq i step). lia.
    + apply in_seq. split; [lia|]. cbn [Nat.add].
      assert (E := Nat.div_mod_eq i step).
      apply Nat.div_lt_upper_bound; [lia|].
      assert (G := Nat.div_mod_eq (stop + (step - 1)) step).
      assert (B := Nat.mod_upper_bound (stop + (step - 1)) step).
      nia.
Qed.

(** A scan that appends to its list some of the positions it visits appends
    them in their order. *)
Lemma choosing_scan {X} (f : list nat * X -> nat -> list nat * X) (chosen_at : nat -> Prop) :
  (forall onsets x i,
     (fst (f (onsets, x) i) = onsets ++ [i] /\ chosen_at i) \/
     fst (f (onsets, x) i) = onsets) ->
  forall l onsets x,
  exists chosen,
    fst (fold_left f l (onsets, x)) = onsets ++ chosen /\
    (forall i, In i chosen -> In i l /\ chosen_at i) /\
    (forall R : nat -> nat -> Prop, StronglySorted R l -> StronglySorted R chosen).
Proof.
  intros Hf l. induction l as [|i l IH]; intros onsets x.
  - exists []. cbn. rewrite app_nil_r. split; [reflexivity|]. split; [intros i []|].
    intros R _. constructor.
  - cbn [fold_left]. destruct (f (onsets, x) i) as [onsets' x'] eqn:E.
    destruct (IH onsets' x') as (chosen & H1 & H2 & H3).
    destruct (Hf onsets x i) as [[Ho Hc]|Ho]; rewrite E in Ho; cbn [fst] in Ho; subst onsets'.
    + exists (i :: chosen). rewrite H1, <- app_assoc. split; [reflexivity|]. split.
      * intros k [<-|Hk]; [split; [left; reflexivity|exact Hc]|].
        destruct (H2 k Hk) as [Hin He]. split; [right; exact Hin|exact He].
      * intros R HR. inversion HR as [|? ? HS HF]; subst. constructor; [apply H3, HS|].
        apply Forall_forall. intros k Hk. rewrite Forall_forall in HF.
        apply HF, (H2 k Hk).
    + exists chosen. split; [exact H1|]. split.
      * intros k Hk. destruct (H2 k Hk) as [Hin He]. split; [right; exact Hin|exact He].
      * intros R HR. inversion HR; subst. apply H3. assumption.
Qed.
(** ** detectOnsets *)

Section OnsetProperties.

Variable N : NumOps.

(** From the window of index [s] on, the scan keeps the window starts with a
    sharp increase. *)
Lemma onsetScan_from (audioData : list (num N)) threshold c s onsets :
  fst (fold_left
         (fun '(onsets, prevEnergy) i =>
            let energy := windowEnergy N audioData i in
            let onsets :=
              if (n_lt N (n_mul N prevEnergy (n_add N (of_Z N 1) threshold)) energy)
                 && (n_lt N (lit N 1 2) energy)
              then onsets ++ [i]
              else onsets in
            (onsets, energy))
         (map (fun k => k * 512) (seq s c))
         (onsets, previousEnergy N audioData (s * 512)))
  = onsets ++ filter (sharp_increase N audioData threshold)
                     (map (fun k => k * 512) (seq s c)).
Proof.
  revert s onsets. induction c as [|c IH]; intros s onsets.
  - cbn. rewrite app_nil_r. reflexivity.
  - cbn [seq map fold_left filter].
    replace (windowEnergy N audioData (s * 512))
      with (previousEnergy N audioData (S s * 512)).
    2: { unfold previousEnergy. cbn [Nat.mul Nat.add Nat.eqb]. f_equal. lia. }
    cbv beta iota zeta. rewrite IH.
    unfold sharp_increase at 2.
    replace (previousEnergy N audioData (S s * 512))
      with (windowEnergy N audioData (s * 512)).
    2: { unfold previousEnergy. cbn [Nat.mul Nat.add Nat.eqb]. f_equal. lia. }
    destruct (_ && _); [rewrite <- app_assoc|]; reflexivity.
Qed.

Lemma detectOnsets_filter (audioData : list (num N)) (threshold : num N) :
  detectOnsets N audioData threshold
  = filter (sharp_increase N audioData threshold)
           (for_loop 0 (List.length audioData - 512) 512).
Proof.
  unfold detectOnsets, onsetScan. cbv zeta.
  rewrite for_loop_strided by lia.
  change (of_Z N 0) with (previousEnergy N audioData (0 * 512)).
  apply (onsetScan_from audioData threshold _ 0 []).
Qed.

Lemma filter_increasing (p : nat -> bool) l :
  StronglySorted lt l -> StronglySorted lt (filter p l).
Proof.
  induction 1 as [|i l HS IH HF]; cbn [filter]; [constructor|].
  destruct (p i); [|exact IH]. constructor; [exact IH|].
  apply Forall_forall. intros k Hk. apply filter_In in Hk.
  rewrite Forall_forall in HF. apply HF, Hk.
Qed.

(** X1. [detectOnsets] reports exactly the window starts at which the energy
    increases sharply: the multiples [i] of 512 with [i + 512 < length] (the
    window lies inside the array, strictly before its end) whose energy, the
    mean magnitude of the 512 samples, is above 0.01 and above
    [1 + threshold] times the energy of the window before (0 before the first
    window).  It reports them in increasing order, each once; an array of at
    most 512 samples has no onset. *)
Theorem detectOnsets_sharp_increases (audioData : list (num N)) (threshold : num N) :
  (forall i,
     In i (detectOnsets N audioData threshold) <->
     i mod 512 = 0 /\ i + 512 < List.length audioData /\
     sharp_increase N audioData threshold i = true) /\
  StronglySorted lt (detectOnsets N audioData threshold) /\
  (List.length audioData <= 512 -> detectOnsets N audioData threshold = []).
Proof.
  rewrite detectOnsets_filter. split; [|split].
  - intros i. rewrite filter_In, for_loop_In by lia. split.
    + intros [[Hm Hl] Hs]. split; [exact Hm|]. split; [lia|exact Hs].
    + intros (Hm & Hl & Hs). split; [split; [exact Hm|lia]|exact Hs].
  - apply filter_increasing, for_loop_increasing. lia.
  - intros Hshort. rewrite for_loop_empty by lia. reflexivity.
Qed.

End OnsetProperties.

Lemma filter_none {A} (p : A -> bool) l : (forall x, In x l -> p x = false) -> filter p l = [].
Proof.
  induction l as [|x l IH]; intros H; cbn [filter]; [reflexivity|].
  rewrite (H x (or_introl eq_refl)). apply IH. intros y Hy. apply H. right. exact Hy.
Qed.

Section RealOnsets.
Local Open Scope R_scope.









End RealOnsets.

(** X4. On doubles, an array of zeros has no onset, whatever the threshold. *)
Theorem detectOnsets_of_silence (M : MathLib) (audioData : list float) (threshold : float) :
  Forall (fun x => x = F64.of_Z 0) audioData ->
  detectOnsets (Float64 M) audioData threshold = [].
Proof.
  intros Hz. rewrite detectOnsets_filter. apply filter_none. intros i Hi.
  apply for_loop_In in Hi; [|lia]. destruct Hi as [_ Hl].
  change (num (Float64 M)) with float in Hl.
  assert (E : windowEnergy (Float64 M) audioData i = F64.of_Z 0).
  { unfold windowEnergy. cbv zeta.
    match goal with |- context [fold_left ?f ?l ?a] =>
      assert (P : fold_left f l a = F64.of_Z 0) end.
    { apply (fold_left_invariant (fun t : float => t = F64.of_Z 0)); [reflexivity|].
      intros t j Hj ->. apply for_loop_bound in Hj.
      unfold get. rewrite (proj1 (Forall_nth _ audioData) Hz (i + j)%nat) by lia.
      vm_compute. reflexivity. }
    rewrite P. vm_compute. reflexivity. }
  unfold sharp_increase. rewrite E. rewrite andb_false_iff. right.
  vm_compute. reflexivity.
Qed.


(** ** Bounds in exact arithmetic *)

Section RealBounds.
Local Open Scope R_scope.



























End RealBounds.

(** ** The similarity values and the score, in exact arithmetic *)

Section RealRanges.
Local Open Scope R_scope.








End RealRanges.

(** ** A waveform of zeros, in exact arithmetic *)

Section RealSilence.
Local Open Scope R_scope.






























End RealSilence.

(** ** Recordings too short for a frame *)

Section ShortRecordings.

Variable N : NumOps.

Lemma samples_length (w : World N) (b : AudioBuffer N) :
  well_formed w b -> numberOfChannels b <> 0 ->
  List.length (samples w b 0) = length b.
Proof.
  unfold well_formed, samples, numberOfChannels. intros W C.
  destruct (channelData b) as [|l ls]; [contradiction C; reflexivity|].
  apply Forall_inv in W. cbn [nth_error]. apply W.
Qed.

(** When one of the two buffers has at most 2048 samples, both arrays are cut
    to at most 2048 samples and no extractor finds a frame. *)
Lemma compared_short (w : World N) (buffer1 buffer2 : AudioBuffer N) :
  well_formed w buffer1 -> well_formed w buffer2 ->
  numberOfChannels buffer1 <> 0 -> numberOfChannels buffer2 <> 0 ->
  length buffer1 <= 2048 \/ length buffer2 <= 2048 ->
  let s := compared w buffer1 buffer2 in
  mfccSimilarity s = n_div N (n_add N (of_Z N 0) (of_Z N 1)) (of_Z N 2) /\
  pitchMatch s = lit N 5 1 /\
  envelopeMatch s = n_div N (n_add N (of_Z N 0) (of_Z N 1)) (of_Z N 2).
Proof.
  intros W1 W2 C1 C2 Hshort s. unfold s, compared.
  assert (L : List.length
                (firstn (Nat.min (List.length (samples w buffer1 0))
                                 (List.length (samples w buffer2 0)))
                        (samples w buffer1 0)) <= 2048).
  { rewrite length_firstn, !samples_length by assumption. lia. }
  split; [apply mfccSimilarity_short, L|].
  split; [apply pitchMatch_short, L|apply envelopeMatch_short, L].
Qed.

End ShortRecordings.

(** X12. On doubles, when one of the two buffers has at most 2048 samples
    (43 ms at 48 kHz), the timbre, pitch and envelope values are exactly 0.5,
    whatever the samples are and whatever the host's mathematical functions
    return. *)
Theorem compareAudio_short_is_neutral (M : MathLib) (w : World (Float64 M))
    (buffer1 buffer2 : AudioBuffer (Float64 M)) :
  well_formed w buffer1 -> well_formed w buffer2 ->
  numberOfChannels buffer1 <> 0 -> numberOfChannels buffer2 <> 0 ->
  length buffer1 <= 2048 \/ length buffer2 <= 2048 ->
  let s := compared w buffer1 buffer2 in
  mfccSimilarity s = (F64.of_Z 1 / F64.of_Z 2)%float /\
  pitchMatch s = (F64.of_Z 1 / F64.of_Z 2)%float /\
  envelopeMatch s = (F64.of_Z 1 / F64.of_Z 2)%float.
Proof.
  intros W1 W2 C1 C2 Hshort.
  destruct (compared_short W1 W2 C1 C2 Hshort) as (E1 & E2 & E3).
  cbv zeta. rewrite E1, E2, E3. repeat split; vm_compute; reflexivity.
Qed.


(** ** The frames of the extractors *)

Section FrameGrid.

Variable N : NumOps.

Lemma takes_band_12 (edges : list (num N)) freq : takes edges 12 freq = false.
Proof. reflexivity. Qed.

(** No bin is accumulated into the last band. *)
Lemma bandEnergies_last edges sr (frame : list (num N)) :
  nth 12 (bandEnergies N edges sr frame) (of_Z N 0) = of_Z N 0.
Proof.
  rewrite bandEnergies_spec.
  change (nth 12 (map (spec_bandEnergy edges sr frame) (seq 0 13)) (of_Z N 0))
    with (spec_bandEnergy edges sr frame 12).
  unfold spec_bandEnergy. rewrite filter_none; [reflexivity|].
  intros i _. apply takes_band_12.
Qed.

Lemma frame_positions_length len :
  List.length (for_loop 0 (len - 2048) 512) = frameCount len.
Proof.
  rewrite for_loop_strided by lia. rewrite length_map, length_seq. reflexivity.
Qed.

(** X14. The timbre and the pitch extractor run over the same frames, one at
    every multiple of 512 below [length - 2048], and the envelope has one
    value at every multiple of 1024 below [length - 2048].  Every timbre
    vector has 13 entries, and its last entry is [Math.log(0 + 1e-10)] in
    every frame, whatever the samples: no bin is ever accumulated into the
    thirteenth band. *)
Theorem extractor_frames (audioData : list (num N)) (sampleRate : num N) :
  List.length (extractMFCCFeatures N audioData sampleRate)
  = (List.length audioData - 2048 + 511) / 512 /\
  List.length (extractPitchContour N audioData sampleRate)
  = (List.length audioData - 2048 + 511) / 512 /\
  List.length (calculateRMSEnergyCurve N audioData 2048)
  = (List.length audioData - 2048 + 1023) / 1024 /\
  forall vector,
    In vector (extractMFCCFeatures N audioData sampleRate) ->
    List.length vector = 13 /\
    nth 12 vector (of_Z N 0) = n_log N (n_add N (of_Z N 0) (lit N 1 10)).
Proof.
  split; [|split; [|split]].
  - unfold extractMFCCFeatures. cbv zeta. rewrite length_map. apply frame_positions_length.
  - unfold extractPitchContour. cbv zeta. rewrite length_map. apply frame_positions_length.
  - unfold calculateRMSEnergyCurve. cbv zeta. rewrite length_map.
    rewrite for_loop_strided by (vm_compute; lia).
    rewrite length_map, length_seq. reflexivity.
  - intros vector Hv. split.
    + exact (proj1 (Forall_forall _ _) (extractMFCCFeatures_dimension N audioData sampleRate)
               vector Hv).
    + unfold extractMFCCFeatures in Hv. cbv zeta in Hv.
      apply in_map_iff in Hv. destruct Hv as (pos & <- & _).
      rewrite (nth_indep _ (of_Z N 0)
                 (n_log N (n_add N (of_Z N 0) (lit N 1 10))))
        by (rewrite length_map, bandEnergies_length; lia).
      rewrite map_nth with (f := fun e => n_log N (n_add N e (lit N 1 10))).
      rewrite bandEnergies_last. reflexivity.
Qed.

End FrameGrid.

(** ** The recorder and its timer *)

Section Recorder.

Variable N : NumOps.

Ltac decide_branch H :=
  match goal with
  | |- context [if ?c then _ else _] =>
      let E := fresh "E" in
      first [assert (E : c = false) by exact H | assert (E : c = true) by exact H];
      rewrite E; clear E
  end.

(** The interval [id] has been cleared. *)
Lemma fire_cleared id (s : Scene N) w :
  In (ClearInterval id) (calls s) -> fire id s w = (s, w).
Proof.
  intros H. unfold fire.
  replace (existsb _ (calls s)) with true; [reflexivity|].
  symmetry. apply existsb_exists. exists (ClearInterval id).
  split; [exact H|apply Nat.eqb_refl].
Qed.

Lemma fires_cleared n id (s : Scene N) w :
  In (ClearInterval id) (calls s) -> fires n id s w = (s, w).
Proof.
  intros H. induction n as [|n IH]; [reflexivity|].
  cbn [fires]. rewrite fire_cleared by exact H. exact IH.
Qed.

Lemma fire_running id (s : Scene N) w :
  ~ In (ClearInterval id) (calls s) ->
  fire id s w = (snd (fst (recordingTick s w)), snd (recordingTick s w)).
Proof.
  intros H. unfold fire.
  replace (existsb _ (calls s)) with false.
  - destruct (recordingTick s w) as [[r s'] w']. reflexivity.
  - symmetry. apply not_true_is_false. intros E. apply existsb_exists in E.
    destruct E as (c & Hc & E). destruct c as [id'|]; [|discriminate].
    apply Nat.eqb_eq in E. subst id'. exact (H Hc).
Qed.

(** [stopRecording] returns, and leaves no timer and no active recorder. *)
Lemma stopRecording_run (s : Scene N) w :
  exists s',
    stopRecording s w = (Returned tt, s', w) /\
    recordingTimer (this s') = None /\
    (mediaRecorder (this s') = None \/ mediaRecorder (this s') = Some inactive) /\
    calls s'
    = calls s
      ++ match recordingTimer (this s) with Some id => [ClearInterval id] | None => [] end
      ++ match mediaRecorder (this s) with
         | Some recording | Some paused => [RecorderStop]
         | _ => []
         end /\
    buffers (this s') = buffers (this s) /\
    recordingTime (this s') = recordingTime (this s) /\
    isRecording (this s') = isRecording (this s).
Proof.
  destruct s as [f c].
  destruct f as [b ac mr ir ip rt timer mx cb].
  destruct timer as [id|]; destruct mr as [[| |]|];
    (eexists; split; [reflexivity|]; cbn;
     rewrite ?app_nil_r, <- ?app_assoc; repeat split; auto).
Qed.


Lemma timeAfter_shift (t0 : num N) k :
  timeAfter N (n_add N t0 (lit N 1 1)) k = timeAfter N t0 (S k).
Proof.
  unfold timeAfter. induction k as [|k IH]; [reflexivity|].
  change (n_add N (Nat.iter k (fun t => n_add N t (lit N 1 1)) (n_add N t0 (lit N 1 1)))
                  (lit N 1 1)
          = n_add N (Nat.iter (S k) (fun t => n_add N t (lit N 1 1)) t0) (lit N 1 1)).
  f_equal. exact IH.
Qed.

(** One tick below the maximal duration: the time advances, nothing else
    changes in the object. *)
Lemma recordingTick_below (s : Scene N) w :
  returning_callback (this s) ->
  n_le N (maxRecordingDuration (this s)) (n_add N (recordingTime (this s)) (lit N 1 1))
  = false ->
  exists w',
    recordingTick s w
    = (Returned tt,
       {| this := set_recordingTime (n_add N (recordingTime (this s)) (lit N 1 1)) (this s);
          calls := calls s |}, w').
Proof.
  intros Q H. destruct s as [f c]. cbn [this calls] in *.
  unfold returning_callback in Q. unfold recordingTick, andThen, fields, assign, lift, returns.
  cbn [this calls set_recordingTime onRecordingUpdate recordingTime maxRecordingDuration].
  destruct (onRecordingUpdate f) as [cb|].
  - specialize (Q (n_add N (recordingTime f) (lit N 1 1)) w).
    destruct (cb _ w) as [r w']. cbn [fst] in Q. subst r.
    cbn [this recordingTime maxRecordingDuration set_recordingTime]. decide_branch H.
    exists w'. reflexivity.
  - decide_branch H. exists w. reflexivity.
Qed.

(** One tick that reaches the maximal duration: the recording is stopped. *)
Lemma recordingTick_reaches (s : Scene N) w id :
  returning_callback (this s) ->
  recordingTimer (this s) = Some id -> mediaRecorder (this s) = Some recording ->
  n_le N (maxRecordingDuration (this s)) (n_add N (recordingTime (this s)) (lit N 1 1))
  = true ->
  exists w',
    recordingTick s w
    = (Returned tt,
       {| this := set_mediaRecorder (Some inactive)
                    (set_recordingTimer None
                       (set_recordingTime (n_add N (recordingTime (this s)) (lit N 1 1))
                                          (this s)));
          calls := calls s ++ [ClearInterval id; RecorderStop] |}, w').
Proof.
  intros Q T R H. destruct s as [f c]. destruct f as [b ac mr ir ip rt timer mx cb].
  cbn [this calls recordingTimer mediaRecorder recordingTime maxRecordingDuration] in *.
  subst timer mr. unfold returning_callback in Q. cbn [onRecordingUpdate] in Q.
  unfold recordingTick, andThen, fields, assign, lift, returns.
  cbn [this calls set_recordingTime onRecordingUpdate recordingTime maxRecordingDuration
       buffers audioContext mediaRecorder isRecording isPlaying recordingTimer].
  destruct cb as [cb|].
  - specialize (Q (n_add N rt (lit N 1 1)) w).
    destruct (cb _ w) as [r w']. cbn [fst] in Q. subst r.
    cbn [this recordingTime maxRecordingDuration]. decide_branch H.
    exists w'. cbn. unfold call. cbn [this calls]. rewrite <- app_assoc. reflexivity.
  - decide_branch H. exists w. cbn. unfold call. cbn [this calls].
    rewrite <- app_assoc. reflexivity.
Qed.

(** While the time stays below the maximal duration the timer goes on. *)
Lemma fires_below k : forall id (s : Scene N) w,
  returning_callback (this s) ->
  ~ In (ClearInterval id) (calls s) ->
  (forall j, 1 <= j <= k ->
     n_le N (maxRecordingDuration (this s)) (timeAfter N (recordingTime (this s)) j) = false) ->
  exists w',
    fires k id s w
    = ({| this := set_recordingTime (timeAfter N (recordingTime (this s)) k) (this s);
          calls := calls s |}, w').
Proof.
  induction k as [|k IH]; intros id s w Q C H.
  - exists w. destruct s as [f c]. destruct f. reflexivity.
  - cbn [fires]. rewrite fire_running by exact C.
    destruct (@recordingTick_below s w Q) as (w1 & E); [apply (H 1); lia|].
    rewrite E. cbn [fst snd].
    set (s1 := {| this := set_recordingTime _ (this s); calls := calls s |}).
    destruct (IH id s1 w1) as (w' & E').
    + exact Q.
    + exact C.
    + intros j Hj. cbn [s1 this recordingTime maxRecordingDuration set_recordingTime].
      rewrite timeAfter_shift. apply H. lia.
    + exists w'. rewrite E'.
      cbn [s1 this calls recordingTime set_recordingTime]. rewrite timeAfter_shift.
      reflexivity.
Qed.

(** The tick at which the time reaches the maximal duration stops the
    recording, and the timer does not fire again. *)
Lemma fires_until k id (s : Scene N) w n :
  returning_callback (this s) ->
  recordingTimer (this s) = Some id -> mediaRecorder (this s) = Some recording ->
  ~ In (ClearInterval id) (calls s) ->
  (forall j, 1 <= j <= k ->
     n_le N (maxRecordingDuration (this s)) (timeAfter N (recordingTime (this s)) j) = false) ->
  n_le N (maxRecordingDuration (this s)) (timeAfter N (recordingTime (this s)) (S k)) = true ->
  exists w',
    fires (S k + n) id s w
    = ({| this := set_mediaRecorder (Some inactive)
                    (set_recordingTimer None
                       (set_recordingTime (timeAfter N (recordingTime (this s)) (S k))
                                          (this s)));
          calls := calls s ++ [ClearInterval id; RecorderStop] |}, w').
Proof.
  intros Q T R C H HS.
  assert (Split : forall a b (s0 : Scene N) w0,
             fires (a + b) id s0 w0
             = fires b id (fst (fires a id s0 w0)) (snd (fires a id s0 w0))).
  { induction a as [|a IHa]; intros b s0 w0; [reflexivity|].
    cbn [Nat.add fires]. destruct (fire id s0 w0) as [s1 w1]. apply IHa. }
  replace (S k + n) with (k + (1 + n)) by lia. rewrite Split.
  destruct (@fires_below k id s w Q C H) as (w1 & E1). rewrite E1. cbn [fst snd].
  set (s1 := {| this := set_recordingTime _ (this s); calls := calls s |}).
  rewrite Split. cbn [fires]. rewrite fire_running by exact C.
  destruct (@recordingTick_reaches s1 w1 id Q T R) as (w2 & E2).
  { exact HS. }
  rewrite E2. cbn [fst snd]. exists w2.
  rewrite fires_cleared; [reflexivity|].
  cbn [calls]. apply in_or_app. right. left. reflexivity.
Qed.

End Recorder.

(** X15. [stopRecording] returns without an error from every state of the
    object: it clears the interval timer if one is set, and calls [stop()] on
    the recorder exactly when the recorder is recording or paused, never on
    an inactive one, and makes no other call.  After it there is no timer and
    no active recorder, the buffers and the recording time are as they were,
    and a second call changes nothing. *)
Theorem stopRecording_settles (N : NumOps) (s : Scene N) (w : World N) :
  exists s',
    stopRecording s w = (Returned tt, s', w) /\
    recordingTimer (this s') = None /\
    (mediaRecorder (this s') = None \/ mediaRecorder (this s') = Some inactive) /\
    calls s'
    = calls s
      ++ match recordingTimer (this s) with Some id => [ClearInterval id] | None => [] end
      ++ match mediaRecorder (this s) with
         | Some recording | Some paused => [RecorderStop]
         | _ => []
         end /\
    buffers (this s') = buffers (this s) /\
    recordingTime (this s') = recordingTime (this s) /\
    stopRecording s' w = (Returned tt, s', w).
Proof.
  destruct (stopRecording_run s w) as (s' & E & T & R & C & B & RT & _).
  exists s'. repeat (split; [assumption|]).
  destruct (stopRecording_run s' w) as (s'' & E' & _ & _ & C' & _).
  rewrite E'. f_equal. f_equal.
  rewrite T in C'. destruct R as [R|R]; rewrite R in C'; cbn [app] in C';
    rewrite app_nil_r in C'.
  - clear - E' T R C'. destruct s' as [f c]. destruct f. cbn in *. subst.
    unfold stopRecording, andThen, fields, returns in E'. cbn in E'.
    injection E' as <-. reflexivity.
  - clear - E' T R C'. destruct s' as [f c]. destruct f. cbn in *. subst.
    unfold stopRecording, andThen, fields, returns in E'. cbn in E'.
    injection E' as <-. reflexivity.
Qed.

Lemma double_times_below (M : MathLib) j :
  1 <= j <= 100 ->
  n_le (Float64 M) (of_Z (Float64 M) 10) (timeAfter (Float64 M) (of_Z (Float64 M) 0) j) = false.
Proof.
  intros Hj.
  assert (A : forallb (fun j => negb (n_le (Float64 M) (of_Z (Float64 M) 10)
                                        (timeAfter (Float64 M) (of_Z (Float64 M) 0) j)))
                      (seq 1 100) = true) by (vm_compute; reflexivity).
  rewrite forallb_forall in A. specialize (A j). apply negb_true_iff, A, in_seq. lia.
Qed.

(** X16. On doubles the timer of [startRecording] stops the recording at its
    101st tick, not its 100th: after 100 additions of 0.1 the recording time
    is still below 10.  Up to the 100th tick the timer and the recorder go
    on and nothing but the time changes; the 101st tick clears the timer
    and stops the recorder, and the timer does not fire again. *)
Theorem recording_stops_at_tick_101 (M : MathLib) (s : Scene (Float64 M))
    (w : World (Float64 M)) (id : nat) :
  started (this s) id -> returning_callback (this s) ->
  ~ In (ClearInterval id) (calls s) ->
  PrimFloat.ltb (timeAfter (Float64 M) (F64.of_Z 0) 100) (F64.of_Z 10) = true /\
  (forall k, k <= 100 ->
     exists w',
       fires k id s w
       = ({| this := set_recordingTime (timeAfter (Float64 M) (F64.of_Z 0) k) (this s);
             calls := calls s |}, w')) /\
  (forall n,
     exists w',
       fires (101 + n) id s w
       = ({| this := set_mediaRecorder (Some inactive)
                       (set_recordingTimer None
                          (set_recordingTime (timeAfter (Float64 M) (F64.of_Z 0) 101)
                                             (this s)));
             calls := calls s ++ [ClearInterval id; RecorderStop] |}, w')).
Proof.
  intros (R & T & T0 & Mx) Q C.
  split; [vm_compute; reflexivity|]. split.
  - intros k Hk. destruct (@fires_below (Float64 M) k id s w Q C) as (w' & E).
    + intros j Hj. rewrite Mx, T0. apply double_times_below. lia.
    + exists w'. rewrite E, T0. reflexivity.
  - intros n. destruct (@fires_until (Float64 M) 100 id s w n Q T R C) as (w' & E).
    + intros j Hj. rewrite Mx, T0. apply double_times_below. lia.
    + rewrite Mx, T0. vm_compute. reflexivity.
    + exists w'. rewrite E, T0. reflexivity.
Qed.



(** ** The methods that reverse, and reset *)

Section Methods.

Variable N : NumOps.
Variable host : Host.

(** One reversal: a new buffer of the same shape that holds the mirrored
    samples, in a world that keeps the arrays it had. *)
Lemma reverseAudioBuffer_once (w : World N) (b : AudioBuffer N) :
  well_formed w b ->
  exists b1 w1,
    reverseAudioBuffer b w = (Returned b1, w1) /\
    untouched w w1 /\
    console w1 = console w /\
    well_formed w1 b1 /\
    (forall c, samples w1 b1 c = rev (samples w b c)) /\
    length b1 = length b /\
    sampleRate b1 = sampleRate b /\
    numberOfChannels b1 = numberOfChannels b.
Proof.
  intros Hwf.
  assert (Hlt : forall l, In l (channelData b) ->
                  l < List.length (heap w) /\ List.length (nth l (heap w) []) = length b).
  { unfold well_formed in Hwf. rewrite Forall_forall in Hwf. exact Hwf. }
  set (contents := map (fun l => nth l (heap w) []) (channelData b)).
  set (b1 := {| sampleRate := sampleRate b; length := length b;
                channelData := seq (List.length (heap w)) (numberOfChannels b) |}).
  set (w1 := {| heap := heap w ++ map (fun l => rev (nth l (heap w) [])) (channelData b);
                console := console w |}).
  exists b1, w1.
  split; [apply reverseAudioBuffer_run, Hwf|].
  split.
  { split; cbn [heap w1]; [rewrite length_app; lia|].
    intros l Hl. apply app_nth1, Hl. }
  split; [reflexivity|]. split.
  { unfold well_formed. rewrite Forall_forall. intros l Hl.
    cbn [channelData b1] in Hl. apply in_seq in Hl.
    cbn [heap w1 length b1]. rewrite length_app, length_map.
    unfold numberOfChannels in Hl. split; [lia|].
    rewrite app_nth2 by lia.
    rewrite nth_indep with (d' := rev (nth 0 (heap w) []))
      by (rewrite length_map; lia).
    rewrite (map_nth (fun l => rev (nth l (heap w) []))). rewrite length_rev.
    apply Hlt. apply nth_In. lia. }
  split.
  { intros c.
    rewrite samples_fresh with (h := heap w) (arrs := map (@rev _) contents).
    - rewrite samples_map. fold contents.
      change (@nil (num N)) with (rev (@nil (num N))) at 1. apply map_nth.
    - cbn. unfold contents. rewrite map_map. reflexivity.
    - cbn. unfold contents, numberOfChannels. rewrite !length_map. reflexivity. }
  split; [reflexivity|]. split; [reflexivity|].
  unfold numberOfChannels. cbn. apply length_seq.
Qed.

(** [initAudioContext] touches the context and nothing else; when it returns
    there is a context and it is not suspended. *)
Lemma initAudioContext_run (s : Scene N) :
  exists r s',
    (forall w : World N, initAudioContext host s w = (r, s', w)) /\
    buffers (this s') = buffers (this s) /\
    calls s' = calls s /\
    (r = Returned tt ->
     audioContext (this s') = Some running \/ audioContext (this s') = Some closed).
Proof.
  destruct s as [f c]. destruct f as [b ac mr ir ip rt timer mx cb].
  unfold initAudioContext, andThen, fields, assign, returns, throws.
  cbn [this calls audioContext set_audioContext].
  destruct ac as [[| |]|]; [| | |destruct (constructs host) as [[| |]|]];
    cbn [this calls audioContext set_audioContext];
    try destruct (resumes host);
    (eexists; eexists; split; [intros w; reflexivity|]; cbn;
     split; [reflexivity|]; split; [reflexivity|]; intros E;
     first [discriminate E | left; reflexivity | right; reflexivity]).
Qed.

Lemma andThen_lift_log {B} text values (k : unit -> Method N B) (s : Scene N) h c :
  andThen (lift (console_log text values)) k s {| heap := h; console := c |}
  = k tt s {| heap := h; console := c ++ [ConsoleLog text values] |}.
Proof. reflexivity. Qed.

Lemma andThen_lift_error {B} text e (k : unit -> Method N B) (s : Scene N) h c :
  andThen (lift (console_error text e)) k s {| heap := h; console := c |}
  = k tt s {| heap := h; console := c ++ [ConsoleError text e] |}.
Proof. reflexivity. Qed.

Lemma andThen_fields {B} (k : Fields N -> Method N B) (s : Scene N) w :
  andThen (fields (N:=N)) k s w = k (this s) s w.
Proof. reflexivity. Qed.

Lemma andThen_assign {B} f (k : unit -> Method N B) (s : Scene N) w :
  andThen (assign f) k s w = k tt {| this := f (this s); calls := calls s |} w.
Proof. reflexivity. Qed.

Lemma andThen_run {A B} (m : Method N A) (k : A -> Method N B) s w a s' w' :
  m s w = (Returned a, s', w') -> andThen m k s w = k a s' w'.
Proof. intros E. unfold andThen. rewrite E. reflexivity. Qed.

Lemma andThen_threw {A B} (m : Method N A) (k : A -> Method N B) s w e s' w' :
  m s w = (Threw e, s', w') -> andThen m k s w = (Threw e, s', w').
Proof. intros E. unfold andThen. rewrite E. reflexivity. Qed.

Lemma tryCatch_threw {A} (m : Method N A) handler s w e s' w' :
  m s w = (Threw e, s', w') -> tryCatch m handler s w = handler e s' w'.
Proof. intros E. unfold tryCatch. rewrite E. reflexivity. Qed.

Lemma lift_run {A} (m : M N A) (s : Scene N) w r w' :
  m w = (r, w') -> lift m s w = (r, s, w').
Proof. intros E. unfold lift. rewrite E. reflexivity. Qed.

(** Without a recording of player 1, or without an audio context, the
    callback of [reversePlayer1] gets [null]; no buffer changes and no array
    is made. *)
Lemma reversePlayer1_fails (s : Scene N) (w : World N) :
  player1OriginalBuffer (buffers (this s)) = None \/
  fst (fst (initAudioContext host s w)) <> Returned tt ->
  exists s1 w1,
    heap w1 = heap w /\
    buffers (this s1) = buffers (this s) /\
    calls s1 = calls s /\
    forall onComplete, reversePlayer1 host onComplete s w = hand onComplete None s1 w1.
Proof.
  intros H. destruct w as [h c]. unfold reversePlayer1.
  destruct (initAudioContext_run s) as (r & s' & E & B & C & _).
  rewrite E in H. cbn [fst] in H.
  destruct r as [[]|e].
  - destruct H as [H|H]; [|contradiction H; reflexivity].
    eexists. eexists. split; [|split; [|split]]; [| | |intros onComplete].
    4: { rewrite !andThen_lift_log. erewrite tryCatch_threw.
         - rewrite !andThen_lift_error. reflexivity.
         - erewrite andThen_run by apply E. rewrite andThen_lift_log, andThen_fields.
           rewrite B, H. reflexivity. }
    + reflexivity.
    + exact B.
    + exact C.
  - eexists. eexists. split; [|split; [|split]]; [| | |intros onComplete].
    4: { rewrite !andThen_lift_log. erewrite tryCatch_threw.
         - rewrite !andThen_lift_error. reflexivity.
         - erewrite andThen_threw by apply E. reflexivity. }
    + reflexivity.
    + exact B.
    + exact C.
Qed.

Lemma reversePlayer2_fails (s : Scene N) (w : World N) :
  player2AttemptBuffer (buffers (this s)) = None \/
  fst (fst (initAudioContext host s w)) <> Returned tt ->
  exists s1 w1,
    heap w1 = heap w /\
    buffers (this s1) = buffers (this s) /\
    calls s1 = calls s /\
    forall onComplete, reversePlayer2 host onComplete s w = hand onComplete None s1 w1.
Proof.
  intros H. destruct w as [h c]. unfold reversePlayer2.
  destruct (initAudioContext_run s) as (r & s' & E & B & C & _).
  rewrite E in H. cbn [fst] in H.
  destruct r as [[]|e].
  - destruct H as [H|H]; [|contradiction H; reflexivity].
    eexists. eexists. split; [|split; [|split]]; [| | |intros onComplete].
    4: { erewrite tryCatch_threw.
         - rewrite !andThen_lift_error. reflexivity.
         - erewrite andThen_run by apply E. rewrite andThen_fields.
           rewrite B, H. reflexivity. }
    + reflexivity.
    + exact B.
    + exact C.
  - eexists. eexists. split; [|split; [|split]]; [| | |intros onComplete].
    4: { erewrite tryCatch_threw.
         - rewrite !andThen_lift_error. reflexivity.
         - erewrite andThen_threw by apply E. reflexivity. }
    + reflexivity.
    + exact B.
    + exact C.
Qed.


Lemma samples_heap (w w' : World N) b c : heap w = heap w' -> samples w b c = samples w' b c.
Proof. intros E. unfold samples. rewrite E. reflexivity. Qed.

Lemma well_formed_heap (w w' : World N) b :
  heap w = heap w' -> well_formed w b -> well_formed w' b.
Proof. intros E. unfold well_formed. rewrite E. auto. Qed.

Lemma untouched_heap (w w1 w2 : World N) :
  heap w1 = heap w2 -> untouched w w1 -> untouched w w2.
Proof. intros E. unfold untouched. rewrite E. auto. Qed.

(** With a recording of player 1 and an audio context, [reversePlayer1]
    stores the reversed buffer and hands it to the callback. *)
Lemma reversePlayer1_succeeds (s : Scene N) (w : World N) (original : AudioBuffer N) :
  player1OriginalBuffer (buffers (this s)) = Some original ->
  well_formed w original ->
  fst (fst (initAudioContext host s w)) = Returned tt ->
  exists reversed s1 w1,
    untouched w w1 /\
    well_formed w1 reversed /\
    (forall c, samples w1 reversed c = rev (samples w original c)) /\
    (forall c, samples w1 original c = samples w original c) /\
    length reversed = length original /\
    sampleRate reversed = sampleRate original /\
    numberOfChannels reversed = numberOfChannels original /\
    buffers (this s1) = set_player1ReversedBuffer (Some reversed) (buffers (this s)) /\
    calls s1 = calls s /\
    forall onComplete,
      fst (fst (hand onComplete (Some reversed) s1 w1)) = Returned tt ->
      reversePlayer1 host onComplete s w = hand onComplete (Some reversed) s1 w1.
Proof.
  intros HB Hwf HI. destruct w as [h c].
  destruct (initAudioContext_run s) as (r & s' & E & B & C & _).
  rewrite E in HI. cbn [fst] in HI. subst r.
  set (w0 := {| heap := h;
                console := (((c ++ [ConsoleLog "reversePlayer1 called" []])
                             ++ [ConsoleLog "player1OriginalBuffer:" []])
                            ++ [ConsoleLog "AudioContext initialized" []])
                           ++ [ConsoleLog "Reversing buffer..." []] |}).
  destruct (@reverseAudioBuffer_once w0 original) as (b1 & wr & ER & U & CR & W1 & S1 & L & R & Ch).
  { exact (@well_formed_heap {| heap := h; console := c |} w0 original eq_refl Hwf). }
  destruct wr as [hr cr]. cbn [console w0] in CR. subst cr.
  set (s1 := {| this := set_buffers (set_player1ReversedBuffer (Some b1) (buffers (this s')))
                                    (this s');
                calls := calls s' |}).
  set (w1 := {| heap := hr;
                console := (console w0 ++ [ConsoleLog "Buffer reversed successfully" []])
                           ++ [ConsoleLog "Reversed buffer duration:" [duration b1]] |}).
  exists b1, s1, w1.
  split; [|split; [|split; [|split; [|split; [|split; [|split; [|split; [|split]]]]]]]];
    [| | | | | | | | |intros onComplete HK].
  10: { unfold reversePlayer1. rewrite !andThen_lift_log.
        unfold tryCatch.
        match goal with |- context [andThen (initAudioContext host) ?k s ?w] =>
          assert (EB : andThen (initAudioContext host) k s w
                       = hand onComplete (Some b1) s1 w1) end.
        { erewrite andThen_run by apply E. rewrite andThen_lift_log, andThen_fields.
          rewrite B, HB. rewrite andThen_lift_log.
          erewrite andThen_run by (apply lift_run; exact ER).
          rewrite andThen_assign, !andThen_lift_log, andThen_fields. reflexivity. }
        rewrite EB.
        destruct (hand onComplete (Some b1) s1 w1) as [[rk sk] wk] eqn:EK.
        cbn [fst] in HK. subst rk. reflexivity. }
  - unfold untouched in *. unfold w0 in U. cbn [heap] in *. exact U.
  - unfold well_formed in *. cbn [heap] in *. exact W1.
  - intros ch. specialize (S1 ch). unfold samples in *. unfold w0 in S1.
    cbn [heap] in *. exact S1.
  - intros ch. unfold samples. destruct (nth_error (channelData original) ch) as [l|] eqn:El;
      [|reflexivity].
    destruct U as [_ U]. unfold w0 in U. cbn [heap] in *. apply U.
    unfold well_formed in Hwf. rewrite Forall_forall in Hwf.
    apply (Hwf l (nth_error_In _ _ El)).
  - exact L.
  - exact R.
  - exact Ch.
  - cbn [s1 this buffers set_buffers]. rewrite B. reflexivity.
  - cbn [s1 calls]. exact C.
Qed.



(** [reset] returns; it empties the four buffers, lowers the two flags,
    zeroes the recording time and clears the timer. *)
Lemma reset_run (s : Scene N) (w : World N) :
  exists s',
    reset s w = (Returned tt, s', w) /\
    buffers (this s') = {| player1OriginalBuffer := None; player1ReversedBuffer := None;
                           player2AttemptBuffer := None;
                           player2ReverseForwardBuffer := None |} /\
    isRecording (this s') = false /\ isPlaying (this s') = false /\
    recordingTime (this s') = of_Z N 0 /\
    recordingTimer (this s') = None /\
    calls s'
    = calls s
      ++ match recordingTimer (this s) with Some id => [ClearInterval id] | None => [] end /\
    audioContext (this s') = audioContext (this s) /\
    mediaRecorder (this s') = mediaRecorder (this s).
Proof.
  destruct s as [f c]. destruct f as [b ac mr ir ip rt timer mx cb].
  destruct timer as [id|];
    (eexists; split; [reflexivity|]; cbn; rewrite ?app_nil_r; repeat split; reflexivity).
Qed.

End Methods.



(** X20. With a recording of player 1 (a well-formed buffer) and an audio
    context, [reversePlayer1] stores in [player1ReversedBuffer] a new buffer
    of the same length, sample rate and number of channels whose every
    channel holds the samples of the recording in reverse order; it changes
    no other buffer field and no sample of the recording, and hands the new
    buffer to the callback as its last act. *)
Theorem reversePlayer1_stores_reversal (N : NumOps) (host : Host)
    (s : Scene N) (w : World N) (original : AudioBuffer N) :
  player1OriginalBuffer (buffers (this s)) = Some original ->
  well_formed w original ->
  fst (fst (initAudioContext host s w)) = Returned tt ->
  exists reversed s1 w1,
    untouched w w1 /\
    well_formed w1 reversed /\
    (forall c, samples w1 reversed c = rev (samples w original c)) /\
    (forall c, samples w1 original c = samples w original c) /\
    length reversed = length original /\
    sampleRate reversed = sampleRate original /\
    numberOfChannels reversed = numberOfChannels original /\
    buffers (this s1) = set_player1ReversedBuffer (Some reversed) (buffers (this s)) /\
    calls s1 = calls s /\
    forall onComplete,
      fst (fst (hand onComplete (Some reversed) s1 w1)) = Returned tt ->
      reversePlayer1 host onComplete s w = hand onComplete (Some reversed) s1 w1.
Proof. apply reversePlayer1_succeeds. Qed.


(** X22. [reset] returns from every state of the object: the four buffers
    are empty, the two flags are down, the recording time is 0 and the timer,
    if one was set, is cleared; the audio context and the recorder are as
    they were.  After it, [compareAudio] reports the fallback score 30, and
    [reversePlayer1] and [reversePlayer2] hand [null] to their callbacks,
    whatever the browser offers. *)
Theorem reset_empties (N : NumOps) (s : Scene N) (w : World N) :
  exists s',
    reset s w = (Returned tt, s', w) /\
    (buffers (this s') = {| player1OriginalBuffer := None; player1ReversedBuffer := None;
                            player2AttemptBuffer := None;
                            player2ReverseForwardBuffer := None |} /\
     isRecording (this s') = false /\ isPlaying (this s') = false /\
     recordingTime (this s') = of_Z N 0 /\
     recordingTimer (this s') = None /\
     calls s'
     = calls s
       ++ match recordingTimer (this s) with Some id => [ClearInterval id] | None => [] end /\
     audioContext (this s') = audioContext (this s) /\
     mediaRecorder (this s') = mediaRecorder (this s)) /\
    (forall onComplete,
     exists w',
       heap w' = heap w /\
       compareAudioMethod onComplete s' w = lift (deliver onComplete (of_Z N 30)) s' w') /\
    (forall host,
     exists s1 w1,
       heap w1 = heap w /\
       forall onComplete, reversePlayer1 host onComplete s' w = hand onComplete None s1 w1) /\
    (forall host,
     exists s1 w1,
       heap w1 = heap w /\
       forall onComplete, reversePlayer2 host onComplete s' w = hand onComplete None s1 w1).
Proof.
  destruct (reset_run s w) as (s' & E & B & rest).
  exists s'. split; [exact E|]. split; [exact (conj B rest)|]. split; [|split].
  - intros onComplete. eexists. split; [|].
    2: { unfold compareAudioMethod. rewrite andThen_fields. unfold lift.
         rewrite compareAudio_missing_run by (left; rewrite B; reflexivity). reflexivity. }
    reflexivity.
  - intros host.
    destruct (@reversePlayer1_fails N host s' w) as (s1 & w1 & H & _ & _ & K);
      [left; rewrite B; reflexivity|].
    exists s1, w1. split; [exact H|exact K].
  - intros host.
    destruct (@reversePlayer2_fails N host s' w) as (s1 & w1 & H & _ & _ & K);
      [left; rewrite B; reflexivity|].
    exists s1, w1. split; [exact H|exact K].
Qed.
(** ** The game, turn by turn *)

Section GameRuns.

Local Open Scope Z_scope.

Variable N : NumOps.
Variable Math_PI : num N.
Variable categories : list string.
Variable getCategoryEmoji : string -> string.

Lemma scoreCallback_run (sc : num N) (s : App N) :
  let g' := {| currentStep := RESULTS;
               currentPrompt := currentPrompt (game s);
               similarityScore := sc;
               playerNames := playerNames (game s);
               selectedCategory := selectedCategory (game s);
               currentRound := currentRound (game s);
               currentPlayerIndex := currentPlayerIndex (game s);
               roundScores :=
                 roundScores (game s)
                 ++ [{| turn := turnsCompleted (game s) + 1;
                        round := currentRound (game s);
                        player := nameOf (game s) (currentPlayerIndex (game s))
                                         (currentPlayerIndex (game s) + 1);
                        playerIndex := currentPlayerIndex (game s);
                        score := sc;
                        prompt := currentPrompt (game s) |}];
               turnsCompleted := turnsCompleted (game s) + 1 |} in
  exists v p w,
    scoreCallback Math_PI sc s
    = (Returned tt, {| game := g'; page := p; audioManager := audioManager s; world := w |}) /\
    gameContent p = Some (ResultsViewOf v) /\
    score_value v = n_round N sc /\
    performance_message v = fst (getPerformanceMessage N sc) /\
    final_scores v
    = (if turnsCompleted (game s) + 1 >=? totalRounds * 2 then Some (finalScores g') else None) /\
    buttons v
    = (if turnsCompleted (game s) + 1 >=? totalRounds * 2 then PlayAgainAndHomeButtons
       else NextTurnButton).
Proof.
  destruct s as [g p a w]. destruct g.
  cbv zeta. do 3 eexists. split; [|split].
  - unfold scoreCallback, renderResults. cbn. reflexivity.
  - reflexivity.
  - cbn. repeat split; reflexivity.
Qed.

Lemma nextTurn_run (randomSong : option Song) (random : num N) (s : App N) :
  let index := Z.rem (currentPlayerIndex (game s) + 1) 2 in
  let round := if index =? 0 then currentRound (game s) + 1 else currentRound (game s) in
  round <= totalRounds ->
  exists prompt p a w,
    nextTurn Math_PI categories getCategoryEmoji randomSong random s
    = (Returned tt,
       {| game := {| currentStep := PROMPT_SELECTION;
                     currentPrompt := prompt;
                     similarityScore := of_Z N 0;
                     playerNames := playerNames (game s);
                     selectedCategory := selectedCategory (game s);
                     currentRound := round;
                     currentPlayerIndex := index;
                     roundScores := roundScores (game s);
                     turnsCompleted := turnsCompleted (game s) |};
          page := p; audioManager := a; world := w |}) /\
    gameContent p
    = Some (PromptSelectionView N round totalRounds (turnsCompleted (game s) + 1) prompt
              (nameOf (game s) index (index + 1))).
Proof.
  destruct s as [g p a w]. destruct g as [st pr sim names cat rnd idx scores done].
  cbv zeta. cbn [game currentPlayerIndex currentRound playerNames selectedCategory roundScores turnsCompleted].
  intros Hround.
  unfold nextTurn. cbn -[String.append].
  assert (Hgt : forall r, r <= totalRounds -> (r >? totalRounds) = false).
  { intros r H. rewrite Z.gtb_ltb. apply Z.ltb_ge. exact H. }
  revert Hround.
  destruct (Z.rem (idx + 1) 2 =? 0) eqn:E; intros Hround;
    cbn -[String.append reset];
    rewrite (Hgt _ Hround); cbn -[String.append reset];
    unfold followedBy at 1; unfold onManager at 1; cbn [audioManager world];
    match goal with
    | |- context [reset ?a0 ?w0] =>
        destruct (reset_run a0 w0) as (a' & Ea & _); rewrite Ea
    end;
    cbn -[String.append]; do 4 eexists; split; reflexivity.
Qed.



Local Notation play := (playTurn Math_PI categories getCategoryEmoji).
Local Notation plays := (playTurns Math_PI categories getCategoryEmoji).

Lemma followedBy_run {A B : Type} (m : Action N A) (k : A -> Action N B) (s s' : App N) (a : A) :
  m s = (Returned a, s') -> followedBy m k s = k a s'.
Proof. intros E. unfold followedBy. rewrite E. reflexivity. Qed.

Lemma playTurn_run (k : nat) (t : Played N) (s : App N) :
  turnsCompleted (game s) = Z.of_nat k ->
  currentRound (game s) = 1 + Z.of_nat (k / 2) ->
  currentPlayerIndex (game s) = Z.of_nat (k mod 2) ->
  (k < 5)%nat ->
  exists s',
    play t s = (Returned tt, s') /\
    turnsCompleted (game s') = Z.of_nat (S k) /\
    currentRound (game s') = 1 + Z.of_nat (S k / 2) /\
    currentPlayerIndex (game s') = Z.of_nat (S k mod 2) /\
    playerNames (game s') = playerNames (game s) /\
    exists e,
      roundScores (game s') = roundScores (game s) ++ [e] /\
      score e = scored t /\
      playerIndex e = Z.of_nat (k mod 2) /\
      round e = 1 + Z.of_nat (k / 2) /\
      turn e = Z.of_nat k + 1.
Proof.
  intros Hturns Hround Hindex Hk.
  destruct (scoreCallback_run (scored t) s) as (v & p & w & E & _).
  cbv zeta in E.
  unfold playTurn. rewrite (@followedBy_run _ _ _ _ _ _ _ E).
  match goal with
  | |- context [nextTurn _ _ _ ?c ?r ?s1] =>
      destruct (@nextTurn_run c r s1) as (prompt & p' & a' & w' & E' & _)
  end.
  { cbn [game currentPlayerIndex currentRound]. rewrite Hround, Hindex.
    unfold totalRounds.
    destruct k as [|[|[|[|[|]]]]]; try lia; vm_compute; discriminate. }
  rewrite E'. cbn [game currentPlayerIndex currentRound turnsCompleted roundScores playerNames].
  eexists. split; [reflexivity|].
  cbn [game currentPlayerIndex currentRound turnsCompleted roundScores playerNames].
  rewrite Hturns, Hround, Hindex.
  split; [lia|].
  split; [destruct k as [|[|[|[|[|]]]]]; try lia; reflexivity|].
  split; [destruct k as [|[|[|[|[|]]]]]; try lia; reflexivity|].
  split; [reflexivity|].
  eexists. split; [reflexivity|]. cbn. repeat split; reflexivity.
Qed.

Lemma playTurns_run (turns : list (Played N)) :
  forall (k : nat) (s : App N),
    turnsCompleted (game s) = Z.of_nat k ->
    currentRound (game s) = 1 + Z.of_nat (k / 2) ->
    currentPlayerIndex (game s) = Z.of_nat (k mod 2) ->
    (k + List.length turns <= 5)%nat ->
    exists s' entries,
      plays turns s = (Returned tt, s') /\
      turnsCompleted (game s') = Z.of_nat (k + List.length turns) /\
      currentRound (game s') = 1 + Z.of_nat ((k + List.length turns) / 2) /\
      currentPlayerIndex (game s') = Z.of_nat ((k + List.length turns) mod 2) /\
      playerNames (game s') = playerNames (game s) /\
      roundScores (game s') = roundScores (game s) ++ entries /\
      map (@score N) entries = map (@scored N) turns /\
      map (@playerIndex N) entries
      = map (fun j => Z.of_nat (j mod 2)) (seq k (List.length turns)) /\
      map (@round N) entries
      = map (fun j => 1 + Z.of_nat (j / 2)) (seq k (List.length turns)) /\
      map (@turn N) entries
      = map (fun j => Z.of_nat j + 1) (seq k (List.length turns)).
Proof.
  induction turns as [|t rest IH]; intros k s Hturns Hround Hindex Hk.
  - exists s, []. cbn [List.length]. rewrite Nat.add_0_r, app_nil_r.
    repeat split; assumption.
  - cbn [List.length] in *.
    destruct (@playTurn_run k t s Hturns Hround Hindex ltac:(lia))
      as (s1 & E1 & T1 & R1 & I1 & N1 & e & S1 & Es & Ei & Er & Et).
    destruct (IH (S k) s1 T1 R1 I1 ltac:(lia))
      as (s2 & entries & E2 & T2 & R2 & I2 & N2 & S2 & Ms & Mi & Mr & Mt).
    exists s2, (e :: entries).
    replace (k + S (List.length rest))%nat with (S k + List.length rest)%nat by lia.
    split. { cbn [playTurns]. rewrite (@followedBy_run _ _ _ _ _ _ _ E1). exact E2. }
    split; [exact T2|]. split; [exact R2|]. split; [exact I2|].
    split; [congruence|].
    split. { rewrite S2, S1, <- app_assoc. reflexivity. }
    cbn [map seq]. rewrite Ms, Mi, Mr, Mt, Es, Ei, Er, Et. repeat split; reflexivity.
Qed.


Lemma score_after_turns (turns : list (Played N)) (sc : num N) (s : App N) :
  unplayed (game s) ->
  (List.length turns <= 5)%nat ->
  exists s' v entries e,
    followedBy (plays turns) (fun _ => scoreCallback Math_PI sc) s = (Returned tt, s') /\
    gameContent (page s') = Some (ResultsViewOf v) /\
    score_value v = n_round N sc /\
    performance_message v = fst (getPerformanceMessage N sc) /\
    turnsCompleted (game s') = Z.of_nat (List.length turns) + 1 /\
    playerNames (game s') = playerNames (game s) /\
    roundScores (game s') = entries ++ [e] /\
    map (@score N) entries = map (@scored N) turns /\
    map (@playerIndex N) entries
    = map (fun j => Z.of_nat (j mod 2)) (seq 0 (List.length turns)) /\
    map (@round N) entries
    = map (fun j => 1 + Z.of_nat (j / 2)) (seq 0 (List.length turns)) /\
    score e = sc /\
    playerIndex e = Z.of_nat (List.length turns mod 2) /\
    round e = 1 + Z.of_nat (List.length turns / 2) /\
    final_scores v
    = (if (List.length turns =? 5)%nat then Some (finalScores (game s')) else None) /\
    buttons v
    = (if (List.length turns =? 5)%nat then PlayAgainAndHomeButtons else NextTurnButton).
Proof.
  intros (Hturns & Hround & Hindex & Hscores) Hlen.
  destruct (@playTurns_run turns 0%nat s Hturns Hround Hindex ltac:(lia))
    as (s1 & entries & E1 & T1 & R1 & I1 & N1 & S1 & Ms & Mi & Mr & _).
  destruct (scoreCallback_run sc s1) as (v & p & w & E & V & Vs & Vm & Vf & Vb).
  cbv zeta in E, Vf.
  rewrite Hscores in S1. cbn [app] in S1. cbn [Nat.add] in *.
  eexists. exists v, entries. eexists.
  split. { rewrite (@followedBy_run _ _ _ _ _ _ _ E1). exact E. }
  cbn [game page turnsCompleted playerNames roundScores score playerIndex round].
  rewrite S1, T1, R1, I1, N1.
  assert (Hover : (Z.of_nat (List.length turns) + 1 >=? totalRounds * 2)
                  = (List.length turns =? 5)%nat).
  { unfold totalRounds. destruct (Nat.eqb_spec (List.length turns) 5) as [H|H].
    - rewrite H. reflexivity.
    - rewrite Z.geb_leb. apply Z.leb_gt. lia. }
  rewrite T1, Hover in Vf, Vb. rewrite S1, R1, I1, N1 in Vf.
  repeat split; try assumption; reflexivity.
Qed.


Lemma finalScores_of_six (g : Game N) (entries : list (Turn N)) (e : Turn N)
    (s0 s1 s2 s3 s4 s5 : num N) :
  roundScores g = entries ++ [e] ->
  map (@score N) entries = [s0; s1; s2; s3; s4] ->
  map (@playerIndex N) entries = map (fun j => Z.of_nat (j mod 2)) (seq 0 5) ->
  map (@round N) entries = map (fun j => 1 + Z.of_nat (j / 2)) (seq 0 5) ->
  score e = s5 -> playerIndex e = 1 -> round e = 3 ->
  first_rows (finalScores g) = [rowOf N 1 s0; rowOf N 2 s2; rowOf N 3 s4] /\
  first_average (finalScores g) = averageOfThree N s0 s2 s4 /\
  second_rows (finalScores g) = [rowOf N 1 s1; rowOf N 2 s3; rowOf N 3 s5] /\
  second_average (finalScores g) = averageOfThree N s1 s3 s5 /\
  first_name (finalScores g) = or_else (at_index (playerNames g) 0) "Player 1" /\
  second_name (finalScores g) = or_else (at_index (playerNames g) 1) "Player 2" /\
  banner (finalScores g)
  = (if String.eqb (winnerOf g (averageOfThree N s0 s2 s4) (averageOfThree N s1 s3 s5)) "Tie"
     then "🤝 It's a Tie!"%string
     else ("🎉 " ++ winnerOf g (averageOfThree N s0 s2 s4) (averageOfThree N s1 s3 s5)
           ++ " Wins!")%string).
Proof.
  intros Hscores Ms Mi Mr Es Ei Er.
  destruct entries as [|e0 [|e1 [|e2 [|e3 [|e4 [|]]]]]]; try discriminate Ms.
  destruct e0, e1, e2, e3, e4, e. cbn in Ms, Mi, Mr, Es, Ei, Er.
  injection Ms as -> -> -> -> ->. injection Mi as -> -> -> -> ->.
  injection Mr as -> -> -> -> ->. subst.
  unfold finalScores. rewrite Hscores. cbn -[String.append String.eqb winnerOf].
  repeat split; reflexivity.
Qed.


(** X23 (app.js, nextTurn with renderResults): up to five turns into a game
    the book is kept turn by turn.  From a game of which no turn has been
    played, after [k <= 5] turns (a score arrives, the next turn is asked
    for) [k] turns are completed, the round is [1 + k / 2], the player to
    sing is player [k mod 2], and [roundScores] holds the [k] scores in the
    order they arrived, turn [j] (from 0) numbered [j + 1], in round
    [1 + j / 2], for player [j mod 2]. *)
Theorem turns_alternate_players (turns : list (Played N)) (s : App N) :
  unplayed (game s) ->
  (List.length turns <= 5)%nat ->
  exists s',
    plays turns s = (Returned tt, s') /\
    turnsCompleted (game s') = Z.of_nat (List.length turns) /\
    currentRound (game s') = 1 + Z.of_nat (List.length turns / 2) /\
    currentPlayerIndex (game s') = Z.of_nat (List.length turns mod 2) /\
    map (@score N) (roundScores (game s')) = map (@scored N) turns /\
    map (@playerIndex N) (roundScores (game s'))
    = map (fun j => Z.of_nat (j mod 2)) (seq 0 (List.length turns)) /\
    map (@round N) (roundScores (game s'))
    = map (fun j => 1 + Z.of_nat (j / 2)) (seq 0 (List.length turns)) /\
    map (@turn N) (roundScores (game s'))
    = map (fun j => Z.of_nat j + 1) (seq 0 (List.length turns)).
Proof.
  intros (Hturns & Hround & Hindex & Hscores) Hlen.
  destruct (@playTurns_run turns 0%nat s Hturns Hround Hindex ltac:(lia))
    as (s' & entries & E & T & R & I & _ & S & Ms & Mi & Mr & Mt).
  rewrite Hscores in S. cbn [app Nat.add] in *.
  exists s'. rewrite S. repeat split; assumption.
Qed.

(** X24 (app.js, renderResults): the game is over at the sixth score and not
    before.  When a score arrives after [k <= 5] turns of a game, the results
    show the rounded score; with [k < 5] they offer the next turn and no
    final scores, and with [k = 5], the sixth score, they show the final
    scores and offer to play again. *)
Theorem game_over_at_sixth_score (turns : list (Played N)) (sc : num N) (s : App N) :
  unplayed (game s) ->
  (List.length turns <= 5)%nat ->
  exists s' v,
    followedBy (plays turns) (fun _ => scoreCallback Math_PI sc) s = (Returned tt, s') /\
    gameContent (page s') = Some (ResultsViewOf v) /\
    score_value v = n_round N sc /\
    performance_message v = fst (getPerformanceMessage N sc) /\
    turnsCompleted (game s') = Z.of_nat (List.length turns) + 1 /\
    ((List.length turns < 5)%nat ->
     buttons v = NextTurnButton /\ final_scores v = None) /\
    (List.length turns = 5%nat ->
     buttons v = PlayAgainAndHomeButtons /\
     final_scores v = Some (finalScores (game s'))).
Proof.
  intros Hunplayed Hlen.
  destruct (@score_after_turns turns sc s Hunplayed Hlen)
    as (s' & v & entries & e & E & V & Vs & Vm & T & _ & _ & _ & _ & _ & _ & _ & _ & Vf & Vb).
  exists s', v. repeat split; try assumption.
  - rewrite Vb. destruct (Nat.eqb_spec (List.length turns) 5); [lia|reflexivity].
  - rewrite Vf. destruct (Nat.eqb_spec (List.length turns) 5); [lia|reflexivity].
  - rewrite Vb. destruct (Nat.eqb_spec (List.length turns) 5); [reflexivity|lia].
  - rewrite Vf. destruct (Nat.eqb_spec (List.length turns) 5); [reflexivity|lia].
Qed.

(** X25 (app.js, renderResults): the final scores of a game.  With the sixth
    score the results list, for the first player, the scores of turns 1, 3
    and 5 as rounds 1, 2 and 3 and their rounded mean, and for the second
    player those of turns 2, 4 and 6; the banner names the player with the
    greater mean, or a tie. *)
Theorem final_scores_of_a_game (t0 t1 t2 t3 t4 : Played N) (sc : num N) (s : App N) :
  unplayed (game s) ->
  exists s' v f,
    followedBy (plays [t0; t1; t2; t3; t4]) (fun _ => scoreCallback Math_PI sc) s
    = (Returned tt, s') /\
    gameContent (page s') = Some (ResultsViewOf v) /\
    final_scores v = Some f /\
    first_name f = or_else (at_index (playerNames (game s)) 0) "Player 1" /\
    first_rows f
    = [rowOf N 1 (scored t0); rowOf N 2 (scored t2); rowOf N 3 (scored t4)] /\
    first_average f = averageOfThree N (scored t0) (scored t2) (scored t4) /\
    second_name f = or_else (at_index (playerNames (game s)) 1) "Player 2" /\
    second_rows f = [rowOf N 1 (scored t1); rowOf N 2 (scored t3); rowOf N 3 sc] /\
    second_average f = averageOfThree N (scored t1) (scored t3) sc /\
    banner f
    = (let winner :=
         winnerOf (game s) (averageOfThree N (scored t0) (scored t2) (scored t4))
                  (averageOfThree N (scored t1) (scored t3) sc) in
       if String.eqb winner "Tie" then "🤝 It's a Tie!"%string
       else ("🎉 " ++ winner ++ " Wins!")%string).
Proof.
  intros Hunplayed.
  destruct (@score_after_turns [t0; t1; t2; t3; t4] sc s Hunplayed ltac:(cbn; lia))
    as (s' & v & entries & e & E & V & _ & _ & _ & Hnames & S & Ms & Mi & Mr & Es & Ei & Er
        & Vf & _).
  destruct (@finalScores_of_six (game s') entries e (scored t0) (scored t1) (scored t2)
              (scored t3) (scored t4) sc S Ms Mi Mr Es Ei Er)
    as (F1 & A1 & F2 & A2 & N1 & N2 & B).
  exists s', v, (finalScores (game s')).
  rewrite <- Hnames.
  assert (W : forall x y, winnerOf (game s) x y = winnerOf (game s') x y).
  { intros x y. unfold winnerOf. rewrite Hnames. reflexivity. }
  cbv zeta. rewrite W.
  repeat split; assumption.
Qed.

End GameRuns.

(** ** Scores that are not numbers, and the messages *)

Section ScoresOfDoubles.

Local Open Scope float_scope.

Variable M : MathLib.


Lemma F64_div_nan_l (x : float) : nan / x = nan.
Proof.
  apply Prim2SF_inj. rewrite div_spec. change (Prim2SF nan) with S754_nan. reflexivity.
Qed.

Lemma F64_ltb_nan_l (x : float) : (nan <? x) = false.
Proof. rewrite ltb_spec. change (Prim2SF nan) with S754_nan. reflexivity. Qed.

Lemma F64_ltb_nan_r (x : float) : (x <? nan) = false.
Proof.
  rewrite ltb_spec. change (Prim2SF nan) with S754_nan.
  destruct (Prim2SF x); reflexivity.
Qed.

Lemma SFleb_trans (X Y Z : spec_float) :
  SFleb X Y = true -> SFleb Y Z = true -> SFleb X Z = true.
Proof.
  unfold SFleb.
  destruct X as [s1|s1| |s1 m1 e1], Y as [s2|s2| |s2 m2 e2], Z as [s3|s3| |s3 m3 e3];
    simpl; try destruct s1; try destruct s2; try destruct s3;
    try discriminate; try reflexivity;
    destruct (Z.compare_spec e1 e2), (Z.compare_spec e2 e3), (Z.compare_spec e1 e3);
    try discriminate; try reflexivity; try lia; subst;
    change (Pos.compare_cont Eq) with Pos.compare;
    destruct (Pos.compare_spec m1 m2), (Pos.compare_spec m2 m3), (Pos.compare_spec m1 m3);
    simpl; try discriminate; try reflexivity; lia.
Qed.

Lemma F64_leb_trans (x y z : float) :
  (x <=? y) = true -> (y <=? z) = true -> (x <=? z) = true.
Proof. rewrite !leb_spec. apply SFleb_trans. Qed.


Lemma sum_with_NaN (scores : list (Turn (Float64 M))) :
  forall start : float,
    start = nan \/ (exists r, In r scores /\ score r = nan) ->
    fold_left (fun sum r => n_add (Float64 M) sum (score r)) scores start = nan.
Proof.
  induction scores as [|r rest IH]; intros start H; cbn [fold_left].
  - destruct H as [H|(r & [] & _)]. exact H.
  - apply IH. destruct H as [->|(r' & [<-|Hin] & Hnan)].
    + left. apply F64_add_nan_l.
    + left. cbn [n_add Float64]. 
      change (score r = nan) in Hnan. rewrite Hnan. apply F64_add_nan_r.
    + right. exists r'. split; assumption.
Qed.

Lemma averageScore_with_NaN (scores : list (Turn (Float64 M))) (r : Turn (Float64 M)) :
  In r scores -> score r = nan -> averageScore scores = nan.
Proof.
  intros Hin Hnan. unfold averageScore.
  rewrite sum_with_NaN by (right; exists r; split; assumption).
  cbn [n_div n_round Float64]. rewrite F64_div_nan_l. reflexivity.
Qed.

Lemma winnerOf_NaN_l (g : Game (Float64 M)) (y : float) : winnerOf g nan y = "Tie"%string.
Proof.
  unfold winnerOf. cbn [n_lt Float64]. rewrite F64_ltb_nan_l, F64_ltb_nan_r. reflexivity.
Qed.

Lemma winnerOf_NaN_r (g : Game (Float64 M)) (x : float) : winnerOf g x nan = "Tie"%string.
Proof.
  unfold winnerOf. cbn [n_lt Float64]. rewrite F64_ltb_nan_l, F64_ltb_nan_r. reflexivity.
Qed.

(** X26 (app.js, renderResults): one score that is not a number makes the
    game a tie.  If a turn of either player was scored NaN, that player's
    mean is NaN, neither mean is greater than the other, and the banner of
    the final scores announces a tie, whatever the other scores are. *)
Theorem final_banner_is_tie_with_NaN_score (g : Game (Float64 M)) (r : Turn (Float64 M)) :
  In r (roundScores g) ->
  playerIndex r = 0%Z \/ playerIndex r = 1%Z ->
  score r = nan ->
  banner (finalScores g) = "🤝 It's a Tie!"%string.
Proof.
  intros Hin Hindex Hnan. unfold finalScores. cbn [banner].
  destruct Hindex as [H|H].
  - rewrite (@averageScore_with_NaN (filter _ _) r).
    + rewrite winnerOf_NaN_l. reflexivity.
    + apply filter_In. split; [exact Hin|]. rewrite H. reflexivity.
    + exact Hnan.
  - rewrite (@averageScore_with_NaN (filter (fun r => (playerIndex r =? 1)%Z) _) r).
    + rewrite winnerOf_NaN_r. reflexivity.
    + apply filter_In. split; [exact Hin|]. rewrite H. reflexivity.
    + exact Hnan.
Qed.

(** X27 (app.js, getPerformanceMessage): the message never falls as the score
    rises.  For doubles [x <= y] the message for [y] stands at least as high
    as the message for [x] among the six messages, from [Keep Practicing!]
    up to [Perfect!]. *)
Theorem getPerformanceMessage_rises (x y : float) :
  (x <=? y) = true ->
  (placeIn praise (fst (getPerformanceMessage (Float64 M) x))
   <= placeIn praise (fst (getPerformanceMessage (Float64 M) y)))%nat.
Proof.
  intros H.
  assert (T : forall t, (t <=? x) = true -> (t <=? y) = true).
  { intros t Ht. exact (@F64_leb_trans t x y Ht H). }
  unfold getPerformanceMessage.
  change (n_le (Float64 M)) with leb.
  repeat match goal with
  | |- context [of_Z (Float64 M) ?z] => 
       let t := fresh "t" in set (t := of_Z (Float64 M) z) in *
  end.
  destruct (leb t x) eqn:X90.
  { rewrite (T _ X90). vm_compute. lia. }
  destruct (leb t0 x) eqn:X80.
  { rewrite (T _ X80). destruct (leb t y); vm_compute; lia. }
  destruct (leb t1 x) eqn:X70.
  { rewrite (T _ X70). destruct (leb t y), (leb t0 y); vm_compute; lia. }
  destruct (leb t2 x) eqn:X60.
  { rewrite (T _ X60). destruct (leb t y), (leb t0 y), (leb t1 y); vm_compute; lia. }
  destruct (leb t3 x) eqn:X50.
  { rewrite (T _ X50).
    destruct (leb t y), (leb t0 y), (leb t1 y), (leb t2 y); vm_compute; lia. }
  destruct (leb t y), (leb t0 y), (leb t1 y), (leb t2 y), (leb t3 y); vm_compute; lia.
Qed.
End ScoresOfDoubles.

(** ** The further theorems at concrete inputs *)



Lemma detectOnsets_of_silence_witness :
  Forall (fun x => x = F64.of_Z 0) (repeat (F64.of_Z 0) 1025) /\
  detectOnsets Doubles (repeat (F64.of_Z 0) 1025) (F64.of_Z 1 / F64.of_Z 10)%float = [].
Proof.
  assert (H : Forall (fun x => x = F64.of_Z 0) (repeat (F64.of_Z 0) 1025)).
  { apply Forall_forall. intros x Hx. exact (repeat_spec _ _ _ Hx). }
  split; [exact H|].
  exact (@detectOnsets_of_silence no_math (repeat (F64.of_Z 0) 1025)
           (F64.of_Z 1 / F64.of_Z 10)%float H).
Defined.










Lemma compareAudio_short_is_neutral_witness :
  well_formed short_world short_clap /\
  well_formed short_world short_silence /\
  numberOfChannels short_clap <> 0 /\
  numberOfChannels short_silence <> 0 /\
  (length short_clap <= 2048 \/ length short_silence <= 2048) /\
  (let s := compared short_world short_clap short_silence in
   mfccSimilarity s = (F64.of_Z 1 / F64.of_Z 2)%float /\
   pitchMatch s = (F64.of_Z 1 / F64.of_Z 2)%float /\
   envelopeMatch s = (F64.of_Z 1 / F64.of_Z 2)%float).
Proof.
  assert (H : length short_clap <= 2048 \/ length short_silence <= 2048)
    by (left; cbn; lia).
  split; [exact short_clap_well_formed|]. split; [exact short_silence_well_formed|].
  split; [discriminate|]. split; [discriminate|]. split; [exact H|].
  exact (@compareAudio_short_is_neutral no_math short_world short_clap short_silence
           short_clap_well_formed short_silence_well_formed
           ltac:(discriminate) ltac:(discriminate) H).
Defined.


Lemma recording_scene_started (N : NumOps) : started (this (recording_scene N)) 1.
Proof. repeat split. Qed.

Lemma recording_stops_at_tick_101_witness :
  started (this (recording_scene Doubles)) 1 /\
  returning_callback (this (recording_scene Doubles)) /\
  ~ In (ClearInterval 1) (calls (recording_scene Doubles)) /\
  PrimFloat.ltb (timeAfter Doubles (F64.of_Z 0) 100) (F64.of_Z 10) = true /\
  (forall k, k <= 100 ->
     exists w',
       fires k 1 (recording_scene Doubles) short_world
       = ({| this := set_recordingTime (timeAfter Doubles (F64.of_Z 0) k)
                                       (this (recording_scene Doubles));
             calls := calls (recording_scene Doubles) |}, w')) /\
  (forall n,
     exists w',
       fires (101 + n) 1 (recording_scene Doubles) short_world
       = ({| this := set_mediaRecorder (Some inactive)
                       (set_recordingTimer None
                          (set_recordingTime (timeAfter Doubles (F64.of_Z 0) 101)
                                             (this (recording_scene Doubles))));
             calls := calls (recording_scene Doubles) ++ [ClearInterval 1; RecorderStop] |},
          w')).
Proof.
  split; [exact (recording_scene_started Doubles)|]. split; [exact I|].
  split; [intros []|].
  exact (@recording_stops_at_tick_101 no_math (recording_scene Doubles) short_world 1
           (recording_scene_started Doubles) I (fun H : False => H)).
Defined.




Lemma reversePlayer1_stores_reversal_witness :
  player1OriginalBuffer (buffers (this short_game)) = Some short_clap /\
  well_formed short_world short_clap /\
  fst (fst (initAudioContext a_browser short_game short_world)) = Returned tt /\
  exists reversed s1 w1,
    untouched short_world w1 /\
    well_formed w1 reversed /\
    (forall c, samples w1 reversed c = rev (samples short_world short_clap c)) /\
    (forall c, samples w1 short_clap c = samples short_world short_clap c) /\
    length reversed = length short_clap /\
    sampleRate reversed = sampleRate short_clap /\
    numberOfChannels reversed = numberOfChannels short_clap /\
    buffers (this s1) = set_player1ReversedBuffer (Some reversed) (buffers (this short_game)) /\
    calls s1 = calls short_game /\
    forall onComplete,
      fst (fst (hand onComplete (Some reversed) s1 w1)) = Returned tt ->
      reversePlayer1 a_browser onComplete short_game short_world
      = hand onComplete (Some reversed) s1 w1.
Proof.
  split; [reflexivity|]. split; [exact short_clap_well_formed|]. split; [reflexivity|].
  exact (@reversePlayer1_stores_reversal Doubles a_browser short_game short_world short_clap
           eq_refl short_clap_well_formed eq_refl).
Defined.


(** *** The game *)

Lemma loaded_app_unplayed (N : NumOps) : unplayed (game (loaded_app N)).
Proof. repeat split. Qed.

Lemma turns_alternate_players_witness :
  unplayed (game (loaded_app Doubles)) /\
  (List.length three_turns <= 5)%nat /\
  exists s',
    playTurns Math_PI_double some_categories some_emoji three_turns (loaded_app Doubles)
    = (Returned tt, s') /\
    turnsCompleted (game s') = 3%Z /\
    currentRound (game s') = 2%Z /\
    currentPlayerIndex (game s') = 1%Z /\
    map (@score Doubles) (roundScores (game s'))
    = [of_Z Doubles 72; of_Z Doubles 64; of_Z Doubles 80] /\
    map (@playerIndex Doubles) (roundScores (game s')) = [0; 1; 0]%Z /\
    map (@round Doubles) (roundScores (game s')) = [1; 1; 2]%Z /\
    map (@turn Doubles) (roundScores (game s')) = [1; 2; 3]%Z.
Proof.
  split; [exact (loaded_app_unplayed Doubles)|].
  split; [cbn; lia|].
  exact (@turns_alternate_players Doubles Math_PI_double some_categories some_emoji
           three_turns (loaded_app Doubles) (loaded_app_unplayed Doubles)
           ltac:(cbn; lia)).
Defined.

Lemma game_over_at_sixth_score_witness :
  unplayed (game (loaded_app Doubles)) /\
  (List.length five_turns <= 5)%nat /\
  exists s' v,
    followedBy (playTurns Math_PI_double some_categories some_emoji five_turns)
               (fun _ => scoreCallback Math_PI_double (of_Z Doubles 90))
               (loaded_app Doubles)
    = (Returned tt, s') /\
    gameContent (page s') = Some (ResultsViewOf v) /\
    score_value v = n_round Doubles (of_Z Doubles 90) /\
    performance_message v = fst (getPerformanceMessage Doubles (of_Z Doubles 90)) /\
    turnsCompleted (game s') = 6%Z /\
    ((5 < 5)%nat -> buttons v = NextTurnButton /\ final_scores v = None) /\
    (5%nat = 5%nat ->
     buttons v = PlayAgainAndHomeButtons /\
     final_scores v = Some (finalScores (game s'))).
Proof.
  split; [exact (loaded_app_unplayed Doubles)|].
  split; [cbn; lia|].
  exact (@game_over_at_sixth_score Doubles Math_PI_double some_categories some_emoji
           five_turns (of_Z Doubles 90) (loaded_app Doubles)
           (loaded_app_unplayed Doubles) ltac:(cbn; lia)).
Defined.

Lemma final_scores_of_a_game_witness :
  unplayed (game (loaded_app Doubles)) /\
  exists s' v f,
    followedBy (playTurns Math_PI_double some_categories some_emoji five_turns)
               (fun _ => scoreCallback Math_PI_double (of_Z Doubles 90))
               (loaded_app Doubles)
    = (Returned tt, s') /\
    gameContent (page s') = Some (ResultsViewOf v) /\
    final_scores v = Some f /\
    first_name f = "Player 1"%string /\
    first_rows f
    = [rowOf Doubles 1 (of_Z Doubles 72); rowOf Doubles 2 (of_Z Doubles 80);
       rowOf Doubles 3 (of_Z Doubles 91)] /\
    first_average f
    = averageOfThree Doubles (of_Z Doubles 72) (of_Z Doubles 80) (of_Z Doubles 91) /\
    second_name f = "Player 2"%string /\
    second_rows f
    = [rowOf Doubles 1 (of_Z Doubles 64); rowOf Doubles 2 (of_Z Doubles 85);
       rowOf Doubles 3 (of_Z Doubles 90)] /\
    second_average f
    = averageOfThree Doubles (of_Z Doubles 64) (of_Z Doubles 85) (of_Z Doubles 90) /\
    banner f = "🎉 Player 1 Wins!"%string.
Proof.
  split; [exact (loaded_app_unplayed Doubles)|].
  exact (@final_scores_of_a_game Doubles Math_PI_double some_categories some_emoji
           (turn_scored 72) (turn_scored 64) (turn_scored 80) (turn_scored 85)
           (turn_scored 91) (of_Z Doubles 90) (loaded_app Doubles)
           (loaded_app_unplayed Doubles)).
Defined.

Lemma final_banner_is_tie_with_NaN_score_witness :
  In spoiled_turn (roundScores spoiled_game) /\
  (playerIndex spoiled_turn = 0%Z \/ playerIndex spoiled_turn = 1%Z) /\
  score spoiled_turn = nan /\
  banner (finalScores spoiled_game) = "🤝 It's a Tie!"%string.
Proof.
  assert (Hin : In spoiled_turn (roundScores spoiled_game)).
  { right. right. left. reflexivity. }
  split; [exact Hin|].
  split; [left; reflexivity|].
  split; [reflexivity|].
  exact (@final_banner_is_tie_with_NaN_score no_math spoiled_game spoiled_turn Hin
           (or_introl eq_refl) eq_refl).
Defined.

Lemma getPerformanceMessage_rises_witness :
  PrimFloat.leb (F64.of_Z 55) (F64.of_Z 85) = true /\
  (placeIn praise (fst (getPerformanceMessage Doubles (F64.of_Z 55)))
   <= placeIn praise (fst (getPerformanceMessage Doubles (F64.of_Z 85))))%nat.
Proof.
  split; [vm_compute; reflexivity|].
  apply (@getPerformanceMessage_rises no_math (F64.of_Z 55) (F64.of_Z 85)).
  vm_compute. reflexivity.
Defined.
